(** * evo: line CRDT, op log, commits and streams

    A shallow embedding of the Go sources of the evo version control
    engine (packages [crdt], [compact], [ops], [types], [commits],
    [streams]) with the properties of them that the specification states
    and further properties of the same code.

    Conventions of the embedding:
    - Go integers are [Z]; where the source converts or overflows, the
      wrap-around is written out ([wrap64], [byte_of_Z], ...).
    - a [uuid.UUID] (a [[16]byte] array) is the 128-bit big-endian number
      its bytes spell, a [Z] in [[0, 2^128)]; [UUID_String] is its
      canonical 8-4-4-4-12 lowercase hex form.
    - a Go [string] is a Rocq [string] (a sequence of octets), a file is a
      [list byte].
    - a [time.Time] is the number of nanoseconds since the Unix epoch.
    - [sort.Slice] is not a stable sort: it is the interface [SliceSort],
      whose contract ([SliceSortSpec]) is all that general theorems use;
      [merge_slice_sort] is one implementation, used to evaluate the
      code on concrete inputs. *)

From Stdlib Require Import ZArith Lia Strings.String Strings.Ascii Strings.Byte.
From stdpp Require Import gmap strings list fin_maps sorting pretty.

#[local] Open Scope Z_scope.

(** ** Go runtime: sort.Slice *)

Class SliceSort := slice_sort : ∀ {A : Type}, (A → A → bool) → list A → list A.

(** [not_after less a b]: [a] may stand before [b] in a slice sorted by
    [less], that is, [b] is not strictly less than [a]. *)
Definition not_after {A : Type} (less : A → A → bool) : relation A :=
  λ a b, less b a = false.

#[global] Instance not_after_dec {A : Type} (less : A → A → bool) (a b : A) :
  Decision (not_after less a b).
Proof. unfold not_after. apply _. Defined.

(** The contract of [sort.Slice]: the slice is permuted, and it ends up
    sorted whenever [less] is a strict weak ordering. *)
Class SliceSortSpec (S : SliceSort) : Prop := {
  slice_sort_perm :
    ∀ (A : Type) (less : A → A → bool) (l : list A), slice_sort less l ≡ₚ l;
  slice_sort_sorted :
    ∀ (A : Type) (less : A → A → bool) (l : list A),
      Transitive (not_after less) → Total (not_after less) →
      StronglySorted (not_after less) (slice_sort less l)
}.

#[global] Instance merge_slice_sort : SliceSort :=
  λ A less, merge_sort (not_after less).

(** ** Go runtime: fixed-width integers, bytes and hex *)

Definition wrap64 (z : Z) : Z := z mod 2 ^ 64.
Definition wrap32 (z : Z) : Z := z mod 2 ^ 32.

(** [byte(x)]: the low eight bits. *)
Definition byte_of_Z (z : Z) : byte :=
  match Byte.of_N (Z.to_N (z mod 256)) with
  | Some b => b
  | None => "000"%byte
  end.

Definition Z_of_byte (b : byte) : Z := Z.of_N (Byte.to_N b).

(** Big-endian encoding of [v] on [n] bytes ([binary.BigEndian.PutUintNN],
    and the byte array of a UUID). *)
Fixpoint be_bytes (n : nat) (v : Z) : list byte :=
  match n with
  | O => []
  | S n' => byte_of_Z (v / 256 ^ Z.of_nat n') :: be_bytes n' v
  end.

(** Big-endian decoding ([binary.BigEndian.UintNN]). *)
Definition be_value (bs : list byte) : Z :=
  fold_left (λ acc b, acc * 256 + Z_of_byte b) bs 0.

Definition hex_digit (d : Z) : ascii :=
  match String.get (Z.to_nat (d mod 16)) "0123456789abcdef" with
  | Some c => c
  | None => "0"%char
  end.

(** [n] lowercase hex digits of [v], most significant first. *)
Fixpoint hex_of (n : nat) (v : Z) : string :=
  match n with
  | O => EmptyString
  | S n' => String (hex_digit (v / 16 ^ Z.of_nat n')) (hex_of n' v)
  end.

Definition UUID := Z.
Definition Time := Z.

(** [uuid.UUID.String]: xxxxxxxx-xxxx-xxxx-xxxx-xxxxxxxxxxxx. *)
Definition UUID_String (u : UUID) : string :=
  hex_of 8 (u / 2 ^ 96) +:+ "-" +:+ hex_of 4 (u / 2 ^ 80) +:+ "-" +:+
  hex_of 4 (u / 2 ^ 64) +:+ "-" +:+ hex_of 4 (u / 2 ^ 48) +:+ "-" +:+
  hex_of 12 u.

Definition wf_UUID (u : UUID) : Prop := 0 ≤ u < 2 ^ 128.

(** ** Package crdt: operations and the RGA *)

Module crdt.

Definition OpType := Z.
Definition OpInsert : OpType := 0.
Definition OpUpdate : OpType := 1.
Definition OpDelete : OpType := 2.

Record Operation := mkOperation {
  Typ : OpType;          (* field [Type] of the source *)
  Lamport : Z;           (* uint64 *)
  NodeID : UUID;
  FileID : UUID;
  LineID : UUID;
  Content : string;
  Stream : string;
  Timestamp : Time;
  Vector : list Z
}.

#[global] Instance Operation_eq_dec : EqDecision Operation.
Proof. solve_decision. Defined.

Definition CanCombine (o other : Operation) : bool :=
  if negb (bool_decide (Stream o = Stream other)) then false
  else if negb (bool_decide (FileID o = FileID other)) then false
  else if bool_decide (Typ o = OpDelete) || bool_decide (Typ other = OpDelete)
  then false
  else Lamport o <? Lamport other.

Definition LessThan (o other : Operation) : bool :=
  if negb (Lamport o =? Lamport other) then Lamport o <? Lamport other
  else String.ltb (UUID_String (NodeID o)) (UUID_String (NodeID other)).

Record RGAOperation := NewRGAOperation {
  op_of : Operation;     (* the embedded [Operation] *)
  Index : Z
}.

Definition set_Content (c : string) (e : RGAOperation) : RGAOperation :=
  let o := op_of e in
  NewRGAOperation
    (mkOperation (Typ o) (Lamport o) (NodeID o) (FileID o) (LineID o) c
       (Stream o) (Timestamp o) (Vector o))
    (Index e).

Record RGA := mkRGA {
  ops : list RGAOperation;
  tombstone : gmap string bool
}.

Definition NewRGA : RGA := mkRGA [] ∅.

(** [r.tombstone[k]]: a missing key reads as [false]. *)
Definition tombstoned (r : RGA) (line : UUID) : bool :=
  default false (tombstone r !! UUID_String line).

Inductive ApplyError :=
| ErrLineNotFound (line : UUID)
| ErrUnknownOpType (t : OpType).

(** The loop of the [OpUpdate] case: the first entry for the line gets
    the new content; [None] when no entry has that line. *)
Fixpoint update_first (l : list RGAOperation) (line : UUID) (c : string)
  : option (list RGAOperation) :=
  match l with
  | [] => None
  | e :: l' =>
      if bool_decide (LineID (op_of e) = line) then Some (set_Content c e :: l')
      else cons e <$> update_first l' line c
  end.

(** [RGA.Apply]: the state after the call and the error it returns. On an
    error the RGA is left as it was. *)
Definition Apply `{SliceSort} (r : RGA) (op : Operation) : RGA * option ApplyError :=
  let rgaOp := NewRGAOperation op (Z.of_nat (length (ops r))) in
  if bool_decide (Typ op = OpInsert) then
    (mkRGA (slice_sort (λ a b, LessThan (op_of a) (op_of b)) (ops r ++ [rgaOp]))
           (tombstone r), None)
  else if bool_decide (Typ op = OpDelete) then
    (mkRGA (ops r) (<[UUID_String (LineID op) := true]> (tombstone r)), None)
  else if bool_decide (Typ op = OpUpdate) then
    match update_first (ops r) (LineID op) (Content op) with
    | Some l => (mkRGA l (tombstone r), None)
    | None => (r, Some (ErrLineNotFound (LineID op)))
    end
  else (r, Some (ErrUnknownOpType (Typ op))).

Definition live (r : RGA) : list RGAOperation :=
  filter (λ e, tombstoned r (LineID (op_of e)) = false) (ops r).

Definition Materialize (r : RGA) : list string :=
  (λ e, Content (op_of e)) <$> live r.

Definition Get (r : RGA) : list string := Materialize r.

Definition GetOperations (r : RGA) : list Operation := op_of <$> ops r.

Definition GetLineIDs (r : RGA) : list UUID :=
  (λ e, LineID (op_of e)) <$> live r.

Definition LineMap (r : RGA) : gmap Z string :=
  fold_left (λ m e, <[LineID (op_of e) := Content (op_of e)]> m) (live r) ∅.

(** Applying a slice of ops one after the other, errors ignored (the loop
    of [CompactRGA] and of [buildDocStates]). *)
Definition apply_all `{SliceSort} (r : RGA) (l : list Operation) : RGA :=
  fold_left (λ r op, (Apply r op).1) l r.

(** The same loop stopping at the first error (the loop of [processFile]). *)
Fixpoint apply_strict `{SliceSort} (r : RGA) (l : list Operation)
  : RGA + ApplyError :=
  match l with
  | [] => inl r
  | op :: l' =>
      match Apply r op with
      | (r', None) => apply_strict r' l'
      | (_, Some e) => inr e
      end
  end.

(** [Combine]: the vector is first replaced by a copy as long as the other
    one when that one is longer, then overwritten index by index. *)
Definition extend_Vector (v other : list Z) : list Z :=
  if bool_decide (length v < length other)%nat
  then v ++ replicate (length other - length v) 0
  else v.

Definition overwrite_Vector (v other : list Z) : list Z :=
  fold_left
    (λ v i, if bool_decide (i < length v)%nat then <[i := other !!! i]> v else v)
    (seq 0 (length other)) v.

Definition Combine (o other : Operation) : Operation :=
  mkOperation (Typ o) (Lamport other) (NodeID o) (FileID o) (LineID o)
    (Content other) (Stream o) (Timestamp other)
    (overwrite_Vector (extend_Vector (Vector o) (Vector other)) (Vector other)).

End crdt.

(** ** Package compact: compaction of an op list *)

Module compact.

Record Config := mkConfig {
  MaxOps : Z;
  TombstoneTTL : Z;        (* time.Duration, nanoseconds *)
  MinOpsToKeep : Z;
  CompactionInterval : Z
}.

Definition hour : Z := 3600 * 10 ^ 9.

Definition DefaultConfig : Config :=
  mkConfig 10000 (7 * 24 * hour) 1000 (1 * hour).

(** [t.Sub(u)]: the difference as an int64 [Duration], saturating. *)
Definition Time_Sub (t u : Time) : Z :=
  Z.max (- 2 ^ 63) (Z.min (2 ^ 63 - 1) (t - u)).

Definition sortOps `{SliceSort} (l : list crdt.Operation) : list crdt.Operation :=
  slice_sort crdt.LessThan l.

(** The keys of [lineOps] and the history of one line. Go ranges over the
    map in an unspecified order; here it is the order of first occurrence.
    The order only feeds [sortOps]. *)
Definition line_keys (l : list crdt.Operation) : list UUID :=
  remove_dups (crdt.LineID <$> l).

Definition line_history (l : list crdt.Operation) (line : UUID)
  : list crdt.Operation :=
  filter (λ op, crdt.LineID op = line) l.

(** The body of the loop over [lineOps]: what one line contributes. *)
Definition compact_line `{SliceSort} (cfg : Config) (now : Time)
    (lineHistory : list crdt.Operation) : list crdt.Operation :=
  match last (sortOps lineHistory) with
  | None => []
  | Some finalOp =>
      if bool_decide (crdt.Typ finalOp = crdt.OpDelete)
         && bool_decide (TombstoneTTL cfg < Time_Sub now (crdt.Timestamp finalOp))
      then []
      else [finalOp]
  end.

(** [CompactOperations]; [now] is the reading of [time.Now()]. [None] is
    the run-time panic of [ops[:cfg.MinOpsToKeep]] when the bound exceeds
    the slice (whose capacity is taken to be its length). *)
Definition CompactOperations `{SliceSort} (now : Time)
    (l : list crdt.Operation) (cfg : Config) : option (list crdt.Operation) :=
  if bool_decide (Z.of_nat (length l) < MaxOps cfg) then Some l
  else
    let compacted :=
      sortOps (concat ((λ k, compact_line cfg now (line_history l k)) <$> line_keys l)) in
    if bool_decide (Z.of_nat (length compacted) < MinOpsToKeep cfg) then
      if bool_decide (MinOpsToKeep cfg ≤ Z.of_nat (length l))
      then Some (take (Z.to_nat (MinOpsToKeep cfg)) l)
      else None
    else Some compacted.

Definition CompactRGA `{SliceSort} (now : Time) (rga : crdt.RGA) (cfg : Config)
  : option crdt.RGA :=
  compacted ← CompactOperations now (crdt.GetOperations rga) cfg;
  Some (crdt.apply_all crdt.NewRGA compacted).

End compact.

(** ** Package ops: the binary op log *)

Module ops.

(** [s[lo:hi]] on a slice long enough. *)
Definition slice {A : Type} (lo hi : nat) (l : list A) : list A :=
  take (hi - lo) (drop lo l).

Definition header_size : nat := 1 + 8 + 16 + 16 + 16 + 4.

(** The 61-byte header [buf] that [WriteOp] fills in. *)
Definition header (op : crdt.Operation) : list byte :=
  [byte_of_Z (crdt.Typ op)]
  ++ be_bytes 8 (crdt.Lamport op)
  ++ be_bytes 16 (crdt.NodeID op)
  ++ be_bytes 16 (crdt.FileID op)
  ++ be_bytes 16 (crdt.LineID op)
  ++ be_bytes 4 (wrap32 (Z.of_nat (length (list_byte_of_string (crdt.Content op))))).

(** The bytes [WriteOp] writes: the header, then the content. *)
Definition WriteOp (op : crdt.Operation) : list byte :=
  header op ++ list_byte_of_string (crdt.Content op).

Inductive ReadError := EOF | ErrUnexpectedEOF.

(** [io.ReadFull] of [n] bytes from a reader holding [r]: the bytes or the
    error, and what is left in the reader. *)
Definition ReadFull (n : nat) (r : list byte) : (list byte + ReadError) * list byte :=
  if bool_decide (n = 0%nat) then (inl [], r)
  else if bool_decide (length r = 0%nat) then (inr EOF, r)
  else if bool_decide (length r < n)%nat then (inr ErrUnexpectedEOF, [])
  else (inl (take n r), drop n r).

(** The zero [time.Time] (January 1, year 1, UTC). *)
Definition zero_Time : Time := -62135596800 * 10 ^ 9.

Definition ReadOp (r : list byte) : (crdt.Operation + ReadError) * list byte :=
  match ReadFull header_size r with
  | (inr e, r') => (inr e, r')
  | (inl header, r') =>
      let opType := Z_of_byte (default "000"%byte (head header)) in
      let lamport := be_value (slice 1 9 header) in
      let nodeID := be_value (slice 9 25 header) in
      let fileID := be_value (slice 25 41 header) in
      let lineID := be_value (slice 41 57 header) in
      let contentLen := be_value (slice 57 61 header) in
      match
        (if bool_decide (0 < contentLen) then ReadFull (Z.to_nat contentLen) r'
         else (inl [], r'))
      with
      | (inr e, r'') => (inr e, r'')
      | (inl content, r'') =>
          (inl (crdt.mkOperation opType lamport nodeID fileID lineID
                  (string_of_list_byte content) "" zero_Time []), r'')
      end
  end.

(** The loop of [LoadAllOps]; every record read takes more than one byte
    off the reader, so [fuel] beyond its length is never used up. *)
Fixpoint read_loop (fuel : nat) (r : list byte) (out : list crdt.Operation)
  : list crdt.Operation * option ReadError :=
  match fuel with
  | O => (out, None)
  | S fuel' =>
      match ReadOp r with
      | (inr EOF, _) => (out, None)
      | (inr ErrUnexpectedEOF, _) => (out, None)
      | (inl op, r') => read_loop fuel' r' (out ++ [op])
      end
  end.

(** [LoadAllOps]: [file] is the content of the file, [None] if it does
    not exist. The second component is the error returned. *)
Definition LoadAllOps (file : option (list byte))
  : list crdt.Operation * option ReadError :=
  match file with
  | None => ([], None)
  | Some bytes => read_loop (S (length bytes)) bytes []
  end.

(** [AppendOp]: the file after the call (created if missing). *)
Definition AppendOp (file : option (list byte)) (op : crdt.Operation) : list byte :=
  default [] file ++ WriteOp op.

(** The file after appending the ops of a list one by one. *)
Definition append_all (file : option (list byte)) (l : list crdt.Operation)
  : option (list byte) :=
  fold_left (λ f op, Some (AppendOp f op)) l file.

(** *** Ingest: the differ of [processFile] *)

(** What one call of [processFile] reads from outside the repository. *)
Record IngestEnv := mkIngestEnv {
  env_UnixNano : Z;        (* time.Now().UnixNano() *)
  env_Now : Time;          (* time.Now(), one reading for the whole call *)
  env_uuid : nat → UUID    (* the successive results of uuid.New() *)
}.

Inductive IngestError :=
| ErrApply (e : crdt.ApplyError)
| ErrStoreFile
| ErrReadFile                  (* os.ReadFile of the working-tree file fails *)
| ErrAppendOp.                 (* AppendOp returns an error *)

Definition LF : ascii := "010"%char.
Definition CR : ascii := "013"%char.

(** [strings.ReplaceAll(s, "\r\n", "\n")]. *)
Fixpoint ReplaceAll_CRLF (s : string) : string :=
  match s with
  | EmptyString => EmptyString
  | String c s' =>
      match s' with
      | String c' s'' =>
          if bool_decide (c = CR) && bool_decide (c' = LF)
          then String LF (ReplaceAll_CRLF s'')
          else String c (ReplaceAll_CRLF s')
      | EmptyString => String c EmptyString
      end
  end.

(** [strings.Split(s, "\n")]: one more piece than there are separators. *)
Fixpoint Split_LF (s : string) : list string :=
  match s with
  | EmptyString => [EmptyString]
  | String c s' =>
      if bool_decide (c = LF) then EmptyString :: Split_LF s'
      else match Split_LF s' with
           | piece :: pieces => String c piece :: pieces
           | [] => [String c EmptyString]
           end
  end.

Fixpoint eqLines_from (a b : list string) : bool :=
  match a, b with
  | [], _ => true
  | x :: a', y :: b' => if bool_decide (x ≠ y) then false else eqLines_from a' b'
  | _ :: _, [] => false
  end.

Definition eqLines (a b : list string) : bool :=
  if bool_decide (length a ≠ length b) then false else eqLines_from a b.

Definition readLargeThreshold : Z := 1000000.

(** [for prefix < minLen && docLines[prefix] == diskLines[prefix]]. *)
Fixpoint prefix_loop (fuel prefix minLen : nat) (docLines diskLines : list string) : nat :=
  match fuel with
  | O => prefix
  | S fuel' =>
      if bool_decide (prefix < minLen)%nat
         && bool_decide (docLines !!! prefix = diskLines !!! prefix)
      then prefix_loop fuel' (S prefix) minLen docLines diskLines
      else prefix
  end.

(** [for suffix < minLen-prefix && docLines[len(docLines)-1-suffix] == ...]. *)
Fixpoint suffix_loop (fuel suffix bound : nat) (docLines diskLines : list string) : nat :=
  match fuel with
  | O => suffix
  | S fuel' =>
      if bool_decide (suffix < bound)%nat
         && bool_decide (docLines !!! (length docLines - 1 - suffix)%nat
                         = diskLines !!! (length diskLines - 1 - suffix)%nat)
      then suffix_loop fuel' (S suffix) bound docLines diskLines
      else suffix
  end.

Section diff.
Context (env : IngestEnv) (stream : string) (fileID : UUID).
Context (lineIDs : list UUID) (startPos : nat) (docMid diskMid : list string).

Definition lamport0 : Z := wrap64 (env_UnixNano env).

(** The ops of the first loop, one per differing middle line. *)
Definition update_ops : list crdt.Operation :=
  i ← seq 0 (length docMid `min` length diskMid);
  if bool_decide (docMid !!! i ≠ diskMid !!! i) then
    [crdt.mkOperation crdt.OpUpdate (wrap64 (lamport0 + Z.of_nat i))
       (env_uuid env 0) fileID (lineIDs !!! (startPos + i)%nat)
       (diskMid !!! i) stream (env_Now env) []]
  else [].

(** The ops of the second loop, one per middle line the disk lacks. *)
Definition delete_ops : list crdt.Operation :=
  j ← seq (length diskMid) (length docMid - length diskMid);
  [crdt.mkOperation crdt.OpDelete (wrap64 (lamport0 + Z.of_nat j))
     (env_uuid env 0) fileID (lineIDs !!! (startPos + j)%nat)
     "" stream (env_Now env) []].

(** The ops of the third loop; [lamport] has been incremented [t] times
    when the line at [j = i + t] is inserted. *)
Definition insert_ops : list crdt.Operation :=
  let i := (length docMid `min` length diskMid)%nat in
  t ← seq 0 (length diskMid - i);
  [crdt.mkOperation crdt.OpInsert
     (wrap64 (wrap64 (lamport0 + Z.of_nat t) + Z.of_nat (i + t)))
     (env_uuid env (1 + 2 * t)) fileID (env_uuid env (2 + 2 * t))
     (diskMid !!! (i + t)%nat) "" zero_Time []].
End diff.

(** [storeLargeFile]; [stored] is the size [store.StoreFile] reports,
    [None] when it fails. *)
Definition storeLargeFile (env : IngestEnv) (fileID : UUID) (stored : option Z)
    (doc : crdt.RGA) (opsFile : option (list byte))
  : bool * option IngestError * option (list byte) :=
  match stored with
  | None => (false, Some ErrStoreFile, opsFile)
  | Some size =>
      let docLines := crdt.Materialize doc in
      if bool_decide (length docLines = 1%nat)
         && String.prefix "EVO-LFS:" (docLines !!! 0%nat)
      then (false, None, opsFile)
      else
        let lop := crdt.mkOperation crdt.OpInsert (wrap64 (env_UnixNano env))
                     (env_uuid env 0) fileID (env_uuid env 1)
                     ("EVO-LFS:" +:+ UUID_String fileID +:+ ":" +:+ pretty size)
                     "" zero_Time [] in
        (true, None, Some (AppendOp opsFile lop))
  end.

(** [processFile] on a run in which the working-tree file is read and
    every call of [AppendOp] succeeds ([processFile_io], below, is the
    function with the outcomes of these calls, and agrees with this one
    on such runs). [tracked] is the file id the index has for the path
    ([None]: not tracked), [opsFile] the op log of the file in the stream,
    [fsize] and [data] the size and content of the working-tree file.
    The result is the flag, the error, and the op log after the call. *)
Definition processFile `{SliceSort} (env : IngestEnv) (stream : string)
    (tracked : option UUID) (opsFile : option (list byte))
    (fsize : Z) (stored : option Z) (data : string)
  : bool * option IngestError * option (list byte) :=
  match tracked with
  | None => (false, None, opsFile)
  | Some fileID =>
      let existing := (LoadAllOps opsFile).1 in
      match crdt.apply_strict crdt.NewRGA existing with
      | inr e => (false, Some (ErrApply e), opsFile)
      | inl doc =>
          if bool_decide (readLargeThreshold < fsize)
          then storeLargeFile env fileID stored doc opsFile
          else
            let diskLines := Split_LF (ReplaceAll_CRLF data) in
            let docLines := crdt.Materialize doc in
            if eqLines docLines diskLines then (false, None, opsFile)
            else
              let lineIDs := crdt.GetLineIDs doc in
              let minLen := (length docLines `min` length diskLines)%nat in
              let prefix := prefix_loop minLen 0 minLen docLines diskLines in
              let suffix :=
                suffix_loop minLen 0 (minLen - prefix) docLines diskLines in
              let docMid := slice prefix (length docLines - suffix) docLines in
              let diskMid := slice prefix (length diskLines - suffix) diskLines in
              let emitted :=
                update_ops env stream fileID lineIDs prefix docMid diskMid
                ++ delete_ops env stream fileID lineIDs prefix docMid diskMid
                ++ insert_ops env fileID docMid diskMid in
              (bool_decide (emitted ≠ []),
               None,
               append_all opsFile emitted)
      end
  end.


(** *** Ingest with the outcomes of the file-system calls *)

(** How one call of [AppendOp] ends: without error; with an error before
    the file is opened ([os.MkdirAll] or [os.OpenFile] fails); or with an
    error of [WriteOp], after [written] bytes of the record have reached
    the file. *)
Inductive AppendOutcome :=
| AppendOk
| AppendFailsUnopened
| AppendFailsAfter (written : nat).

(** [AppendOp] with its outcome: the file after the call and whether an
    error is returned. *)
Definition AppendOp_run (o : AppendOutcome) (file : option (list byte))
    (op : crdt.Operation) : option (list byte) * bool :=
  match o with
  | AppendOk => (Some (AppendOp file op), false)
  | AppendFailsUnopened => (file, true)
  | AppendFailsAfter written =>
      (Some (default [] file ++ take written (WriteOp op)), true)
  end.

(** The Update and Delete loops of [processFile]: the appends one after
    the other, the first error ends the function. [k] counts the calls
    of [AppendOp]; the result is the file, whether an error came up, and
    the count. *)
Fixpoint append_strict (outcome : nat → AppendOutcome) (k : nat)
    (file : option (list byte)) (l : list crdt.Operation)
  : option (list byte) * bool * nat :=
  match l with
  | [] => (file, false, k)
  | op :: l' =>
      match AppendOp_run (outcome k) file op with
      | (file', true) => (file', true, S k)
      | (file', false) => append_strict outcome (S k) file' l'
      end
  end.

(** The Insert loop of [processFile]: the error of [AppendOp] is not
    looked at. *)
Fixpoint append_lenient (outcome : nat → AppendOutcome) (k : nat)
    (file : option (list byte)) (l : list crdt.Operation) : option (list byte) :=
  match l with
  | [] => file
  | op :: l' => append_lenient outcome (S k) (AppendOp_run (outcome k) file op).1 l'
  end.

(** [storeLargeFile] with the outcome of its one [AppendOp]; [stored] is
    [None] when opening the file, its [Stat] or [store.StoreFile] fails. *)
Definition storeLargeFile_io (o : AppendOutcome) (env : IngestEnv) (fileID : UUID)
    (stored : option Z) (doc : crdt.RGA) (opsFile : option (list byte))
  : bool * option IngestError * option (list byte) :=
  match stored with
  | None => (false, Some ErrStoreFile, opsFile)
  | Some size =>
      let docLines := crdt.Materialize doc in
      if bool_decide (length docLines = 1%nat)
         && String.prefix "EVO-LFS:" (docLines !!! 0%nat)
      then (false, None, opsFile)
      else
        let lop := crdt.mkOperation crdt.OpInsert (wrap64 (env_UnixNano env))
                     (env_uuid env 0) fileID (env_uuid env 1)
                     ("EVO-LFS:" +:+ UUID_String fileID +:+ ":" +:+ pretty size)
                     "" zero_Time [] in
        match AppendOp_run o opsFile lop with
        | (file', true) => (false, Some ErrAppendOp, file')
        | (file', false) => (true, None, file')
        end
  end.

(** [processFile] with the outcomes of its file-system calls: [outcome k]
    is how the call number [k] of [AppendOp] ends, [data] is [None] when
    [os.ReadFile] fails. An error of [AppendOp] in the Update or Delete
    loop is returned with a false flag, whatever was appended before; in
    the Insert loop it is ignored and the flag is set all the same. *)
Definition processFile_io `{SliceSort} (outcome : nat → AppendOutcome)
    (env : IngestEnv) (stream : string)
    (tracked : option UUID) (opsFile : option (list byte))
    (fsize : Z) (stored : option Z) (data : option string)
  : bool * option IngestError * option (list byte) :=
  match tracked with
  | None => (false, None, opsFile)
  | Some fileID =>
      let existing := (LoadAllOps opsFile).1 in
      match crdt.apply_strict crdt.NewRGA existing with
      | inr e => (false, Some (ErrApply e), opsFile)
      | inl doc =>
          if bool_decide (readLargeThreshold < fsize)
          then storeLargeFile_io (outcome 0%nat) env fileID stored doc opsFile
          else
            match data with
            | None => (false, Some ErrReadFile, opsFile)
            | Some data =>
                let diskLines := Split_LF (ReplaceAll_CRLF data) in
                let docLines := crdt.Materialize doc in
                if eqLines docLines diskLines then (false, None, opsFile)
                else
                  let lineIDs := crdt.GetLineIDs doc in
                  let minLen := (length docLines `min` length diskLines)%nat in
                  let prefix := prefix_loop minLen 0 minLen docLines diskLines in
                  let suffix :=
                    suffix_loop minLen 0 (minLen - prefix) docLines diskLines in
                  let docMid := slice prefix (length docLines - suffix) docLines in
                  let diskMid := slice prefix (length diskLines - suffix) diskLines in
                  let strict :=
                    update_ops env stream fileID lineIDs prefix docMid diskMid
                    ++ delete_ops env stream fileID lineIDs prefix docMid diskMid in
                  let inserts := insert_ops env fileID docMid diskMid in
                  match append_strict outcome 0 opsFile strict with
                  | (file', true, _) => (false, Some ErrAppendOp, file')
                  | (file', false, k) =>
                      (bool_decide (strict ++ inserts ≠ []), None,
                       append_lenient outcome k file' inserts)
                  end
            end
      end
  end.

(** What the framing keeps of an op: stream, timestamp and vector are
    not written. *)
Definition persisted (op : crdt.Operation) : crdt.Operation :=
  crdt.mkOperation (crdt.Typ op) (crdt.Lamport op) (crdt.NodeID op)
    (crdt.FileID op) (crdt.LineID op) (crdt.Content op) "" zero_Time [].

(** An op the framing can hold: a type that fits the type octet, a
    64-bit lamport, 16-byte identifiers, a content length that fits the
    32-bit length field. *)
Definition framable (op : crdt.Operation) : Prop :=
  0 ≤ crdt.Typ op < 256 ∧ 0 ≤ crdt.Lamport op < 2 ^ 64 ∧
  wf_UUID (crdt.NodeID op) ∧ wf_UUID (crdt.FileID op) ∧ wf_UUID (crdt.LineID op) ∧
  Z.of_nat (String.length (crdt.Content op)) < 2 ^ 32.

(** [dirOf]: the path up to its last slash or backslash (character 92),
    "." when it has none. *)
Definition is_separator (c : ascii) : bool :=
  bool_decide (c = "/"%char) || bool_decide (c = "092"%char).

Fixpoint dirOf_loop (n : nat) (fp : string) : string :=
  match n with
  | O => "."
  | S i =>
      match String.get i fp with
      | Some c => if is_separator c then substring 0 i fp else dirOf_loop i fp
      | None => dirOf_loop i fp
      end
  end.

Definition dirOf (fp : string) : string := dirOf_loop (String.length fp) fp.

End ops.

(** ** Package types: commits *)

Module types.

Record ExtendedOp := mkExtendedOp {
  Op : crdt.Operation;
  OldContent : string
}.

Record Commit := mkCommit {
  ID : string;
  Stream : string;
  Message : string;
  AuthorName : string;
  AuthorEmail : string;
  Timestamp : Time;
  Operations : list ExtendedOp;   (* [Ops] in package commits *)
  Signature : string
}.

Definition set_Operations (l : list ExtendedOp) (c : Commit) : Commit :=
  mkCommit (ID c) (Stream c) (Message c) (AuthorName c) (AuthorEmail c)
    (Timestamp c) l (Signature c).

Section hashing.
(** [crypto/sha256] and [Time.UTC().Format(time.RFC3339)], from the Go
    standard library. *)
Context (sha256 : list byte → list byte) (Format_RFC3339 : Time → string).

(** [CommitHashString]: the writes to the hash, in order, then the sum. *)
Definition CommitHashString (c : Commit) : string :=
  string_of_list_byte
    (sha256
       (list_byte_of_string (ID c)
        ++ list_byte_of_string (Stream c)
        ++ list_byte_of_string (Message c)
        ++ list_byte_of_string (AuthorName c)
        ++ list_byte_of_string (AuthorEmail c)
        ++ list_byte_of_string (Format_RFC3339 (Timestamp c)))).
End hashing.

End types.

(** ** Package signing *)

Module signing.

(** [hex.EncodeToString]. *)
Definition hex_EncodeToString (bs : list byte) : string :=
  fold_right (λ b s, hex_of 2 (Z_of_byte b) +:+ s) EmptyString bs.

Section signing.
Context (sha256 : list byte → list byte) (Format_RFC3339 : Time → string).
(** [ed25519.Sign] and [ed25519.Verify]. *)
Context (ed25519_Sign : list byte → list byte → list byte).
Context (ed25519_Verify : list byte → list byte → list byte → bool).

(** [SignCommit] once the private key [pk] has been read. *)
Definition SignCommit (pk : list byte) (c : types.Commit) : string :=
  let msg := types.CommitHashString sha256 Format_RFC3339 c in
  hex_EncodeToString (ed25519_Sign pk (list_byte_of_string msg)).

(** The check at the end of [VerifyCommit], [sigBytes] being the decoded
    signature and [pub] the public key. *)
Definition verify_bytes (pub sigBytes : list byte) (c : types.Commit) : bool :=
  let msg := types.CommitHashString sha256 Format_RFC3339 c in
  ed25519_Verify pub (list_byte_of_string msg) sigBytes.
End signing.

End signing.

(** ** The repository on disk *)

(** The part of [.evo] that commits and streams touch. A commit record
    file is taken to give back the commit that was saved in it (the JSON
    framing is not modelled); file-system errors are not modelled. *)
Record Repo := mkRepo {
  stream_files : list string;
    (* the names in .evo/streams, in directory order *)
  commit_dirs : gmap string (gmap string types.Commit);
    (* .evo/commits/<stream>/<file name> *)
  op_files : gmap (string * string) (list byte)
    (* .evo/ops/<stream>/<file name> *)
}.

(** The name of the record file of a commit, and of the op log of a file. *)
Definition commit_file (id : string) : string := id +:+ ".bin".
Definition ops_file (fileID : UUID) : string := UUID_String fileID +:+ ".bin".

(** Every record file of the directory is named after the id of the
    commit it holds, as [SaveCommitFile] and [saveCommit] write them. *)
Definition named_by_id (dir : gmap string types.Commit) : Prop :=
  map_Forall (λ name c, name = commit_file (types.ID c)) dir.

(** The length of an op log of the repository (0 when it is missing). *)
Definition log_size (r : Repo) (path : string * string) : nat :=
  length (default [] (op_files r !! path)).

(** [filepath.Ext(name) == ".bin"]. *)
Definition Ext_is_bin (name : string) : bool :=
  bool_decide (list_ascii_of_string ".bin" `suffix_of` list_ascii_of_string name).

(** [os.ReadDir]: the entries sorted by file name. *)
Definition name_le {A : Type} : relation (string * A) :=
  λ a b, String.leb a.1 b.1 = true.

#[global] Instance name_le_dec {A : Type} (a b : string * A) : Decision (name_le a b).
Proof. unfold name_le. apply _. Defined.

Definition ReadDir {A : Type} (dir : gmap string A) : list (string * A) :=
  merge_sort name_le (map_to_list dir).

Definition commit_dir (r : Repo) (stream : string) : gmap string types.Commit :=
  default ∅ (commit_dirs r !! stream).

(** [ListCommits] (the same in packages commits and streams, up to
    file-system errors). *)
Definition ListCommits `{SliceSort} (r : Repo) (stream : string) : list types.Commit :=
  let out := snd <$> filter (λ e, Ext_is_bin e.1 = true) (ReadDir (commit_dir r stream)) in
  slice_sort (λ a b, types.Timestamp a <? types.Timestamp b) out.

(** [SaveCommitFile(<commits>/<stream>, c)] and [saveCommit]. *)
Definition SaveCommitFile (stream : string) (c : types.Commit) (r : Repo) : Repo :=
  mkRepo (stream_files r)
    (<[stream := <[commit_file (types.ID c) := c]> (commit_dir r stream)]> (commit_dirs r))
    (op_files r).

(** One [ops.AppendOp] to [.evo/ops/<stream>/<fileID>.bin]. *)
Definition append_op (stream : string) (op : crdt.Operation) (r : Repo) : Repo :=
  let path := (stream, ops_file (crdt.FileID op)) in
  mkRepo (stream_files r) (commit_dirs r)
    (<[path := ops.AppendOp (op_files r !! path) op]> (op_files r)).

(** ** Package commits: revert *)

Module commits.

(** What a revert reads from outside: the clock and the UUID source. *)
Record Env := mkEnv {
  UnixNano : nat → Z;     (* the successive readings of time.Now().UnixNano() *)
  uuid_New : nat → UUID  (* the successive results of uuid.New() *)
}.

Definition newLamport (env : Env) (k : nat) : Z := wrap64 (UnixNano env k).

(** [invertOps]; [k] counts the inverse ops built so far, each of which
    takes one clock reading and one fresh UUID. *)
Fixpoint invertOps_from (env : Env) (k : nat) (eops : list types.ExtendedOp)
  : list types.ExtendedOp :=
  match eops with
  | [] => []
  | eop :: rest =>
      let op := types.Op eop in
      if bool_decide (crdt.Typ op = crdt.OpInsert) then
        types.mkExtendedOp
          (crdt.mkOperation crdt.OpDelete (newLamport env k) (uuid_New env k)
             (crdt.FileID op) (crdt.LineID op) "" "" ops.zero_Time [])
          ""
        :: invertOps_from env (S k) rest
      else if bool_decide (crdt.Typ op = crdt.OpDelete) then
        invertOps_from env k rest
      else if bool_decide (crdt.Typ op = crdt.OpUpdate) then
        types.mkExtendedOp
          (crdt.mkOperation crdt.OpUpdate (newLamport env k) (uuid_New env k)
             (crdt.FileID op) (crdt.LineID op) (types.OldContent eop) ""
             ops.zero_Time [])
          (crdt.Content op)
        :: invertOps_from env (S k) rest
      else invertOps_from env k rest
  end.

Definition applyOps (stream : string) (eops : list types.ExtendedOp) (r : Repo) : Repo :=
  fold_left (λ r eop, append_op stream (types.Op eop) r) eops r.

Inductive RevertError := ErrCommitNotFound (commitID stream : string).

(** [RevertCommit]: the repository after the call, and the new commit id
    or the error. [uuid.New()] is called once for the id, before
    [invertOps]; [now] is the reading of [time.Now()]. *)
Definition RevertCommit `{SliceSort} (env : Env) (now : Time) (r : Repo)
    (stream commitID : string) : Repo * (string + RevertError) :=
  match
    list_find (λ c, types.ID c = commitID) (ListCommits r stream)
  with
  | None => (r, inr (ErrCommitNotFound commitID stream))
  | Some (_, target) =>
      let newID := UUID_String (uuid_New env 0) in
      let env' := mkEnv (UnixNano env) (λ k, uuid_New env (S k)) in
      let invOps := invertOps_from env' 0 (types.Operations target) in
      let rcommit :=
        types.mkCommit newID stream
          ("Revert of " +:+ commitID +:+ ": " +:+ types.Message target)
          "Reverter" "revert@evo" now invOps "" in
      (SaveCommitFile stream rcommit (applyOps stream invOps r), inl newID)
  end.

End commits.

(** ** Package commits, second version: [invertOps] *)

Module commits_v2.

Inductive InvertError :=
| ErrMissingOriginalContent   (* cannot revert delete operation *)
| ErrMissingOldContent.       (* cannot revert update operation *)

(** The loop of [invertOps] over the ops taken from the last to the
    first; [k] counts the readings of [time.Now()]. The first op that
    cannot be inverted ends the loop with its error. *)
Fixpoint invert_loop (now : nat → Time) (k : nat) (l : list types.ExtendedOp)
  : list types.ExtendedOp + InvertError :=
  match l with
  | [] => inl []
  | op :: rest =>
      let line := crdt.LineID (types.Op op) in
      if bool_decide (crdt.Typ (types.Op op) = crdt.OpInsert) then
        match invert_loop now (S k) rest with
        | inl inverted =>
            inl (types.mkExtendedOp
                   (crdt.mkOperation crdt.OpDelete 0 0 0 line "" "" (now k) []) ""
                 :: inverted)
        | inr e => inr e
        end
      else if bool_decide (crdt.Typ (types.Op op) = crdt.OpDelete) then
        if bool_decide (crdt.Content (types.Op op) = "") then inr ErrMissingOriginalContent
        else
          match invert_loop now (S k) rest with
          | inl inverted =>
              inl (types.mkExtendedOp
                     (crdt.mkOperation crdt.OpInsert 0 0 0 line
                        (crdt.Content (types.Op op)) "" (now k) []) ""
                   :: inverted)
          | inr e => inr e
          end
      else if bool_decide (crdt.Typ (types.Op op) = crdt.OpUpdate) then
        if bool_decide (types.OldContent op = "") then inr ErrMissingOldContent
        else
          match invert_loop now (S k) rest with
          | inl inverted =>
              inl (types.mkExtendedOp
                     (crdt.mkOperation crdt.OpUpdate 0 0 0 line
                        (types.OldContent op) "" (now k) [])
                     (crdt.Content (types.Op op))
                   :: inverted)
          | inr e => inr e
          end
      else invert_loop now k rest
  end.

Definition invertOps (now : nat → Time) (l : list types.ExtendedOp)
  : list types.ExtendedOp + InvertError :=
  invert_loop now 0 (reverse l).

End commits_v2.

(** ** Package streams: merge, cherry-pick, partial merge *)

Module streams.

Definition replicateOps (stream : string) (eops : list types.ExtendedOp) (r : Repo) : Repo :=
  fold_left (λ r eop, append_op stream (types.Op eop) r) eops r.

Definition set_Stream (stream : string) (c : types.Commit) : types.Commit :=
  types.mkCommit (types.ID c) stream (types.Message c) (types.AuthorName c)
    (types.AuthorEmail c) (types.Timestamp c) (types.Operations c)
    (types.Signature c).

(** The commits of [source] whose id no commit of [target] has. *)
Definition missing `{SliceSort} (r : Repo) (source target : string) : list types.Commit :=
  let tgtMap : gset string :=
    list_to_set (types.ID <$> ListCommits r target) in
  filter (λ sc, types.ID sc ∉ tgtMap) (ListCommits r source).

(** The body of the loop over [missing]. *)
Definition merge_commit (target : string) (r : Repo) (mc : types.Commit) : Repo :=
  SaveCommitFile target (set_Stream target mc)
    (replicateOps target (types.Operations mc) r).

Definition MergeStreams `{SliceSort} (r : Repo) (source target : string) : Repo :=
  fold_left (merge_commit target) (missing r source target) r.

Inductive StreamError := ErrNotInAnyStream (commitID : string).

(** The search of [CherryPick]: the first stream, in directory order, that
    lists a commit with the id. *)
Fixpoint find_commit `{SliceSort} (r : Repo) (allStreams : list string) (commitID : string)
  : option types.Commit :=
  match allStreams with
  | [] => None
  | s :: rest =>
      match list_find (λ c, types.ID c = commitID) (ListCommits r s) with
      | Some (_, c) => Some c
      | None => find_commit r rest commitID
      end
  end.

(** [CherryPick]; [newUUID] is the result of [uuid.New()]. *)
Definition CherryPick `{SliceSort} (newUUID : UUID) (r : Repo) (commitID target : string)
  : Repo * option StreamError :=
  match find_commit r (stream_files r) commitID with
  | None => (r, Some (ErrNotInAnyStream commitID))
  | Some found =>
      let nc :=
        types.mkCommit (UUID_String newUUID) target
          ("[cherry-pick] " +:+ types.Message found)
          (types.AuthorName found) (types.AuthorEmail found)
          (types.Timestamp found) (types.Operations found)
          (types.Signature found) in
      (SaveCommitFile target nc (replicateOps target (types.Operations found) r),
       None)
  end.

Record MergeFilter := mkMergeFilter {
  FileIDs : list string;
  OpTypes : list crdt.OpType
}.

Definition shouldIncludeOp (op : types.ExtendedOp) (filter : MergeFilter) : bool :=
  if bool_decide (length (FileIDs filter) = 0%nat)
     && bool_decide (length (OpTypes filter) = 0%nat) then true
  else if bool_decide (0 < length (FileIDs filter))%nat
          && negb (existsb (λ fid, bool_decide (UUID_String (crdt.FileID (types.Op op)) = fid))
                     (FileIDs filter)) then false
  else if bool_decide (0 < length (OpTypes filter))%nat
          && negb (existsb (λ ot, bool_decide (crdt.Typ (types.Op op) = ot))
                     (OpTypes filter)) then false
  else true.





End streams.

(** ** Concrete data for the scenarios *)

Module sample.

Definition L1 : UUID := 1.
Definition L2 : UUID := 2.
Definition F1 : UUID := 3.
Definition N1 : UUID := 7.
Definition N2 : UUID := 8.

Definition ins_a : crdt.Operation :=
  crdt.mkOperation crdt.OpInsert 1 N1 F1 L1 "a" "main" 100 [].
Definition upd_b : crdt.Operation :=
  crdt.mkOperation crdt.OpUpdate 2 N1 F1 L1 "b" "main" 200 [].
Definition del_L1 : crdt.Operation :=
  crdt.mkOperation crdt.OpDelete 2 N1 F1 L1 "" "main" 200 [].
Definition ins_y : crdt.Operation :=
  crdt.mkOperation crdt.OpInsert 2 N2 F1 L2 "y" "main" 200 [].

(** The configuration of the compaction test of the repository. *)
Definition test_config : compact.Config :=
  compact.mkConfig 2 (30 * 60 * 10 ^ 9) 1 (100 * 10 ^ 6).

Definition empty_repo : Repo := mkRepo ["feature"; "main"] ∅ ∅.

(** Scenario S3: line L1 inserted with content "a" (commit C1), then
    deleted (commit C2, which keeps the old content). *)
Definition C1 : types.Commit :=
  types.mkCommit "C1" "main" "add a" "A" "a@evo" 100
    [types.mkExtendedOp ins_a ""] "".
Definition C2 : types.Commit :=
  types.mkCommit "C2" "main" "drop a" "A" "a@evo" 200
    [types.mkExtendedOp del_L1 "a"] "".
Definition S3 : Repo :=
  SaveCommitFile "main" C2
    (SaveCommitFile "main" C1
       (append_op "main" del_L1 (append_op "main" ins_a empty_repo))).

Definition env : commits.Env :=
  commits.mkEnv (λ k, 1000 + Z.of_nat k) (λ k, 500 + Z.of_nat k).

(** A stream "feature" with two commits, next to an empty "main". *)
Definition K1 : types.Commit :=
  types.mkCommit "K1" "feature" "one" "A" "a@evo" 100
    [types.mkExtendedOp ins_a ""] "".
Definition K2 : types.Commit :=
  types.mkCommit "K2" "feature" "two" "A" "a@evo" 200
    [types.mkExtendedOp ins_y ""] "".
Definition feature_repo : Repo :=
  SaveCommitFile "feature" K2 (SaveCommitFile "feature" K1 empty_repo).

Definition ingest_env : ops.IngestEnv :=
  ops.mkIngestEnv 1000 1000 (λ k, 50 + Z.of_nat k).

End sample.

(** * Properties *)

(** ** sort.Slice: the merge sort meets the contract *)

Lemma merge_slice_sort_spec : SliceSortSpec merge_slice_sort.
Proof.
  split.
  - intros A less l. apply merge_sort_Permutation.
  - intros A less l Htrans Htotal. by apply (StronglySorted_merge_sort _).
Qed.

#[global] Existing Instance merge_slice_sort_spec.

(** ** The operation model *)

(** C9, as the specification states it, fails: two inserts by different
    nodes on different lines of one file and stream, the first with the
    smaller lamport, can be combined according to [CanCombine]. *)
Lemma C9_CanCombine_not_same_line_node :
  ¬ (∀ o p : crdt.Operation,
       crdt.CanCombine o p = true ↔
       crdt.Stream o = crdt.Stream p ∧ crdt.FileID o = crdt.FileID p ∧
       crdt.LineID o = crdt.LineID p ∧ crdt.NodeID o = crdt.NodeID p ∧
       crdt.Typ o ≠ crdt.OpDelete ∧ crdt.Typ p ≠ crdt.OpDelete ∧
       crdt.Lamport o < crdt.Lamport p).
Proof.
  intros Hclaim.
  pose (o := crdt.mkOperation crdt.OpInsert 1 1 9 1 "x" "main" 0 []).
  pose (p := crdt.mkOperation crdt.OpInsert 2 2 9 2 "y" "main" 0 []).
  destruct (Hclaim o p) as [Hdir _].
  assert (Hc : crdt.CanCombine o p = true) by reflexivity.
  destruct (Hdir Hc) as (_ & _ & Hline & _). discriminate Hline.
Qed.

(** C9, amended: [o.CanCombine(p)] is true if and only if [o] and [p]
    have the same stream and the same file, neither is a Delete, and
    [o.lamport < p.lamport]; lines and nodes are not compared. *)
Theorem C9_CanCombine_iff (o p : crdt.Operation) :
  crdt.CanCombine o p = true ↔
  crdt.Stream o = crdt.Stream p ∧ crdt.FileID o = crdt.FileID p ∧
  crdt.Typ o ≠ crdt.OpDelete ∧ crdt.Typ p ≠ crdt.OpDelete ∧
  crdt.Lamport o < crdt.Lamport p.
Proof.
  unfold crdt.CanCombine.
  destruct (decide (crdt.Stream o = crdt.Stream p)) as [Hs|Hs];
    [rewrite (bool_decide_eq_true_2 _ Hs)|rewrite (bool_decide_eq_false_2 _ Hs)];
    simpl; [|split; [done|tauto]].
  destruct (decide (crdt.FileID o = crdt.FileID p)) as [Hf|Hf];
    [rewrite (bool_decide_eq_true_2 _ Hf)|rewrite (bool_decide_eq_false_2 _ Hf)];
    simpl; [|split; [done|tauto]].
  destruct (decide (crdt.Typ o = crdt.OpDelete)) as [Ho|Ho];
    [rewrite (bool_decide_eq_true_2 _ Ho)|rewrite (bool_decide_eq_false_2 _ Ho)];
    simpl; [split; [done|tauto]|].
  destruct (decide (crdt.Typ p = crdt.OpDelete)) as [Hp|Hp];
    [rewrite (bool_decide_eq_true_2 _ Hp)|rewrite (bool_decide_eq_false_2 _ Hp)];
    simpl; [split; [done|tauto]|].
  rewrite Z.ltb_lt. tauto.
Qed.

(** ** The RGA: what [Apply] keeps *)

Section rga.
Import crdt.
Context {S : SliceSort} {HS : SliceSortSpec S}.

#[local] Abbreviation lines l := ((λ e, LineID (op_of e)) <$> l).

Lemma LineID_set_Content c e : LineID (op_of (set_Content c e)) = LineID (op_of e).
Proof. done. Qed.

Lemma update_first_lines l line c l' :
  update_first l line c = Some l' → lines l' = lines l.
Proof.
  revert l'. induction l as [|e l IH]; intros l' Hl'; simpl in *; [done|].
  case_bool_decide.
  - by inversion Hl'.
  - destruct (update_first l line c) as [l0|] eqn:E; simplify_eq/=.
    f_equal. by apply IH.
Qed.

Lemma update_first_found l line c :
  line ∈ lines l →
  ∃ pre e post,
    l = pre ++ e :: post ∧ LineID (op_of e) = line ∧
    Forall (λ x, LineID (op_of x) ≠ line) pre ∧
    update_first l line c = Some (pre ++ set_Content c e :: post).
Proof.
  induction l as [|e l IH]; simpl; intros Hin.
  - by apply elem_of_nil in Hin.
  - case_bool_decide as Hline.
    + exists [], e, l. by repeat split.
    + apply elem_of_cons in Hin as [Heq|Hin]; [congruence|].
      destruct (IH Hin) as (pre & e' & post & -> & He' & Hpre & ->).
      exists (e :: pre), e', post. repeat split; [done|by constructor].
Qed.

Lemma Apply_keeps_line r op line :
  line ∈ lines (ops r) → line ∈ lines (ops (Apply r op).1).
Proof.
  intros Hin. unfold Apply. repeat case_bool_decide; simpl; try done.
  - rewrite slice_sort_perm, fmap_app. apply elem_of_app. by left.
  - destruct (update_first _ _ _) as [l|] eqn:E; simpl; [|done].
    by rewrite (update_first_lines _ _ _ _ E).
Qed.

Lemma Apply_insert_line r op :
  Typ op = OpInsert → LineID op ∈ lines (ops (Apply r op).1).
Proof.
  intros Ht. unfold Apply. rewrite bool_decide_eq_true_2 by done. simpl.
  rewrite slice_sort_perm, fmap_app. apply elem_of_app. right.
  simpl. apply list_elem_of_singleton. done.
Qed.

Lemma Apply_keeps_tombstone r op line :
  tombstoned r line = true → tombstoned (Apply r op).1 line = true.
Proof.
  intros Ht. unfold Apply. repeat case_bool_decide; simpl; try done.
  - unfold tombstoned in *. simpl.
    destruct (decide (UUID_String (LineID op) = UUID_String line)) as [Heq|Hne].
    + by rewrite Heq, lookup_insert_eq.
    + by rewrite lookup_insert_ne.
  - by destruct (update_first _ _ _).
Qed.

Lemma Apply_delete_tombstone r op :
  Typ op = OpDelete → tombstoned (Apply r op).1 (LineID op) = true.
Proof.
  intros Ht. unfold Apply.
  rewrite bool_decide_eq_false_2 by (rewrite Ht; done).
  rewrite bool_decide_eq_true_2 by done.
  unfold tombstoned. simpl. by rewrite lookup_insert_eq.
Qed.

Lemma apply_all_keeps_line l r line :
  line ∈ lines (ops r) → line ∈ lines (ops (apply_all r l)).
Proof.
  revert r. induction l as [|op l IH]; intros r Hin; simpl; [done|].
  apply IH. by apply Apply_keeps_line.
Qed.

Lemma apply_all_keeps_tombstone l r line :
  tombstoned r line = true → tombstoned (apply_all r l) line = true.
Proof.
  revert r. induction l as [|op l IH]; intros r Hin; simpl; [done|].
  apply IH. by apply Apply_keeps_tombstone.
Qed.

Lemma apply_all_app r l1 l2 :
  apply_all r (l1 ++ l2) = apply_all (apply_all r l1) l2.
Proof. unfold apply_all. apply fold_left_app. Qed.

(** Overwriting the content of a tombstoned entry does not show. *)
Lemma live_set_Content T pre e post c :
  default false (T !! UUID_String (LineID (op_of e))) = true →
  live (mkRGA (pre ++ set_Content c e :: post) T) = live (mkRGA (pre ++ e :: post) T).
Proof.
  intros Ht. unfold live, tombstoned. simpl.
  rewrite !filter_app, !filter_cons. simpl.
  rewrite !decide_False; [done| |]; rewrite Ht; done.
Qed.

Lemma live_not_tombstoned r line :
  tombstoned r line = true → line ∉ GetLineIDs r.
Proof.
  intros Ht Hin. unfold GetLineIDs, live in Hin.
  apply list_elem_of_fmap in Hin as (e & -> & He).
  apply list_elem_of_filter in He as [Hlive _]. congruence.
Qed.
End rga.

(** C10: once Insert(line=L) and then Delete(line=L) have been applied to
    an RGA (whatever was applied before, between and after them), applying
    Update{line=L, content=c} returns no error and overwrites the content
    of the retained entry of L (the first one, were there several) with
    c: the entry at that place then has content c and is otherwise as it
    was, and no other entry changes. L stays out of the live lines and
    the materialized document stays as it was. *)
Theorem C10_Update_after_Delete {S : SliceSort} {HS : SliceSortSpec S}
    (r0 : crdt.RGA) (ins del upd : crdt.Operation) (mid1 mid2 : list crdt.Operation) :
  crdt.Typ ins = crdt.OpInsert →
  crdt.Typ del = crdt.OpDelete →
  crdt.Typ upd = crdt.OpUpdate →
  crdt.LineID del = crdt.LineID ins →
  crdt.LineID upd = crdt.LineID ins →
  let r := crdt.apply_all r0 ([ins] ++ mid1 ++ [del] ++ mid2) in
  ∃ pre e post,
    crdt.ops r = pre ++ e :: post ∧
    crdt.LineID (crdt.op_of e) = crdt.LineID ins ∧
    Forall (λ x, crdt.LineID (crdt.op_of x) ≠ crdt.LineID ins) pre ∧
    crdt.Apply r upd =
      (crdt.mkRGA (pre ++ crdt.set_Content (crdt.Content upd) e :: post)
         (crdt.tombstone r), None) ∧
    (∃ e', crdt.ops (crdt.Apply r upd).1 = pre ++ e' :: post ∧
           crdt.Content (crdt.op_of e') = crdt.Content upd ∧
           crdt.Index e' = crdt.Index e ∧
           crdt.op_of e' =
             crdt.mkOperation (crdt.Typ (crdt.op_of e)) (crdt.Lamport (crdt.op_of e))
               (crdt.NodeID (crdt.op_of e)) (crdt.FileID (crdt.op_of e))
               (crdt.LineID ins) (crdt.Content upd) (crdt.Stream (crdt.op_of e))
               (crdt.Timestamp (crdt.op_of e)) (crdt.Vector (crdt.op_of e))) ∧
    (crdt.LineID ins ∉ crdt.GetLineIDs (crdt.Apply r upd).1) ∧
    crdt.Materialize (crdt.Apply r upd).1 = crdt.Materialize r.
Proof.
  intros Hins Hdel Hupd HLdel HLupd r.
  assert (Hline : crdt.LineID ins ∈ (λ e, crdt.LineID (crdt.op_of e)) <$> crdt.ops r).
  { subst r. rewrite apply_all_app. apply apply_all_keeps_line.
    simpl. by apply Apply_insert_line. }
  assert (Htomb : crdt.tombstoned r (crdt.LineID ins) = true).
  { subst r. rewrite !app_assoc, apply_all_app. apply apply_all_keeps_tombstone.
    rewrite apply_all_app. simpl. rewrite <- HLdel.
    by apply Apply_delete_tombstone. }
  destruct (update_first_found _ _ (crdt.Content upd) Hline)
    as (pre & e & post & Hops & He & Hpre & Hupdate).
  assert (Happly : crdt.Apply r upd =
            (crdt.mkRGA (pre ++ crdt.set_Content (crdt.Content upd) e :: post)
               (crdt.tombstone r), None)).
  { unfold crdt.Apply.
    rewrite !bool_decide_eq_false_2 by (rewrite Hupd; done).
    rewrite bool_decide_eq_true_2 by done.
    by rewrite HLupd, Hupdate. }
  exists pre, e, post.
  split; [done|]. split; [done|]. split; [done|]. split; [done|].
  split; [|split].
  - exists (crdt.set_Content (crdt.Content upd) e). rewrite Happly. cbn [fst crdt.ops].
    split; [done|]. split; [done|]. split; [done|].
    unfold crdt.set_Content. cbn [crdt.op_of]. by rewrite He.
  - rewrite Happly. simpl. apply live_not_tombstoned.
    unfold crdt.tombstoned in *. done.
  - rewrite Happly. simpl. unfold crdt.Materialize.
    rewrite live_set_Content.
    + f_equal. unfold crdt.live, crdt.tombstoned. simpl. by rewrite Hops.
    + rewrite He. done.
Qed.

(** A run of C10: insert, delete, then update line L1 of an empty RGA. *)
Lemma C10_Update_after_Delete_witness :
  ∃ pre e post,
    crdt.ops (crdt.apply_all crdt.NewRGA [sample.ins_a; sample.del_L1]) = pre ++ e :: post ∧
    crdt.LineID (crdt.op_of e) = sample.L1 ∧
    Forall (λ x, crdt.LineID (crdt.op_of x) ≠ sample.L1) pre ∧
    crdt.Apply (crdt.apply_all crdt.NewRGA [sample.ins_a; sample.del_L1]) sample.upd_b =
      (crdt.mkRGA (pre ++ crdt.set_Content "b" e :: post)
         (crdt.tombstone (crdt.apply_all crdt.NewRGA [sample.ins_a; sample.del_L1])), None) ∧
    (∃ e', crdt.ops
             (crdt.Apply (crdt.apply_all crdt.NewRGA [sample.ins_a; sample.del_L1])
                sample.upd_b).1 = pre ++ e' :: post ∧
           crdt.Content (crdt.op_of e') = "b" ∧
           crdt.Index e' = crdt.Index e ∧
           crdt.op_of e' =
             crdt.mkOperation (crdt.Typ (crdt.op_of e)) (crdt.Lamport (crdt.op_of e))
               (crdt.NodeID (crdt.op_of e)) (crdt.FileID (crdt.op_of e))
               sample.L1 "b" (crdt.Stream (crdt.op_of e))
               (crdt.Timestamp (crdt.op_of e)) (crdt.Vector (crdt.op_of e))) ∧
    (sample.L1 ∉ crdt.GetLineIDs
       (crdt.Apply (crdt.apply_all crdt.NewRGA [sample.ins_a; sample.del_L1]) sample.upd_b).1) ∧
    crdt.Materialize
      (crdt.Apply (crdt.apply_all crdt.NewRGA [sample.ins_a; sample.del_L1]) sample.upd_b).1
    = crdt.Materialize (crdt.apply_all crdt.NewRGA [sample.ins_a; sample.del_L1]).
Proof.
  apply (C10_Update_after_Delete (S:=merge_slice_sort) crdt.NewRGA
           sample.ins_a sample.del_L1 sample.upd_b [] []); reflexivity.
Defined.

(** ** The order of operations *)

Lemma string_compare_le_trans (s1 s2 s3 : string) :
  String.compare s1 s2 ≠ Gt → String.compare s2 s3 ≠ Gt → String.compare s1 s3 ≠ Gt.
Proof.
  revert s2 s3. induction s1 as [|c1 s1 IH]; intros [|c2 s2] [|c3 s3]; simpl; try done.
  unfold Ascii.compare.
  destruct (N.compare_spec (N_of_ascii c1) (N_of_ascii c2)) as [H12|H12|H12];
    destruct (N.compare_spec (N_of_ascii c2) (N_of_ascii c3)) as [H23|H23|H23];
    destruct (N.compare_spec (N_of_ascii c1) (N_of_ascii c3)) as [H13|H13|H13];
    try done; try lia.
  apply IH.
Qed.

Lemma string_ltb_false (s1 s2 : string) :
  String.ltb s1 s2 = false ↔ String.compare s2 s1 ≠ Gt.
Proof.
  unfold String.ltb. rewrite (String.compare_antisym s2 s1).
  destruct (String.compare s1 s2); simpl; split; done.
Qed.

(** [LessThan] is a strict weak ordering: "not after" is a total
    preorder, which is what [sort.Slice] asks of its [less]. *)
Lemma not_after_LessThan (a b : crdt.Operation) :
  not_after crdt.LessThan a b ↔
  crdt.Lamport a < crdt.Lamport b ∨
  (crdt.Lamport a = crdt.Lamport b ∧
   String.compare (UUID_String (crdt.NodeID a)) (UUID_String (crdt.NodeID b)) ≠ Gt).
Proof.
  unfold not_after, crdt.LessThan.
  generalize (UUID_String (crdt.NodeID a)) (UUID_String (crdt.NodeID b)).
  generalize (crdt.Lamport a) (crdt.Lamport b). intros la lb sa sb.
  destruct (Z.eqb_spec lb la) as [Heq|Hne]; cbn [negb].
  - rewrite string_ltb_false. split.
    + intros Hle. right. split; [by symmetry|exact Hle].
    + intros [Hlt|[_ Hle]]; [exfalso; lia|exact Hle].
  - rewrite Z.ltb_ge. split.
    + intros Hle. left. lia.
    + intros [Hlt|[Heq _]]; [lia|exfalso; by apply Hne].
Qed.

Lemma not_after_LessThan_trans : Transitive (not_after crdt.LessThan).
Proof.
  intros a b c. rewrite !not_after_LessThan.
  intros [Hab|[Hab Hsab]] [Hbc|[Hbc Hsbc]]; try (left; lia).
  right. split; [lia|]. by eapply string_compare_le_trans.
Qed.

Lemma not_after_LessThan_total : Total (not_after crdt.LessThan).
Proof.
  intros a b. rewrite !not_after_LessThan.
  destruct (Z.lt_trichotomy (crdt.Lamport a) (crdt.Lamport b)) as [Hlt|[Heq|Hgt]];
    [left; by left| |right; by left].
  rewrite (String.compare_antisym (UUID_String (crdt.NodeID a))).
  destruct (String.compare (UUID_String (crdt.NodeID b)) (UUID_String (crdt.NodeID a)));
    simpl; [left|right|left]; right; done.
Qed.

Section sorted_inputs.
Context {S : SliceSort} {HS : SliceSortSpec S}.

Lemma slice_sort_singleton {A : Type} (less : A → A → bool) (x : A) :
  slice_sort less [x] = [x].
Proof. apply Permutation_singleton_r, slice_sort_perm. Qed.

(** Two ops already in order stay as they are under any [sort.Slice]. *)
Lemma sortOps_ordered_pair (a b : crdt.Operation) :
  crdt.LessThan a b = true → compact.sortOps [a; b] = [a; b].
Proof.
  intros Hlt. unfold compact.sortOps.
  pose proof (slice_sort_sorted _ crdt.LessThan [a; b]
                not_after_LessThan_trans not_after_LessThan_total) as Hsorted.
  destruct (Permutation_length_2_inv
              (symmetry (slice_sort_perm _ crdt.LessThan [a; b]))) as [->| Hswap];
    [done|].
  rewrite Hswap in Hsorted.
  apply StronglySorted_inv in Hsorted as [_ Hba].
  apply Forall_cons in Hba as [Hba _]. unfold not_after in Hba. congruence.
Qed.

Lemma Apply_Insert_NewRGA (op : crdt.Operation) :
  crdt.Typ op = crdt.OpInsert →
  crdt.Apply crdt.NewRGA op = (crdt.mkRGA [crdt.NewRGAOperation op 0] ∅, None).
Proof.
  intros Ht. unfold crdt.Apply. rewrite bool_decide_eq_true_2 by done.
  cbn [crdt.ops crdt.NewRGA app length crdt.tombstone].
  by rewrite slice_sort_singleton.
Qed.
End sorted_inputs.

(** ** Compaction *)

(** C1 at a log the ingest produces (a line inserted, then updated) under
    the configuration of the repository's compaction test, for any
    [sort.Slice]: compaction keeps only the Update, and replaying its
    output gives an empty document where the original log gives the
    line "b". *)
Theorem C1_compaction_drops_updated_line {S : SliceSort} {HS : SliceSortSpec S} :
  compact.CompactOperations 1000 [sample.ins_a; sample.upd_b] sample.test_config
    = Some [sample.upd_b] ∧
  crdt.Materialize (crdt.apply_all crdt.NewRGA [sample.ins_a; sample.upd_b]) = ["b"] ∧
  crdt.Materialize (crdt.apply_all crdt.NewRGA [sample.upd_b]) = [].
Proof.
  split; [|split].
  - unfold compact.CompactOperations.
    rewrite (bool_decide_eq_false_2
               (Z.of_nat (length [sample.ins_a; sample.upd_b])
                < compact.MaxOps sample.test_config))
      by (vm_compute; discriminate).
    change (compact.line_keys [sample.ins_a; sample.upd_b]) with [sample.L1].
    cbn [fmap list_fmap concat app].
    change (compact.line_history [sample.ins_a; sample.upd_b] sample.L1)
      with [sample.ins_a; sample.upd_b].
    unfold compact.compact_line.
    rewrite sortOps_ordered_pair by reflexivity.
    cbn [last].
    rewrite (bool_decide_eq_false_2 (crdt.Typ sample.upd_b = crdt.OpDelete))
      by discriminate.
    cbn [andb app]. unfold compact.sortOps. rewrite slice_sort_singleton.
    by rewrite bool_decide_eq_false_2 by (vm_compute; discriminate).
  - unfold crdt.apply_all. cbn [fold_left].
    rewrite Apply_Insert_NewRGA by reflexivity. vm_compute. reflexivity.
  - vm_compute. reflexivity.
Qed.

Lemma C1_compaction_drops_updated_line_witness :
  compact.CompactOperations (H:=merge_slice_sort) 1000 [sample.ins_a; sample.upd_b] sample.test_config
    = Some [sample.upd_b] ∧
  crdt.Materialize (crdt.apply_all (H:=merge_slice_sort) crdt.NewRGA [sample.ins_a; sample.upd_b]) = ["b"] ∧
  crdt.Materialize (crdt.apply_all (H:=merge_slice_sort) crdt.NewRGA [sample.upd_b]) = [].
Proof. apply (C1_compaction_drops_updated_line (S:=merge_slice_sort)). Defined.

(** The floor of [MinOpsToKeep] hands back a prefix of the log: with a
    floor of 2, an insert, an insert and a delete of the first line
    compact to the two inserts, and the deleted line is back. *)
Example compaction_floor_cuts_the_log :
  let log := [sample.ins_a; sample.ins_y; crdt.mkOperation crdt.OpDelete 3 sample.N1 sample.F1 sample.L1 "" "main" 0 []] in
  let cfg := compact.mkConfig 3 (30 * 60 * 10 ^ 9) 2 0 in
  compact.CompactOperations (10 ^ 15) log cfg = Some [sample.ins_a; sample.ins_y] ∧
  crdt.Materialize (crdt.apply_all crdt.NewRGA log) = ["y"] ∧
  crdt.Materialize (crdt.apply_all crdt.NewRGA [sample.ins_a; sample.ins_y]) = ["a"; "y"].
Proof. repeat split; vm_compute; reflexivity. Qed.

(** [CompactRGA] reads the RGA through [GetOperations], which carries no
    tombstone: a deleted line is live again in the compacted RGA. *)
Example CompactRGA_forgets_tombstones :
  let rga := crdt.apply_all crdt.NewRGA [sample.ins_a; sample.del_L1] in
  crdt.Materialize rga = [] ∧
  crdt.Materialize <$> compact.CompactRGA 1000 rga sample.test_config = Some ["a"].
Proof. split; vm_compute; reflexivity. Qed.

(** Below [MaxOps] nothing is compacted. *)
Lemma CompactOperations_below_MaxOps {S : SliceSort} now l cfg :
  Z.of_nat (length l) < compact.MaxOps cfg →
  compact.CompactOperations now l cfg = Some l.
Proof.
  intros Hlt. unfold compact.CompactOperations.
  by rewrite bool_decide_eq_true_2.
Qed.

(** ** Revert *)

Lemma invertOps_skips_Delete env k eop rest :
  crdt.Typ (types.Op eop) = crdt.OpDelete →
  commits.invertOps_from env k (eop :: rest) = commits.invertOps_from env k rest.
Proof.
  intros Ht. simpl.
  rewrite bool_decide_eq_false_2 by (rewrite Ht; done).
  by rewrite bool_decide_eq_true_2.
Qed.

(** C2 on scenario S3: reverting commit C2, whose only op is the Delete
    of line L1 with old content "a", makes a revert commit without any
    op and leaves the op log as it was, so that the replayed document
    is still empty; no Insert of L1 with content "a" is made. *)
Theorem C2_revert_of_Delete_reinserts_nothing :
  let newID := UUID_String 500 in
  let out := commits.RevertCommit sample.env 300 sample.S3 "main" "C2" in
  out.2 = inl newID ∧
  commit_dir out.1 "main" !! commit_file newID =
    Some (types.mkCommit newID "main" "Revert of C2: drop a" "Reverter"
            "revert@evo" 300 [] "") ∧
  op_files out.1 = op_files sample.S3 ∧
  crdt.Materialize
    (crdt.apply_all crdt.NewRGA
       (ops.LoadAllOps (op_files out.1 !! ("main", ops_file sample.F1))).1) = [].
Proof. repeat split; vm_compute; reflexivity. Qed.

(** [invertOps] walks the ops forwards: the inverses come out in the
    order of the originals. *)
Example invertOps_keeps_the_order :
  (λ e, crdt.LineID (types.Op e)) <$>
    commits.invertOps_from sample.env 0
      [types.mkExtendedOp sample.ins_a ""; types.mkExtendedOp sample.ins_y ""]
  = [sample.L1; sample.L2].
Proof. reflexivity. Qed.

(** ** The signed hash *)

(** C6: the hash that [SignCommit] signs and [VerifyCommit] checks does
    not read the operations: replacing the operation list of a commit
    changes neither the hash nor the signature. *)
Theorem C6_signed_hash_ignores_operations
    (sha256 : list byte → list byte) (Format_RFC3339 : Time → string)
    (ed25519_Sign : list byte → list byte → list byte)
    (pk : list byte) (c : types.Commit) (l : list types.ExtendedOp) :
  types.CommitHashString sha256 Format_RFC3339 (types.set_Operations l c)
    = types.CommitHashString sha256 Format_RFC3339 c ∧
  signing.SignCommit sha256 Format_RFC3339 ed25519_Sign pk (types.set_Operations l c)
    = signing.SignCommit sha256 Format_RFC3339 ed25519_Sign pk c.
Proof. split; reflexivity. Qed.

(** ** The op log: framing and recovery *)

Section codec.
Import ops.

Lemma Z_of_byte_of_Z z : Z_of_byte (byte_of_Z z) = z mod 256.
Proof.
  unfold Z_of_byte, byte_of_Z.
  assert (Hb : 0 ≤ z mod 256 < 256) by (apply Z.mod_pos_bound; lia).
  destruct (Byte.of_N (Z.to_N (z mod 256))) as [b|] eqn:E.
  - apply Byte.to_of_N in E. rewrite E. lia.
  - apply Byte.of_N_None_iff in E. lia.
Qed.

Lemma length_be_bytes n v : length (be_bytes n v) = n.
Proof. induction n as [|n IH]; cbn [be_bytes length]; [done|by rewrite IH]. Qed.

Lemma be_fold n v acc :
  fold_left (λ a b, a * 256 + Z_of_byte b) (be_bytes n v) acc
  = acc * 256 ^ Z.of_nat n + v mod 256 ^ Z.of_nat n.
Proof.
  revert acc. induction n as [|n IH]; intros acc.
  - simpl. rewrite Z.mod_1_r. lia.
  - cbn [be_bytes fold_left]. rewrite IH, Z_of_byte_of_Z.
    rewrite Nat2Z.inj_succ, Z.pow_succ_r by lia.
    rewrite (Z.mul_comm 256 (256 ^ Z.of_nat n)).
    rewrite (Z.rem_mul_r v (256 ^ Z.of_nat n) 256) by lia.
    lia.
Qed.

Lemma be_value_be_bytes n v :
  0 ≤ v < 256 ^ Z.of_nat n → be_value (be_bytes n v) = v.
Proof.
  intros Hv. unfold be_value. rewrite be_fold, Z.mod_small by done. lia.
Qed.

Lemma length_list_byte_of_string s :
  length (list_byte_of_string s) = String.length s.
Proof. induction s as [|c s IH]; cbn; [done|by rewrite <- IH]. Qed.

Lemma length_header op : length (header op) = header_size.
Proof. unfold header. rewrite !length_app, !length_be_bytes. done. Qed.

Lemma length_WriteOp op :
  length (WriteOp op) = (header_size + String.length (crdt.Content op))%nat.
Proof.
  unfold WriteOp. by rewrite length_app, length_header, length_list_byte_of_string.
Qed.

Lemma ReadFull_short n r :
  (length r < n)%nat → ∃ e r', ReadFull n r = (inr e, r').
Proof.
  intros Hlt. unfold ReadFull.
  rewrite bool_decide_eq_false_2 by lia.
  case_bool_decide; [by eauto|].
  rewrite bool_decide_eq_true_2 by done. eauto.
Qed.

Lemma ReadFull_enough (l r : list byte) :
  l ≠ [] → ReadFull (length l) (l ++ r) = (inl l, r).
Proof.
  intros Hl. unfold ReadFull.
  assert (length l ≠ 0%nat) by (by destruct l).
  rewrite !bool_decide_eq_false_2; rewrite ?length_app; try lia.
  by rewrite take_app_length', drop_app_length'.
Qed.

(** Reading a header written by [WriteOp]: what is left to do is to
    read as many content bytes as the length field says. *)
Lemma ReadOp_header op body :
  framable op →
  ReadOp (header op ++ body) =
    match
      (if bool_decide (0 < Z.of_nat (String.length (crdt.Content op)))
       then ReadFull (String.length (crdt.Content op)) body
       else (inl [], body))
    with
    | (inr e, r'') => (inr e, r'')
    | (inl content, r'') =>
        (inl (crdt.mkOperation (crdt.Typ op) (crdt.Lamport op) (crdt.NodeID op)
                (crdt.FileID op) (crdt.LineID op)
                (string_of_list_byte content) "" zero_Time []), r'')
    end.
Proof.
  intros (Ht & Hl & Hn & Hf & Hli & Hc). unfold wf_UUID in *.
  unfold ReadOp.
  assert (Hh : header op ≠ []) by (unfold header; done).
  pose proof (length_header op) as Hlen.
  rewrite <- Hlen at 1. rewrite (ReadFull_enough _ _ Hh).
  assert (Hfields :
    default "000"%byte (head (header op)) = byte_of_Z (crdt.Typ op) ∧
    slice 1 9 (header op) = be_bytes 8 (crdt.Lamport op) ∧
    slice 9 25 (header op) = be_bytes 16 (crdt.NodeID op) ∧
    slice 25 41 (header op) = be_bytes 16 (crdt.FileID op) ∧
    slice 41 57 (header op) = be_bytes 16 (crdt.LineID op) ∧
    slice 57 61 (header op) =
      be_bytes 4 (wrap32 (Z.of_nat (length (list_byte_of_string (crdt.Content op)))))).
  { unfold header. repeat split. }
  destruct Hfields as (-> & -> & -> & -> & -> & ->).
  rewrite Z_of_byte_of_Z, (Z.mod_small (crdt.Typ op) 256) by lia.
  rewrite length_list_byte_of_string.
  unfold wrap32. rewrite (Z.mod_small (Z.of_nat _)) by lia.
  rewrite !be_value_be_bytes by (simpl; lia).
  rewrite Nat2Z.id. done.
Qed.

Lemma ReadOp_WriteOp op rest :
  framable op → ReadOp (WriteOp op ++ rest) = (inl (persisted op), rest).
Proof.
  intros Hop. unfold WriteOp, persisted.
  rewrite <- app_assoc, ReadOp_header by done.
  case_bool_decide as Hpos.
  - rewrite <- length_list_byte_of_string, ReadFull_enough.
    + by rewrite string_of_list_byte_of_string.
    + intros Hnil. rewrite <- length_list_byte_of_string, Hnil in Hpos.
      simpl in Hpos. lia.
  - destruct (crdt.Content op) eqn:E; [done|simpl in Hpos; lia].
Qed.

(** A record cut short reads as an error. *)
Lemma ReadOp_torn op k :
  framable op → (k < length (WriteOp op))%nat →
  ∃ e r, ReadOp (take k (WriteOp op)) = (inr e, r).
Proof.
  intros Hop Hk. rewrite length_WriteOp in Hk.
  destruct (decide (k < header_size)%nat) as [Hshort|Hlong].
  - unfold ReadOp.
    destruct (ReadFull_short header_size (take k (WriteOp op))) as (e & r & ->);
      [rewrite length_take; lia|eauto].
  - unfold WriteOp. rewrite take_app_ge by (rewrite length_header; lia).
    rewrite ReadOp_header, length_header by done.
    rewrite bool_decide_eq_true_2 by lia.
    destruct (ReadFull_short (String.length (crdt.Content op))
                (take (k - header_size) (list_byte_of_string (crdt.Content op))))
      as (e & r & ->); [rewrite length_take; lia|eauto].
Qed.

(** The loop of [LoadAllOps] on framed records followed by something
    that does not read as a record. *)
Lemma read_loop_records l : ∀ fuel tail out,
  Forall framable l → (length l < fuel)%nat →
  (∃ e r, ReadOp tail = (inr e, r)) →
  read_loop fuel (concat (WriteOp <$> l) ++ tail) out = (out ++ (persisted <$> l), None).
Proof.
  induction l as [|op l IH]; intros fuel tail out Hl Hfuel (e & r & Htail).
  - destruct fuel as [|fuel]; [simpl in Hfuel; lia|].
    simpl. rewrite Htail, app_nil_r. by destruct e.
  - destruct fuel as [|fuel]; [simpl in Hfuel; lia|].
    apply Forall_cons in Hl as [Hop Hl].
    cbn [fmap list_fmap concat read_loop]. rewrite <- app_assoc.
    rewrite ReadOp_WriteOp by done.
    rewrite IH; [|done|simpl in Hfuel; lia|by eauto].
    by rewrite <- app_assoc.
Qed.

Lemma length_records l : (length l ≤ length (concat (WriteOp <$> l)))%nat.
Proof.
  induction l as [|op l IH]; cbn [fmap list_fmap concat]; [done|].
  rewrite length_app, length_WriteOp. unfold header_size.
  cbn [length] in *. lia.
Qed.

Lemma LoadAllOps_records l tail :
  Forall framable l → (∃ e r, ReadOp tail = (inr e, r)) →
  LoadAllOps (Some (concat (WriteOp <$> l) ++ tail)) = (persisted <$> l, None).
Proof.
  intros Hl Htail. unfold LoadAllOps.
  rewrite read_loop_records; [done|done| |done].
  rewrite length_app. pose proof (length_records l). lia.
Qed.

Lemma ReadOp_nil : ReadOp [] = (inr EOF, []).
Proof. reflexivity. Qed.

(** A log built by appends is the concatenation of the records. *)
Lemma append_all_Some l bytes :
  append_all (Some bytes) l = Some (bytes ++ concat (WriteOp <$> l)).
Proof.
  revert bytes. induction l as [|op l IH]; intros bytes; simpl.
  - by rewrite app_nil_r.
  - unfold append_all in *. simpl. rewrite IH. unfold AppendOp. simpl.
    by rewrite <- app_assoc.
Qed.

Lemma LoadAllOps_append_all l :
  Forall framable l →
  LoadAllOps (append_all None l) = (persisted <$> l, None).
Proof.
  intros Hl. destruct l as [|op l]; [done|].
  unfold append_all. cbn [fold_left]. fold (append_all (Some (AppendOp None op)) l).
  rewrite append_all_Some. unfold AppendOp. cbn [default app].
  rewrite <- (app_nil_r (WriteOp op ++ _)).
  change (WriteOp op ++ concat (WriteOp <$> l)) with (concat (WriteOp <$> op :: l)).
  apply LoadAllOps_records; [done|]. rewrite ReadOp_nil. eauto.
Qed.
End codec.

(** Closes [framable] and [Forall framable] goals on concrete ops. *)
Ltac concrete_framable :=
  repeat first [apply List.Forall_nil | apply List.Forall_cons | split];
  vm_compute; first [reflexivity | discriminate | intros ?; discriminate].

Lemma append_all_None_bytes l :
  default [] (ops.append_all None l) = concat (ops.WriteOp <$> l).
Proof.
  destruct l as [|op l]; [done|].
  unfold ops.append_all. cbn [fold_left].
  fold (ops.append_all (Some (ops.AppendOp None op)) l).
  rewrite append_all_Some. done.
Qed.




(** C5: when an op log holds fully framed records followed by a record
    cut short (in its header or in its content), [LoadAllOps] returns
    the ops of the full records, in the order written, nothing for the
    partial tail, and no error. *)
Theorem C5_torn_tail_is_dropped (l : list crdt.Operation) (o : crdt.Operation) (k : nat) :
  Forall ops.framable l → ops.framable o →
  (k < length (ops.WriteOp o))%nat →
  ops.LoadAllOps (Some (default [] (ops.append_all None l) ++ take k (ops.WriteOp o)))
    = (ops.persisted <$> l, None).
Proof.
  intros Hl Ho Hk. rewrite append_all_None_bytes.
  apply LoadAllOps_records; [done|]. by apply ReadOp_torn.
Qed.

(** Scenario S6: op X written in full, then 30 bytes of a header. *)
Lemma C5_torn_tail_is_dropped_witness :
  ops.LoadAllOps
    (Some (default [] (ops.append_all None [sample.ins_a])
           ++ take 30 (ops.WriteOp sample.upd_b)))
    = (ops.persisted <$> [sample.ins_a], None).
Proof.
  apply (C5_torn_tail_is_dropped [sample.ins_a] sample.upd_b 30);
    [concrete_framable..|vm_compute; lia].
Defined.

(** An append after a torn tail is not recovered: the bytes of the new
    record are read as the rest of the torn one. *)
Example append_after_torn_tail :
  let torn := default [] (ops.append_all None [sample.ins_a])
              ++ take 30 (ops.WriteOp sample.upd_b) in
  (ops.LoadAllOps (Some (ops.AppendOp (Some torn) sample.ins_y))).1
    ≠ (ops.LoadAllOps (Some torn)).1 ++ [ops.persisted sample.ins_y].
Proof. vm_compute. discriminate. Qed.

(** ** Ingest *)

Section ingest.
Import ops.

Lemma eqLines_from_refl a : eqLines_from a a = true.
Proof.
  induction a as [|x a IH]; simpl; [done|].
  by rewrite bool_decide_eq_false_2 by (intros Hne; by apply Hne).
Qed.

Lemma eqLines_refl a : eqLines a a = true.
Proof.
  unfold eqLines.
  rewrite bool_decide_eq_false_2 by (intros Hne; by apply Hne).
  apply eqLines_from_refl.
Qed.

Lemma Split_LF_nonempty s : Split_LF s ≠ [].
Proof.
  destruct s as [|c s]; simpl; [done|].
  case_bool_decide; [done|]. by destruct (Split_LF s).
Qed.

(** A newline at the end of the content always opens one more, empty,
    line. *)
Lemma Split_LF_final_newline s :
  Split_LF (s +:+ String LF EmptyString) = Split_LF s ++ [EmptyString].
Proof.
  induction s as [|c s IH]; simpl.
  - done.
  - rewrite IH. case_bool_decide; [done|].
    pose proof (Split_LF_nonempty s). by destruct (Split_LF s).
Qed.
End ingest.

(** C7, as the specification states it, fails: the document holds the
    one line "a"; the file on disk holds "a" and a final newline. The
    differ splits the file into the lines "a" and "", reports the file
    changed and appends an op to the log (the insert of an empty line). *)
Lemma C7_final_newline_is_a_line :
  let log := Some (ops.WriteOp sample.ins_a) in
  let data := String "a" (String ops.LF EmptyString) in
  (∃ doc, crdt.apply_strict crdt.NewRGA (ops.LoadAllOps log).1 = inl doc ∧
          crdt.Materialize doc = ["a"]) ∧
  ops.Split_LF (ops.ReplaceAll_CRLF data) = ["a"; ""] ∧
  (ops.processFile sample.ingest_env "main" (Some sample.F1) log 2 None data).1 = (true, None) ∧
  (ops.LoadAllOps (ops.processFile sample.ingest_env "main" (Some sample.F1) log 2 None data).2).1
    = [ops.persisted sample.ins_a;
       crdt.mkOperation crdt.OpInsert 1000 51 sample.F1 52 "" "" ops.zero_Time []].
Proof.
  intros log data. split; [|split; [|split]].
  - exists (crdt.apply_all crdt.NewRGA [ops.persisted sample.ins_a]).
    split; vm_compute; reflexivity.
  - vm_compute; reflexivity.
  - vm_compute; reflexivity.
  - vm_compute; reflexivity.
Qed.

(** C7, amended: for a file no larger than the large-file threshold,
    the differ splits the normalized content at every newline (so that a
    final newline opens one more, empty, line); when the lines split this
    way equal the materialized document, [processFile] emits no op and
    reports the file unchanged. *)
Theorem C7_ingest_of_equal_lines {S : SliceSort}
    (env : ops.IngestEnv) (stream : string) (fileID : UUID)
    (opsFile : option (list byte)) (fsize : Z) (stored : option Z)
    (data : string) (doc : crdt.RGA) :
  fsize ≤ ops.readLargeThreshold →
  crdt.apply_strict crdt.NewRGA (ops.LoadAllOps opsFile).1 = inl doc →
  crdt.Materialize doc = ops.Split_LF (ops.ReplaceAll_CRLF data) →
  ops.processFile env stream (Some fileID) opsFile fsize stored data
    = (false, None, opsFile) ∧
  ops.Split_LF (ops.ReplaceAll_CRLF data +:+ String ops.LF EmptyString)
    = crdt.Materialize doc ++ [EmptyString].
Proof.
  intros Hsize Hdoc Hlines. split.
  - unfold ops.processFile. rewrite Hdoc.
    rewrite bool_decide_eq_false_2 by lia.
    by rewrite Hlines, eqLines_refl.
  - by rewrite Split_LF_final_newline, Hlines.
Qed.

(** C7 amended, on the document "a" and the file content "a". *)
Lemma C7_ingest_of_equal_lines_witness :
  ops.processFile sample.ingest_env "main" (Some sample.F1)
      (Some (ops.WriteOp sample.ins_a)) 1 None "a"
    = (false, None, Some (ops.WriteOp sample.ins_a)) ∧
  ops.Split_LF (ops.ReplaceAll_CRLF "a" +:+ String ops.LF EmptyString)
    = crdt.Materialize (crdt.apply_all crdt.NewRGA [ops.persisted sample.ins_a])
      ++ [EmptyString].
Proof.
  apply (C7_ingest_of_equal_lines (S:=merge_slice_sort) sample.ingest_env "main"
           sample.F1 (Some (ops.WriteOp sample.ins_a)) 1 None "a"
           (crdt.apply_all crdt.NewRGA [ops.persisted sample.ins_a]));
    vm_compute; first [reflexivity | discriminate].
Defined.

(** ** Streams: merge, cherry-pick, partial merge *)

Section streams_props.
Context {S : SliceSort} {HS : SliceSortSpec S}.
Import streams.

Lemma list_ascii_of_string_app a b :
  list_ascii_of_string (a +:+ b) = list_ascii_of_string a ++ list_ascii_of_string b.
Proof. induction a as [|c a IH]; simpl; [done|by rewrite IH]. Qed.

Lemma commit_file_inj a b : commit_file a = commit_file b → a = b.
Proof.
  unfold commit_file. intros Heq.
  apply (f_equal list_ascii_of_string) in Heq.
  rewrite !list_ascii_of_string_app in Heq.
  apply app_inv_tail in Heq.
  rewrite <- (string_of_list_ascii_of_string a), <- (string_of_list_ascii_of_string b).
  by rewrite Heq.
Qed.

Lemma Ext_is_bin_commit_file id : Ext_is_bin (commit_file id) = true.
Proof.
  unfold Ext_is_bin, commit_file. apply bool_decide_eq_true_2.
  rewrite list_ascii_of_string_app. by apply suffix_app_r.
Qed.

(** [ListCommits] lists the records of the [.bin] files of the stream. *)
Lemma elem_of_ListCommits r s c :
  c ∈ ListCommits r s ↔ ∃ k, commit_dir r s !! k = Some c ∧ Ext_is_bin k = true.
Proof.
  unfold ListCommits. rewrite slice_sort_perm, list_elem_of_fmap. split.
  - intros ([k c'] & -> & Hin).
    apply list_elem_of_filter in Hin as [Hext Hin].
    unfold ReadDir in Hin. rewrite merge_sort_Permutation in Hin.
    apply elem_of_map_to_list in Hin. eauto.
  - intros (k & Hk & Hext). exists (k, c). split; [done|].
    apply list_elem_of_filter. split; [done|].
    unfold ReadDir. rewrite merge_sort_Permutation.
    by apply elem_of_map_to_list.
Qed.

Lemma filter_none {A} (P : A → Prop) `{∀ x, Decision (P x)} (l : list A) :
  (∀ x, x ∈ l → ¬ P x) → filter P l = [].
Proof.
  induction l as [|x l IH]; intros Hl; [done|].
  rewrite filter_cons, decide_False by (apply Hl; left).
  apply IH. intros y Hy. apply Hl. by right.
Qed.

(** Replicating ops leaves the commit records alone; saving a record
    leaves the op logs alone. *)
Lemma commit_dirs_replicateOps t eops r :
  commit_dirs (replicateOps t eops r) = commit_dirs r.
Proof.
  revert r. induction eops as [|eop eops IH]; intros r; [done|].
  unfold replicateOps in *. cbn [fold_left]. by rewrite IH.
Qed.

Lemma commit_dir_replicateOps t eops r s :
  commit_dir (replicateOps t eops r) s = commit_dir r s.
Proof. unfold commit_dir. by rewrite commit_dirs_replicateOps. Qed.

Lemma commit_dir_merge_commit_eq t r mc :
  commit_dir (merge_commit t r mc) t
  = <[commit_file (types.ID mc) := set_Stream t mc]> (commit_dir r t).
Proof.
  unfold merge_commit, SaveCommitFile, commit_dir at 1. cbn [commit_dirs].
  by rewrite lookup_insert_eq, commit_dir_replicateOps.
Qed.

Lemma commit_dir_merge_commit_ne t r mc s :
  t ≠ s → commit_dir (merge_commit t r mc) s = commit_dir r s.
Proof.
  intros Hne. unfold merge_commit, SaveCommitFile, commit_dir at 1. cbn [commit_dirs].
  rewrite lookup_insert_ne by done.
  apply (commit_dir_replicateOps t (types.Operations mc) r s).
Qed.

Lemma merge_fold_other l t r s :
  t ≠ s → commit_dir (fold_left (merge_commit t) l r) s = commit_dir r s.
Proof.
  intros Hne. revert r. induction l as [|mc l IH]; intros r; [done|].
  cbn [fold_left]. by rewrite IH, commit_dir_merge_commit_ne.
Qed.

Lemma merge_fold_named l t r :
  named_by_id (commit_dir r t) →
  named_by_id (commit_dir (fold_left (merge_commit t) l r) t).
Proof.
  revert r. induction l as [|mc l IH]; intros r Hwf; [done|].
  cbn [fold_left]. apply IH. rewrite commit_dir_merge_commit_eq.
  by apply map_Forall_insert_2.
Qed.

Lemma merge_fold_keeps l t r k :
  is_Some (commit_dir r t !! k) →
  is_Some (commit_dir (fold_left (merge_commit t) l r) t !! k).
Proof.
  revert r. induction l as [|mc l IH]; intros r Hk; [done|].
  cbn [fold_left]. apply IH. rewrite commit_dir_merge_commit_eq.
  rewrite lookup_insert. case_decide; [by eexists|done].
Qed.

Lemma merge_fold_saved l t r mc :
  mc ∈ l →
  is_Some (commit_dir (fold_left (merge_commit t) l r) t !! commit_file (types.ID mc)).
Proof.
  revert r. induction l as [|mc' l IH]; intros r Hin.
  - by apply elem_of_nil in Hin.
  - cbn [fold_left]. apply elem_of_cons in Hin as [->|Hin]; [|by apply IH].
    apply merge_fold_keeps. rewrite commit_dir_merge_commit_eq, lookup_insert_eq.
    by eexists.
Qed.

Lemma ListCommits_ext r r' s :
  commit_dir r' s = commit_dir r s → ListCommits r' s = ListCommits r s.
Proof. unfold ListCommits. by intros ->. Qed.

(** After a merge no commit of the source is missing in the target. *)
Lemma missing_after_merge r src tgt :
  named_by_id (commit_dir r tgt) →
  missing (MergeStreams r src tgt) src tgt = [].
Proof.
  intros Hwf. unfold missing. apply filter_none. intros sc Hsc Hmiss.
  apply Hmiss. rewrite elem_of_list_to_set, list_elem_of_fmap.
  destruct (decide (src = tgt)) as [->|Hne]; [by exists sc|].
  unfold MergeStreams in *.
  rewrite (ListCommits_ext r _ src) in Hsc by (by apply merge_fold_other).
  assert (Hkey : is_Some (commit_dir (fold_left (merge_commit tgt)
                   (missing r src tgt) r) tgt !! commit_file (types.ID sc))).
  { destruct (decide (types.ID sc ∈
                (list_to_set (types.ID <$> ListCommits r tgt) : gset string)))
      as [Hin|Hnin].
    - apply elem_of_list_to_set, list_elem_of_fmap in Hin as (c & Hid & Hc).
      apply elem_of_ListCommits in Hc as (k & Hk & _).
      apply merge_fold_keeps. rewrite Hid, <- (Hwf k c Hk). by eexists.
    - apply merge_fold_saved. unfold missing.
      apply list_elem_of_filter. by split. }
  destruct Hkey as [v Hv]. exists v. split.
  - apply commit_file_inj.
    by apply (merge_fold_named (missing r src tgt) tgt r Hwf _ _ Hv).
  - apply elem_of_ListCommits. exists (commit_file (types.ID sc)).
    split; [done|apply Ext_is_bin_commit_file].
Qed.

(** Appends only make the op logs longer. *)
Lemma log_size_append_op t op r p :
  (log_size r p ≤ log_size (append_op t op r) p)%nat.
Proof.
  unfold log_size, append_op. cbn [op_files].
  rewrite lookup_insert. case_decide as Hp; [|done].
  subst p. cbn [from_option id]. unfold ops.AppendOp. rewrite length_app.
  cbn [from_option id]. lia.
Qed.

Lemma log_size_append_op_own t op r :
  (log_size r (t, ops_file (crdt.FileID op))
   < log_size (append_op t op r) (t, ops_file (crdt.FileID op)))%nat.
Proof.
  unfold log_size, append_op. cbn [op_files].
  rewrite lookup_insert_eq. cbn [from_option id]. unfold ops.AppendOp.
  rewrite length_app, length_WriteOp. unfold ops.header_size.
  cbn [from_option id]. lia.
Qed.

Lemma log_size_replicateOps t eops r p :
  (log_size r p ≤ log_size (replicateOps t eops r) p)%nat.
Proof.
  revert r. induction eops as [|eop eops IH]; intros r; [done|].
  unfold replicateOps in *. cbn [fold_left].
  etrans; [apply (log_size_append_op t (types.Op eop))|apply IH].
Qed.

(** What [replicateOps] writes: every op, in order, at the end of the log
    of its file in the stream. *)
Lemma op_files_replicateOps t eops r p :
  default [] (op_files (replicateOps t eops r) !! p)
  = default [] (op_files r !! p)
    ++ concat (ops.WriteOp
                 <$> filter (λ op, (t, ops_file (crdt.FileID op)) = p)
                       (types.Op <$> eops)).
Proof.
  revert r. induction eops as [|eop eops IH]; intros r.
  - cbn [fmap list_fmap]. rewrite filter_nil. cbn [fmap list_fmap concat].
    by rewrite app_nil_r.
  - unfold replicateOps in *. cbn [fold_left]. rewrite IH.
    rewrite fmap_cons, filter_cons. unfold append_op. cbn [op_files].
    rewrite lookup_insert. case_decide as Hp.
    + rewrite fmap_cons. cbn [concat from_option id]. unfold ops.AppendOp.
      rewrite Hp. by rewrite <- app_assoc.
    + done.
Qed.

Lemma log_size_replicateOps_own t eops r eop :
  eop ∈ eops →
  (log_size r (t, ops_file (crdt.FileID (types.Op eop)))
   < log_size (replicateOps t eops r) (t, ops_file (crdt.FileID (types.Op eop))))%nat.
Proof.
  revert r. induction eops as [|e eops IH]; intros r Hin.
  - by apply elem_of_nil in Hin.
  - unfold replicateOps in *. cbn [fold_left].
    apply elem_of_cons in Hin as [->|Hin].
    + eapply Nat.lt_le_trans; [apply log_size_append_op_own|].
      apply (log_size_replicateOps t eops).
    + eapply Nat.le_lt_trans; [apply (log_size_append_op t (types.Op e))|].
      by apply IH.
Qed.
End streams_props.

(** C3, as the specification states it, fails for cherry-pick: picking
    commit K1 of stream feature into main twice leaves the op of K1
    twice in the op log of main (same lamport, node and line) and two
    commit records with that op in main. *)
Lemma C3_cherry_pick_twice_duplicates :
  let r1 := (streams.CherryPick 900 sample.feature_repo "K1" "main").1 in
  let r2 := (streams.CherryPick 901 r1 "K1" "main").1 in
  let path := ("main", ops_file sample.F1) in
  (ops.LoadAllOps (op_files r1 !! path)).1 = [ops.persisted sample.ins_a] ∧
  (ops.LoadAllOps (op_files r2 !! path)).1
    = [ops.persisted sample.ins_a; ops.persisted sample.ins_a] ∧
  types.Operations <$> ListCommits r1 "main" = [[types.mkExtendedOp sample.ins_a ""]] ∧
  types.Operations <$> ListCommits r2 "main"
    = [[types.mkExtendedOp sample.ins_a ""]; [types.mkExtendedOp sample.ins_a ""]].
Proof. repeat split; vm_compute; reflexivity. Qed.

(** C3, amended: full merge is idempotent, on a repository whose commit
    records of the target are in files named after their ids running
    [MergeStreams] a second time changes nothing in the repository (no
    op appended, no commit record written), because every source commit
    id is then in the target; cherry-pick is not, on any repository, it
    has no op-key dedup: every run
    that finds the commit, with or without ops, returns no error, writes
    the commit record under the fresh id (the commit found, with the new
    id, the target stream and the message prefixed) and appends every op
    of the commit again: each op log of the target stream is what it was
    followed by the records of the ops of the commit for that file, in
    order, and no other log changes. *)
Theorem C3_merge_idempotent_cherry_pick_appends
    {S : SliceSort} {HS : SliceSortSpec S} (r : Repo) (source target : string) :
  (named_by_id (commit_dir r target) →
   streams.MergeStreams (streams.MergeStreams r source target) source target
     = streams.MergeStreams r source target) ∧
  ∀ (newUUID : UUID) (commitID : string) (found : types.Commit),
    streams.find_commit r (stream_files r) commitID = Some found →
    let out := streams.CherryPick newUUID r commitID target in
    out.2 = None ∧
    commit_dir out.1 target !! commit_file (UUID_String newUUID)
      = Some (types.mkCommit (UUID_String newUUID) target
                ("[cherry-pick] " +:+ types.Message found)
                (types.AuthorName found) (types.AuthorEmail found)
                (types.Timestamp found) (types.Operations found)
                (types.Signature found)) ∧
    (∀ p, default [] (op_files out.1 !! p)
          = default [] (op_files r !! p)
            ++ concat (ops.WriteOp
                         <$> filter (λ op, (target, ops_file (crdt.FileID op)) = p)
                               (types.Op <$> types.Operations found))) ∧
    (∀ eop, eop ∈ types.Operations found →
       (log_size r (target, ops_file (crdt.FileID (types.Op eop)))
        < log_size out.1 (target, ops_file (crdt.FileID (types.Op eop))))%nat).
Proof.
  split.
  - intros Hwf. unfold streams.MergeStreams at 1.
    change (streams.missing (fold_left _ _ r) source target)
      with (streams.missing (streams.MergeStreams r source target) source target).
    by rewrite missing_after_merge.
  - intros newUUID commitID found Hfound out. subst out.
    unfold streams.CherryPick. rewrite Hfound. cbn [fst snd].
    split; [done|]. split; [|split].
    + unfold commit_dir, SaveCommitFile. cbn [commit_dirs types.ID].
      rewrite lookup_insert_eq. cbn [from_option id].
      by rewrite lookup_insert_eq.
    + intros p.
      change (op_files (SaveCommitFile ?t ?c ?r')) with (op_files r').
      apply op_files_replicateOps.
    + intros eop Heop.
      change (log_size (SaveCommitFile ?t ?c ?r') ?p) with (log_size r' p).
      by apply log_size_replicateOps_own.
Qed.

(** C3 amended, on a repository whose stream main holds the commit C1 and
    whose stream feature holds the commits K1 and K2, which the first
    merge copies into main. *)
Lemma C3_merge_idempotent_cherry_pick_appends_witness :
  let r := SaveCommitFile "main" sample.C1 sample.feature_repo in
  (types.ID <$> ListCommits r "main" = ["C1"] ∧
   types.ID <$> ListCommits (streams.MergeStreams r "feature" "main") "main"
     = ["C1"; "K1"; "K2"]) ∧
  streams.MergeStreams (streams.MergeStreams r "feature" "main") "feature" "main"
    = streams.MergeStreams r "feature" "main" ∧
  ∀ (newUUID : UUID) (commitID : string) (found : types.Commit),
    streams.find_commit r (stream_files r) commitID = Some found →
    let out := streams.CherryPick newUUID r commitID "main" in
    out.2 = None ∧
    commit_dir out.1 "main" !! commit_file (UUID_String newUUID)
      = Some (types.mkCommit (UUID_String newUUID) "main"
                ("[cherry-pick] " +:+ types.Message found)
                (types.AuthorName found) (types.AuthorEmail found)
                (types.Timestamp found) (types.Operations found)
                (types.Signature found)) ∧
    (∀ p, default [] (op_files out.1 !! p)
          = default [] (op_files r !! p)
            ++ concat (ops.WriteOp
                         <$> filter (λ op, ("main", ops_file (crdt.FileID op)) = p)
                               (types.Op <$> types.Operations found))) ∧
    (∀ eop, eop ∈ types.Operations found →
       (log_size r ("main", ops_file (crdt.FileID (types.Op eop)))
        < log_size out.1 ("main", ops_file (crdt.FileID (types.Op eop))))%nat).
Proof.
  split; [split; vm_compute; reflexivity|].
  destruct (C3_merge_idempotent_cherry_pick_appends (S:=merge_slice_sort)
              (SaveCommitFile "main" sample.C1 sample.feature_repo) "feature" "main")
    as [Hmerge Hpick].
  split; [|exact Hpick].
  apply Hmerge. unfold named_by_id. apply (bool_decide_unpack _). vm_compute. exact I.
Defined.

(** ** Partial merge with the empty filter *)




(** * Further properties of the code *)

(** ** The order of operations *)

(** X1: [LessThan] is a strict order on operations: it is irreflexive,
    asymmetric and transitive, and two operations are unordered exactly
    when they agree on the lamport and on the printed node id. *)
Theorem LessThan_strict_order (a b c : crdt.Operation) :
  crdt.LessThan a a = false ∧
  (crdt.LessThan a b = true → crdt.LessThan b a = false) ∧
  (crdt.LessThan a b = true → crdt.LessThan b c = true → crdt.LessThan a c = true) ∧
  (crdt.LessThan a b = false ∧ crdt.LessThan b a = false ↔
   crdt.Lamport a = crdt.Lamport b ∧
   UUID_String (crdt.NodeID a) = UUID_String (crdt.NodeID b)).
Proof.
  split; [|split; [|split]].
  - by destruct (not_after_LessThan_total a a).
  - intros Hab. destruct (not_after_LessThan_total a b) as [H|H]; [done|].
    unfold not_after in H. congruence.
  - intros Hab Hbc.
    destruct (crdt.LessThan a c) eqn:Hac; [done|exfalso].
    assert (Hcb : not_after crdt.LessThan b c).
    { destruct (not_after_LessThan_total b c) as [H|H]; [done|].
      unfold not_after in H. congruence. }
    pose proof (not_after_LessThan_trans b c a Hcb Hac) as Hba.
    unfold not_after in Hba. congruence.
  - change (crdt.LessThan a b = false) with (not_after crdt.LessThan b a).
    change (crdt.LessThan b a = false) with (not_after crdt.LessThan a b).
    rewrite !not_after_LessThan. split.
    + intros [[Hlt|[Heq Hba]] [Hlt'|[Heq' Hab]]]; try lia.
      split; [done|]. apply String.compare_eq_iff.
      rewrite (String.compare_antisym (UUID_String (crdt.NodeID b))) in Hba.
      destruct (String.compare (UUID_String (crdt.NodeID a))
                  (UUID_String (crdt.NodeID b))); simpl in *; done.
    + intros [Heq Hs]. rewrite Hs.
      assert (Hrefl : String.compare (UUID_String (crdt.NodeID b))
                        (UUID_String (crdt.NodeID b)) ≠ Gt).
      { pose proof (String.compare_antisym (UUID_String (crdt.NodeID b))
                      (UUID_String (crdt.NodeID b))) as Hanti.
        destruct (String.compare (UUID_String (crdt.NodeID b))
                    (UUID_String (crdt.NodeID b))); done. }
      split; right; split; done.
Qed.

(** ** [Apply], [Materialize] and [LineMap] *)

Section rga_more.
Import crdt.
Context {S : SliceSort}.

Lemma update_first_None l line c :
  update_first l line c = None ↔ line ∉ (λ e, LineID (op_of e)) <$> l.
Proof.
  induction l as [|e l IH]; simpl.
  - split; [intros _; apply not_elem_of_nil|done].
  - rewrite not_elem_of_cons. case_bool_decide as Hline.
    + split; [done|]. intros [Hne _]. by destruct Hne.
    + destruct (update_first l line c) as [l'|]; simpl.
      * split; [done|]. intros [_ Hnot]. by apply IH in Hnot.
      * split; [|done]. intros _. split; [congruence|]. by apply IH.
Qed.

Lemma not_after_entries_trans :
  Transitive (not_after (λ a b : RGAOperation, LessThan (op_of a) (op_of b))).
Proof. intros a b c. apply (not_after_LessThan_trans (op_of a) (op_of b) (op_of c)). Qed.

Lemma not_after_entries_total :
  Total (not_after (λ a b : RGAOperation, LessThan (op_of a) (op_of b))).
Proof. intros a b. apply (not_after_LessThan_total (op_of a) (op_of b)). Qed.

Lemma LineMap_fold (l : list RGAOperation) (m : gmap Z string) (line : UUID) :
  fold_left (λ m e, <[LineID (op_of e) := Content (op_of e)]> m) l m !! line
  = match last (filter (λ e, LineID (op_of e) = line) l) with
    | Some e => Some (Content (op_of e))
    | None => m !! line
    end.
Proof.
  revert m. induction l as [|e l IH]; intros m; [done|].
  cbn [fold_left]. rewrite IH, filter_cons.
  destruct (decide (LineID (op_of e) = line)) as [Heq|Hne].
  - destruct (filter _ l) as [|e' l'] eqn:E.
    + cbn [last]. by rewrite <- Heq, lookup_insert_eq.
    + rewrite last_cons_cons.
      destruct (last (e' :: l')) eqn:El; [done|]. by apply last_None in El.
  - destruct (last (filter _ l)); [done|]. by rewrite lookup_insert_ne.
Qed.
End rga_more.

(** X2: an Insert never fails; it leaves the tombstones as they are and
    the entries are those before it together with the new one, whose
    index is the number of entries before, sorted by [LessThan]
    whatever order they were in before. *)
Theorem Apply_Insert_sorts {S : SliceSort} {HS : SliceSortSpec S}
    (r : crdt.RGA) (op : crdt.Operation) :
  crdt.Typ op = crdt.OpInsert →
  (crdt.Apply r op).2 = None ∧
  crdt.tombstone (crdt.Apply r op).1 = crdt.tombstone r ∧
  crdt.ops (crdt.Apply r op).1
    ≡ₚ crdt.ops r ++ [crdt.NewRGAOperation op (Z.of_nat (length (crdt.ops r)))] ∧
  StronglySorted (λ a b, crdt.LessThan (crdt.op_of b) (crdt.op_of a) = false)
    (crdt.ops (crdt.Apply r op).1).
Proof.
  intros Ht. unfold crdt.Apply. rewrite bool_decide_eq_true_2 by done.
  cbn [fst snd crdt.ops crdt.tombstone]. repeat split.
  - apply slice_sort_perm.
  - apply (slice_sort_sorted _ (λ a b, crdt.LessThan (crdt.op_of a) (crdt.op_of b)));
      [apply not_after_entries_trans|apply not_after_entries_total].
Qed.

(** Inserting line L2 (lamport 2) and then line L1 (lamport 1) into an
    empty RGA. *)
Lemma Apply_Insert_sorts_witness :
  (crdt.Apply (crdt.Apply crdt.NewRGA sample.ins_y).1 sample.ins_a).2 = None ∧
  crdt.tombstone (crdt.Apply (crdt.Apply crdt.NewRGA sample.ins_y).1 sample.ins_a).1
    = crdt.tombstone (crdt.Apply crdt.NewRGA sample.ins_y).1 ∧
  crdt.ops (crdt.Apply (crdt.Apply crdt.NewRGA sample.ins_y).1 sample.ins_a).1
    ≡ₚ crdt.ops (crdt.Apply crdt.NewRGA sample.ins_y).1
       ++ [crdt.NewRGAOperation sample.ins_a
             (Z.of_nat (length (crdt.ops (crdt.Apply crdt.NewRGA sample.ins_y).1)))] ∧
  StronglySorted (λ a b, crdt.LessThan (crdt.op_of b) (crdt.op_of a) = false)
    (crdt.ops (crdt.Apply (crdt.Apply crdt.NewRGA sample.ins_y).1 sample.ins_a).1).
Proof.
  apply (Apply_Insert_sorts (S:=merge_slice_sort)
           (crdt.Apply crdt.NewRGA sample.ins_y).1 sample.ins_a).
  reflexivity.
Defined.

(** X3: [Apply] returns an error exactly for an Update of a line that no
    entry has (deleted lines still have theirs) and for an op of an
    unknown type; and an [Apply] that returns an error leaves the RGA as
    it was. *)
Theorem Apply_error_iff {S : SliceSort} (r : crdt.RGA) (op : crdt.Operation) :
  ((crdt.Apply r op).2 = None ↔
   crdt.Typ op = crdt.OpInsert ∨ crdt.Typ op = crdt.OpDelete ∨
   (crdt.Typ op = crdt.OpUpdate ∧
    crdt.LineID op ∈ (λ e, crdt.LineID (crdt.op_of e)) <$> crdt.ops r)) ∧
  (is_Some (crdt.Apply r op).2 → (crdt.Apply r op).1 = r).
Proof.
  unfold crdt.Apply.
  destruct (decide (crdt.Typ op = crdt.OpInsert)) as [Hi|Hi].
  { rewrite bool_decide_eq_true_2 by done. cbn [fst snd].
    split; [split; [by left|done]|]. intros [? ?]. done. }
  rewrite (bool_decide_eq_false_2 (crdt.Typ op = crdt.OpInsert)) by done.
  destruct (decide (crdt.Typ op = crdt.OpDelete)) as [Hd|Hd].
  { rewrite bool_decide_eq_true_2 by done. cbn [fst snd].
    split; [split; [by right; left|done]|]. intros [? ?]. done. }
  rewrite (bool_decide_eq_false_2 (crdt.Typ op = crdt.OpDelete)) by done.
  destruct (decide (crdt.Typ op = crdt.OpUpdate)) as [Hu|Hu].
  - rewrite bool_decide_eq_true_2 by done.
    destruct (crdt.update_first (crdt.ops r) (crdt.LineID op) (crdt.Content op))
      as [l|] eqn:E; cbn [fst snd].
    + split; [|intros [? ?]; done]. split; [|done]. intros _. right. right.
      split; [done|].
      destruct (decide (crdt.LineID op ∈
                  (λ e, crdt.LineID (crdt.op_of e)) <$> crdt.ops r)) as [|Hnot]; [done|].
      apply (update_first_None _ _ (crdt.Content op)) in Hnot. congruence.
    + split; [|done]. split; [done|].
      intros [?|[?|[_ Hin]]]; try done.
      by apply (update_first_None _ _ (crdt.Content op)) in E.
  - rewrite (bool_decide_eq_false_2 (crdt.Typ op = crdt.OpUpdate)) by done.
    cbn [fst snd]. split; [|done]. split; [done|]. intros [?|[?|[? _]]]; done.
Qed.

(** X4: a deleted line never comes back: after a Delete of a line,
    whatever ops are applied next (an Insert of the same line among
    them), no live entry has that line, so it is neither in [GetLineIDs]
    nor shown by [Materialize]. *)
Theorem deleted_line_stays_deleted {S : SliceSort}
    (r : crdt.RGA) (del : crdt.Operation) (l : list crdt.Operation) :
  crdt.Typ del = crdt.OpDelete →
  Forall (λ e, crdt.LineID (crdt.op_of e) ≠ crdt.LineID del)
    (crdt.live (crdt.apply_all (crdt.Apply r del).1 l)) ∧
  (crdt.LineID del ∉ crdt.GetLineIDs (crdt.apply_all (crdt.Apply r del).1 l)).
Proof.
  intros Hdel.
  assert (Htomb : crdt.tombstoned (crdt.apply_all (crdt.Apply r del).1 l)
                    (crdt.LineID del) = true).
  { apply apply_all_keeps_tombstone. by apply Apply_delete_tombstone. }
  assert (Hlive : Forall (λ e, crdt.LineID (crdt.op_of e) ≠ crdt.LineID del)
            (crdt.live (crdt.apply_all (crdt.Apply r del).1 l))).
  { apply Forall_forall. intros e He Heq.
    apply list_elem_of_filter in He as [He _]. congruence. }
  split; [done|]. by apply live_not_tombstoned.
Qed.

(** Line L1 inserted, deleted, then inserted again. *)
Lemma deleted_line_stays_deleted_witness :
  Forall (λ e, crdt.LineID (crdt.op_of e) ≠ crdt.LineID sample.del_L1)
    (crdt.live (crdt.apply_all
                  (crdt.Apply (crdt.Apply crdt.NewRGA sample.ins_a).1 sample.del_L1).1
                  [sample.ins_a])) ∧
  (crdt.LineID sample.del_L1 ∉
   crdt.GetLineIDs (crdt.apply_all
                      (crdt.Apply (crdt.Apply crdt.NewRGA sample.ins_a).1 sample.del_L1).1
                      [sample.ins_a])).
Proof.
  apply (deleted_line_stays_deleted (S:=merge_slice_sort)
           (crdt.Apply crdt.NewRGA sample.ins_a).1 sample.del_L1 [sample.ins_a]).
  reflexivity.
Defined.

(** X5: [LineMap] maps a line to the content of the last live entry that
    has it, and has no key for a line without a live entry. *)
Theorem LineMap_lookup (r : crdt.RGA) (line : UUID) :
  crdt.LineMap r !! line
  = (λ e, crdt.Content (crdt.op_of e))
      <$> last (filter (λ e, crdt.LineID (crdt.op_of e) = line) (crdt.live r)).
Proof.
  unfold crdt.LineMap. rewrite LineMap_fold.
  by destruct (last _).
Qed.

(** ** [Combine] *)

Section combine.
Import crdt.

(** The loop of [Combine] after [k] rounds, on a vector at least as long
    as the other one. *)
Lemma overwrite_steps (other : list Z) (k : nat) (v : list Z) :
  (k ≤ length other)%nat → (length other ≤ length v)%nat →
  fold_left
    (λ v i, if bool_decide (i < length v)%nat then <[i := other !!! i]> v else v)
    (seq 0 k) v
  = take k other ++ drop k v.
Proof.
  intros Hk Hlen. induction k as [|k IH].
  - by rewrite take_0, drop_0.
  - rewrite seq_S, fold_left_app, IH by lia. cbn [fold_left plus].
    assert (Hv : (k < length v)%nat) by lia.
    destruct (lookup_lt_is_Some_2 other k) as [x Hx]; [lia|].
    destruct (lookup_lt_is_Some_2 v k Hv) as [y Hy].
    rewrite bool_decide_eq_true_2
      by (rewrite length_app, length_take, length_drop; lia).
    rewrite (list_lookup_total_correct _ _ _ Hx).
    rewrite insert_app_r_alt by (rewrite length_take; lia).
    rewrite length_take, Nat.min_l, Nat.sub_diag by lia.
    rewrite (drop_S _ _ _ Hy). cbn [insert list_insert].
    rewrite (take_S_r _ _ _ Hx), <- app_assoc. done.
Qed.

Lemma overwrite_Vector_extend (v other : list Z) :
  overwrite_Vector (extend_Vector v other) other
  = other ++ drop (length other) v.
Proof.
  unfold overwrite_Vector, extend_Vector. case_bool_decide as Hlt.
  - rewrite overwrite_steps by (rewrite ?length_app, ?length_replicate; lia).
    rewrite firstn_all, drop_ge by (rewrite ?length_app, ?length_replicate; lia).
    by rewrite (drop_ge v) by lia.
  - rewrite overwrite_steps by lia. by rewrite firstn_all.
Qed.
End combine.

(** X6: [Combine] takes the content, the lamport and the timestamp of
    the other op and keeps the type, ids and stream; the vector clock of
    the result is the other op's vector followed by the entries of the
    receiver's vector beyond the other's length (no maximum is taken).
    Combining with the same op a second time changes nothing, and the
    result can never be combined with that op again. *)
Theorem Combine_result (o other : crdt.Operation) :
  crdt.Combine o other
  = crdt.mkOperation (crdt.Typ o) (crdt.Lamport other) (crdt.NodeID o) (crdt.FileID o)
      (crdt.LineID o) (crdt.Content other) (crdt.Stream o) (crdt.Timestamp other)
      (crdt.Vector other ++ drop (length (crdt.Vector other)) (crdt.Vector o)) ∧
  crdt.Combine (crdt.Combine o other) other = crdt.Combine o other ∧
  crdt.CanCombine (crdt.Combine o other) other = false.
Proof.
  assert (Hfirst : crdt.Combine o other
    = crdt.mkOperation (crdt.Typ o) (crdt.Lamport other) (crdt.NodeID o) (crdt.FileID o)
        (crdt.LineID o) (crdt.Content other) (crdt.Stream o) (crdt.Timestamp other)
        (crdt.Vector other ++ drop (length (crdt.Vector other)) (crdt.Vector o))).
  { unfold crdt.Combine. by rewrite overwrite_Vector_extend. }
  split; [exact Hfirst|]. split.
  - unfold crdt.Combine at 1. rewrite overwrite_Vector_extend.
    rewrite Hfirst. cbn [crdt.Typ crdt.NodeID crdt.FileID crdt.LineID crdt.Stream crdt.Vector].
    by rewrite drop_app_length.
  - rewrite Hfirst. unfold crdt.CanCombine.
    cbn [crdt.Typ crdt.Lamport crdt.FileID crdt.Stream].
    rewrite Z.ltb_irrefl. by repeat destruct (bool_decide _).
Qed.

(** ** The op log: what [LoadAllOps] makes of any file *)

Section codec_inverse.
Import ops.

Lemma byte_of_Z_of_byte b : byte_of_Z (Z_of_byte b) = b.
Proof. by destruct b. Qed.

Lemma Z_of_byte_range b : 0 ≤ Z_of_byte b < 256.
Proof. by destruct b. Qed.

Lemma be_value_snoc bs b : be_value (bs ++ [b]) = be_value bs * 256 + Z_of_byte b.
Proof. unfold be_value. by rewrite fold_left_app. Qed.

Lemma be_value_bound bs : 0 ≤ be_value bs < 256 ^ Z.of_nat (length bs).
Proof.
  induction bs as [|b bs IH] using rev_ind; [done|].
  rewrite be_value_snoc, length_app, Nat.add_1_r, Nat2Z.inj_succ, Z.pow_succ_r by lia.
  pose proof (Z_of_byte_range b). lia.
Qed.

Lemma be_bytes_snoc n v : be_bytes (S n) v = be_bytes n (v / 256) ++ [byte_of_Z v].
Proof.
  induction n as [|n IH].
  - cbn [be_bytes app]. by rewrite Z.div_1_r.
  - change (be_bytes (S (S n)) v)
      with (byte_of_Z (v / 256 ^ Z.of_nat (S n)) :: be_bytes (S n) v).
    rewrite IH. cbn [be_bytes app]. f_equal. f_equal.
    rewrite Nat2Z.inj_succ, Z.pow_succ_r, Z.div_div by lia. done.
Qed.

Lemma be_bytes_be_value n bs : length bs = n → be_bytes n (be_value bs) = bs.
Proof.
  intros <-. induction bs as [|b bs IH] using rev_ind; [done|].
  rewrite length_app, Nat.add_1_r, be_bytes_snoc, be_value_snoc.
  pose proof (Z_of_byte_range b).
  rewrite Z.div_add_l, (Z.div_small (Z_of_byte b)), Z.add_0_r, IH by lia.
  f_equal. f_equal. rewrite <- (byte_of_Z_of_byte b) at 2.
  unfold byte_of_Z. rewrite Z.add_comm, Z_mod_plus_full. done.
Qed.

Lemma length_slice {A} lo hi (l : list A) :
  (hi ≤ length l)%nat → length (slice lo hi l) = (hi - lo)%nat.
Proof. intros Hhi. unfold slice. rewrite length_take, length_drop. lia. Qed.

(** A header is its six fields one after the other. *)
Lemma header_fields (h : list byte) :
  length h = header_size →
  h = [default "000"%byte (head h)] ++ slice 1 9 h ++ slice 9 25 h
      ++ slice 25 41 h ++ slice 41 57 h ++ slice 57 61 h.
Proof.
  intros Hlen. unfold header_size in Hlen. cbn [Nat.add] in Hlen.
  repeat (destruct h as [|? h]; [discriminate Hlen|];
          cbn [length] in Hlen; apply Nat.succ_inj in Hlen).
  destruct h; [reflexivity|discriminate Hlen].
Qed.

Lemma ReadFull_inl n r bs r' :
  ReadFull n r = (inl bs, r') → r = bs ++ r' ∧ length bs = n.
Proof.
  unfold ReadFull. repeat case_bool_decide; intros [= <- <-].
  - by subst n.
  - rewrite take_drop, length_take. split; [done|lia].
Qed.

(** Whatever [ReadOp] reads is a record as [WriteOp] writes it. *)
Lemma ReadOp_inv r op r'' :
  ReadOp r = (inl op, r'') →
  r = WriteOp op ++ r'' ∧ framable op ∧ persisted op = op.
Proof.
  unfold ReadOp.
  destruct (ReadFull header_size r) as [[h|e] r'] eqn:Eh; [|done].
  apply ReadFull_inl in Eh as [-> Hlen].
  pose proof (be_value_bound (slice 57 61 h)) as Hn.
  rewrite length_slice in Hn by (rewrite Hlen; unfold header_size; lia).
  change (256 ^ Z.of_nat (61 - 57)) with (2 ^ 32) in Hn.
  destruct (if bool_decide (0 < be_value (slice 57 61 h))
            then ReadFull (Z.to_nat (be_value (slice 57 61 h))) r'
            else (inl [], r')) as [[content|e] r2] eqn:Ec; [|done].
  intros [= <- <-].
  assert (Hcont : r' = content ++ r2 ∧
                  Z.of_nat (length content) = be_value (slice 57 61 h)).
  { case_bool_decide as Hpos.
    - apply ReadFull_inl in Ec as [-> Hl]. split; [done|]. rewrite Hl. lia.
    - inversion Ec; subst. split; [done|]. cbn [length]. lia. }
  destruct Hcont as [-> Hclen].
  split; [|split].
  - unfold WriteOp, header.
    cbn [crdt.Typ crdt.Lamport crdt.NodeID crdt.FileID crdt.LineID crdt.Content].
    rewrite list_byte_of_string_of_list_byte, Hclen.
    unfold wrap32. rewrite (Z.mod_small (be_value (slice 57 61 h))) by lia.
    rewrite byte_of_Z_of_byte.
    rewrite !be_bytes_be_value
      by (rewrite length_slice; [done|rewrite Hlen; unfold header_size; lia]).
    rewrite <- (header_fields h Hlen). by rewrite <- app_assoc.
  - unfold framable, wf_UUID.
    cbn [crdt.Typ crdt.Lamport crdt.NodeID crdt.FileID crdt.LineID crdt.Content].
    pose proof (Z_of_byte_range (default "000"%byte (head h))).
    pose proof (be_value_bound (slice 1 9 h)) as H1.
    pose proof (be_value_bound (slice 9 25 h)) as H2.
    pose proof (be_value_bound (slice 25 41 h)) as H3.
    pose proof (be_value_bound (slice 41 57 h)) as H4.
    rewrite length_slice in H1, H2, H3, H4 by (rewrite Hlen; unfold header_size; lia).
    change (256 ^ Z.of_nat (9 - 1)) with (2 ^ 64) in H1.
    change (256 ^ Z.of_nat (25 - 9)) with (2 ^ 128) in H2.
    change (256 ^ Z.of_nat (41 - 25)) with (2 ^ 128) in H3.
    change (256 ^ Z.of_nat (57 - 41)) with (2 ^ 128) in H4.
    rewrite <- length_list_byte_of_string, list_byte_of_string_of_list_byte, Hclen.
    repeat split; lia.
  - done.
Qed.

(** The loop of [LoadAllOps] on any bytes. *)
Lemma read_loop_inv fuel : ∀ r out,
  (length r < fuel)%nat →
  ∃ l tail,
    read_loop fuel r out = (out ++ l, None) ∧
    r = concat (WriteOp <$> l) ++ tail ∧
    Forall framable l ∧ persisted <$> l = l ∧
    (∃ e r', ReadOp tail = (inr e, r')).
Proof.
  induction fuel as [|fuel IH]; intros r out Hfuel; [lia|].
  cbn [read_loop].
  destruct (ReadOp r) as [[op|e] r'] eqn:E.
  - destruct (ReadOp_inv _ _ _ E) as (-> & Hop & Hpers).
    destruct (IH r' (out ++ [op])) as (l & tail & -> & -> & Hl & Hlp & Htail).
    { rewrite length_app, length_WriteOp in Hfuel. unfold header_size in Hfuel. lia. }
    exists (op :: l), tail. rewrite <- app_assoc. split; [done|].
    split; [cbn [fmap list_fmap concat]; by rewrite <- app_assoc|].
    split; [by constructor|]. split; [|done].
    rewrite fmap_cons, Hpers. f_equal. exact Hlp.
  - exists [], r. rewrite app_nil_r. split; [by destruct e|].
    repeat split; [constructor|eauto].
Qed.
End codec_inverse.

(** X7: whatever bytes an op log holds, [LoadAllOps] returns no error and
    the ops it returns are a parse of the file: written back with
    [WriteOp], one after the other, they give the file up to a tail that
    does not read as a record. Each of them fits the framing, and
    loading the rewritten log gives the same ops. *)
Theorem LoadAllOps_parses_the_file (bytes : list byte) :
  ∃ tail,
    bytes = concat (ops.WriteOp <$> (ops.LoadAllOps (Some bytes)).1) ++ tail ∧
    (∃ e r, ops.ReadOp tail = (inr e, r)) ∧
    Forall ops.framable (ops.LoadAllOps (Some bytes)).1 ∧
    (ops.LoadAllOps (Some bytes)).2 = None ∧
    ops.LoadAllOps (Some (concat (ops.WriteOp <$> (ops.LoadAllOps (Some bytes)).1)))
      = ((ops.LoadAllOps (Some bytes)).1, None).
Proof.
  destruct (read_loop_inv (S (length bytes)) bytes [])
    as (l & tail & Hloop & Hb & Hl & Hp & Ht); [lia|].
  assert (Hload : ops.LoadAllOps (Some bytes) = (l, None)) by exact Hloop.
  rewrite Hload. cbn [fst snd]. exists tail.
  split; [done|]. split; [done|]. split; [done|]. split; [done|].
  rewrite <- (app_nil_r (concat (ops.WriteOp <$> l))).
  rewrite LoadAllOps_records; [by rewrite Hp|done|].
  rewrite ReadOp_nil. eauto.
Qed.

(** ** Ingest: what [processFile] detects and writes *)

Section ingest_more.
Import ops.

Lemma eqLines_true a b : eqLines a b = true → a = b.
Proof.
  unfold eqLines. case_bool_decide as Hlen; [done|].
  try apply dec_stable in Hlen. revert b Hlen.
  induction a as [|x a IH]; intros [|y b] Hlen; simpl; try done.
  case_bool_decide as Hxy; [done|]. try apply dec_stable in Hxy. subst y.
  intros Hab. f_equal. apply IH; [|done]. simpl in Hlen. congruence.
Qed.

Lemma append_all_bytes f l :
  default [] (append_all f l) = default [] f ++ concat (WriteOp <$> l).
Proof.
  destruct f as [bytes|]; [by rewrite append_all_Some|by rewrite append_all_None_bytes].
Qed.

(** The shape of every result of [processFile]: the ops [l] it wrote. *)
Lemma only_appends_intro (changed : bool) (err : option IngestError)
    (f f' : option (list byte)) (l : list crdt.Operation) :
  f' = append_all f l → changed = bool_decide (l ≠ []) → (is_Some err → l = []) →
  default [] f `prefix_of` default [] f' ∧
  (changed = true ↔ (length (default [] f) < length (default [] f'))%nat) ∧
  (changed = false → f' = f) ∧
  (is_Some err → changed = false).
Proof.
  intros -> -> Herr. rewrite append_all_bytes. split; [by apply prefix_app_r|].
  destruct l as [|op l].
  - rewrite bool_decide_eq_false_2 by (intros Hne; by apply Hne).
    cbn [fmap list_fmap concat]. rewrite app_nil_r.
    repeat split; try done; lia.
  - rewrite bool_decide_eq_true_2 by done.
    pose proof (length_records (op :: l)) as Hlen. cbn [length] in Hlen.
    rewrite length_app. repeat split; try done; try lia.
    intros Hsome. by apply Herr in Hsome.
Qed.

Lemma prefix_loop_spec doc disk minLen : ∀ fuel p,
  (minLen - p ≤ fuel)%nat →
  (p ≤ prefix_loop fuel p minLen doc disk)%nat ∧
  (p ≤ minLen → prefix_loop fuel p minLen doc disk ≤ minLen)%nat ∧
  (∀ j, (p ≤ j < prefix_loop fuel p minLen doc disk)%nat → doc !!! j = disk !!! j) ∧
  ((prefix_loop fuel p minLen doc disk < minLen)%nat →
   doc !!! prefix_loop fuel p minLen doc disk ≠ disk !!! prefix_loop fuel p minLen doc disk).
Proof.
  induction fuel as [|fuel IH]; intros p Hfuel; cbn [prefix_loop].
  - repeat split; lia.
  - destruct (bool_decide (p < minLen)%nat) eqn:Hlt;
      [destruct (bool_decide (doc !!! p = disk !!! p)) eqn:Heq|]; cbn [andb].
    + apply bool_decide_eq_true in Hlt, Heq.
      destruct (IH (Datatypes.S p)) as (H1 & H2 & H3 & H4); [lia|].
      split; [lia|]. split; [lia|]. split; [|done].
      intros j Hj. destruct (decide (j = p)) as [->|Hne]; [done|]. apply H3. lia.
    + apply bool_decide_eq_false in Heq. repeat split; try lia. done.
    + apply bool_decide_eq_false in Hlt. repeat split; lia.
Qed.

Lemma suffix_loop_spec doc disk bound : ∀ fuel s,
  (s ≤ suffix_loop fuel s bound doc disk)%nat ∧
  (s ≤ bound → suffix_loop fuel s bound doc disk ≤ bound)%nat ∧
  (∀ j, (s ≤ j < suffix_loop fuel s bound doc disk)%nat →
        doc !!! (length doc - 1 - j)%nat = disk !!! (length disk - 1 - j)%nat).
Proof.
  induction fuel as [|fuel IH]; intros s; cbn [suffix_loop].
  - repeat split; lia.
  - destruct (bool_decide (s < bound)%nat) eqn:Hlt;
      [destruct (bool_decide (doc !!! (length doc - 1 - s)%nat
                              = disk !!! (length disk - 1 - s)%nat)) eqn:Heq|];
      cbn [andb]; [|repeat split; lia..].
    apply bool_decide_eq_true in Hlt, Heq.
    destruct (IH (Datatypes.S s)) as (H1 & H2 & H3).
    split; [lia|]. split; [lia|].
    intros j Hj. destruct (decide (j = s)) as [->|Hne]; [done|]. apply H3. lia.
Qed.

Lemma length_bind_singleton {A B} (f : A → B) (l : list A) :
  length (l ≫= λ x, [f x]) = length l.
Proof. induction l as [|x l IH]; [done|]. rewrite bind_cons. simpl. by rewrite IH. Qed.

Lemma lists_equal_by_lines (a b : list string) :
  length a = length b → (∀ j, (j < length a)%nat → a !!! j = b !!! j) → a = b.
Proof.
  intros Hlen Hj. apply list_eq. intros i.
  destruct (decide (i < length a)%nat) as [Hi|Hi].
  - rewrite !list_lookup_lookup_total_lt by lia. f_equal. by apply Hj.
  - rewrite !lookup_ge_None_2 by lia. done.
Qed.

(** The three loops of the differ emit an op whenever the lines differ. *)
Lemma diff_emits env stream fileID lineIDs (doc disk : list string) :
  doc ≠ disk →
  let minLen := (length doc `min` length disk)%nat in
  let p := prefix_loop minLen 0 minLen doc disk in
  let s := suffix_loop minLen 0 (minLen - p) doc disk in
  let docMid := slice p (length doc - s) doc in
  let diskMid := slice p (length disk - s) disk in
  update_ops env stream fileID lineIDs p docMid diskMid
  ++ delete_ops env stream fileID lineIDs p docMid diskMid
  ++ insert_ops env fileID docMid diskMid ≠ [].
Proof.
  intros Hne minLen p s docMid diskMid.
  destruct (prefix_loop_spec doc disk minLen minLen 0) as (_ & Hp & Hpre & Hstop); [lia|].
  fold p in Hp, Hpre, Hstop. specialize (Hp (Nat.le_0_l _)).
  destruct (suffix_loop_spec doc disk (minLen - p) minLen 0) as (_ & Hs & Hsuf).
  fold s in Hs, Hsuf. specialize (Hs (Nat.le_0_l _)).
  assert (Hdoc : length docMid = (length doc - s - p)%nat).
  { unfold docMid. rewrite length_slice; lia. }
  assert (Hdisk : length diskMid = (length disk - s - p)%nat).
  { unfold diskMid. rewrite length_slice; lia. }
  assert (Hdoc0 : (p < length doc - s)%nat → docMid !!! 0%nat = doc !!! p).
  { intros Hlt. unfold docMid, slice.
    rewrite lookup_total_take_lt, lookup_total_drop, Nat.add_0_r by lia. done. }
  assert (Hdisk0 : (p < length disk - s)%nat → diskMid !!! 0%nat = disk !!! p).
  { intros Hlt. unfold diskMid, slice.
    rewrite lookup_total_take_lt, lookup_total_drop, Nat.add_0_r by lia. done. }
  assert (Hmin : minLen = (length doc `min` length disk)%nat) by done.
  clearbody docMid diskMid. clearbody s. clearbody p. clearbody minLen.
  intros Hnil. apply app_eq_nil in Hnil as [Hupd Hnil].
  apply app_eq_nil in Hnil as [Hdel Hins].
  apply (f_equal length) in Hdel, Hins.
  unfold delete_ops in Hdel. unfold insert_ops in Hins.
  rewrite length_bind_singleton, length_seq in Hdel, Hins. cbn [length] in Hdel, Hins.
  assert (Hlen : length doc = length disk) by lia.
  assert (Hpn : (p < length doc)%nat).
  { destruct (decide (p < length doc)%nat) as [|Hge]; [done|]. exfalso. apply Hne.
    apply lists_equal_by_lines; [done|]. intros j Hj. apply Hpre. lia. }
  assert (Hdiff : doc !!! p ≠ disk !!! p) by (apply Hstop; lia).
  assert (Hsn : (s < length doc - p)%nat).
  { destruct (decide (s < length doc - p)%nat) as [|Hge]; [done|]. exfalso. apply Hdiff.
    specialize (Hsuf (length doc - p - 1)%nat). rewrite <- Hlen in Hsuf.
    assert (Hidx : (length doc - 1 - (length doc - p - 1))%nat = p) by (clear -Hpn; lia).
    rewrite Hidx in Hsuf. apply Hsuf. clear -Hpn Hge. lia. }
  unfold update_ops in Hupd.
  destruct (length docMid `min` length diskMid)%nat as [|m] eqn:Hm; [lia|].
  cbn [seq] in Hupd. rewrite bind_cons in Hupd.
  apply app_eq_nil in Hupd as [Hupd _].
  rewrite bool_decide_eq_true_2 in Hupd; [done|].
  rewrite Hdoc0, Hdisk0 by lia. done.
Qed.
End ingest_more.

(** X8: [eqLines] holds exactly of two equal lists of lines. *)
Theorem eqLines_iff (a b : list string) : ops.eqLines a b = true ↔ a = b.
Proof. split; [apply eqLines_true|intros ->; apply eqLines_refl]. Qed.

(** On a run whose appends succeed: the flag and the log. *)
Lemma processFile_flag_and_log {S : SliceSort}
    (env : ops.IngestEnv) (stream : string) (tracked : option UUID)
    (opsFile : option (list byte)) (fsize : Z) (stored : option Z) (data : string) :
  let res := ops.processFile env stream tracked opsFile fsize stored data in
  default [] opsFile `prefix_of` default [] res.2 ∧
  (res.1.1 = true ↔ (length (default [] opsFile) < length (default [] res.2))%nat) ∧
  (res.1.1 = false → res.2 = opsFile) ∧
  (is_Some res.1.2 → res.1.1 = false).
Proof.
  intros res. subst res. unfold ops.processFile.
  destruct tracked as [fileID|]; [|by apply (only_appends_intro _ _ _ _ [])].
  destruct (crdt.apply_strict crdt.NewRGA (ops.LoadAllOps opsFile).1) as [doc|e];
    [|by apply (only_appends_intro _ _ _ _ [])].
  case_bool_decide as Hlarge.
  - unfold ops.storeLargeFile.
    destruct stored as [size|]; [|by apply (only_appends_intro _ _ _ _ [])].
    destruct (_ && _); [by apply (only_appends_intro _ _ _ _ [])|].
    cbn [fst snd].
    apply (only_appends_intro _ _ _ _
             [crdt.mkOperation crdt.OpInsert (wrap64 (ops.env_UnixNano env))
                (ops.env_uuid env 0) fileID (ops.env_uuid env 1)
                ("EVO-LFS:" +:+ UUID_String fileID +:+ ":" +:+ pretty size)
                "" ops.zero_Time []]); [done|done|].
    intros [? ?]. done.
  - destruct (ops.eqLines _ _); [by apply (only_appends_intro _ _ _ _ [])|].
    cbn [fst snd]. eapply only_appends_intro; [done|done|]. intros [? ?]. done.
Qed.

Section ingest_io.
Context {S : SliceSort}.
Import ops.

Lemma AppendOp_run_prefix o file op :
  default [] file `prefix_of` default [] (AppendOp_run o file op).1.
Proof.
  destruct o as [| |n]; cbn [AppendOp_run fst default from_option id]; try done.
  - unfold AppendOp. by apply prefix_app_r.
  - by apply prefix_app_r.
Qed.

Lemma append_strict_prefix outcome l : ∀ k file,
  default [] file `prefix_of` default [] (append_strict outcome k file l).1.1.
Proof.
  induction l as [|op l IH]; intros k file; cbn [append_strict]; [done|].
  pose proof (AppendOp_run_prefix (outcome k) file op) as Hone.
  destruct (AppendOp_run (outcome k) file op) as [file' [|]]; cbn [fst] in *; [done|].
  etrans; [exact Hone|apply IH].
Qed.

Lemma append_lenient_prefix outcome l : ∀ k file,
  default [] file `prefix_of` default [] (append_lenient outcome k file l).
Proof.
  induction l as [|op l IH]; intros k file; cbn [append_lenient]; [done|].
  etrans; [apply (AppendOp_run_prefix (outcome k) file op)|apply IH].
Qed.

(** When no call fails, the loops write the ops one after the other. *)
Lemma append_strict_succeeds outcome l : ∀ k file,
  (∀ i, outcome i = AppendOk) →
  append_strict outcome k file l = (append_all file l, false, (k + length l)%nat).
Proof.
  induction l as [|op l IH]; intros k file Hok; cbn [append_strict].
  - cbn [length]. by rewrite Nat.add_0_r.
  - rewrite (Hok k). cbn [AppendOp_run]. rewrite IH by done.
    cbn [length]. by rewrite Nat.add_succ_r.
Qed.

Lemma append_lenient_succeeds outcome l : ∀ k file,
  (∀ i, outcome i = AppendOk) →
  append_lenient outcome k file l = append_all file l.
Proof.
  induction l as [|op l IH]; intros k file Hok; cbn [append_lenient]; [done|].
  rewrite (Hok k). cbn [AppendOp_run fst]. by rewrite IH.
Qed.

(** On a run in which the file is read and every append succeeds,
    [processFile_io] is [processFile]. *)
Lemma processFile_io_succeeds outcome env stream tracked opsFile fsize stored data :
  (∀ i, outcome i = AppendOk) →
  processFile_io outcome env stream tracked opsFile fsize stored (Some data)
  = processFile env stream tracked opsFile fsize stored data.
Proof.
  intros Hok. unfold processFile_io, processFile.
  destruct tracked as [fileID|]; [|done].
  destruct (crdt.apply_strict crdt.NewRGA (LoadAllOps opsFile).1) as [doc|e]; [|done].
  case_bool_decide as Hlarge.
  - unfold storeLargeFile_io, storeLargeFile. rewrite (Hok 0%nat).
    destruct stored as [size|]; [|done]. by destruct (_ && _).
  - destruct (eqLines _ _); [done|].
    rewrite append_strict_succeeds, append_lenient_succeeds by done.
    unfold append_all. by rewrite <- fold_left_app, <- app_assoc.
Qed.

(** With the file unread, [processFile_io] either stops there or does
    what it does on any content: a large file is not read. *)
Lemma processFile_io_unread outcome env stream tracked opsFile fsize stored :
  processFile_io outcome env stream tracked opsFile fsize stored None
    = (false, Some ErrReadFile, opsFile) ∨
  processFile_io outcome env stream tracked opsFile fsize stored None
    = processFile_io outcome env stream tracked opsFile fsize stored (Some "").
Proof.
  unfold processFile_io.
  destruct tracked as [fileID|]; [|by right].
  destruct (crdt.apply_strict crdt.NewRGA (LoadAllOps opsFile).1) as [doc|e]; [|by right].
  case_bool_decide; [by right|by left].
Qed.

Lemma storeLargeFile_io_shape o env fileID stored doc opsFile :
  let res := storeLargeFile_io o env fileID stored doc opsFile in
  default [] opsFile `prefix_of` default [] res.2 ∧
  (is_Some res.1.2 → res.1.1 = false) ∧
  (res.1.1 = false → res.1.2 = None → res.2 = opsFile).
Proof.
  intros res. subst res. unfold storeLargeFile_io.
  destruct stored as [size|]; [|done].
  destruct (_ && _); [done|].
  match goal with |- context [AppendOp_run o opsFile ?lop] =>
    pose proof (AppendOp_run_prefix o opsFile lop) as Hpre;
    destruct (AppendOp_run o opsFile lop) as [file' [|]] end; cbn [fst snd] in *.
  - split; [done|]. split; [done|]. intros _ [=].
  - split; [done|]. split; [intros [? [=]]|intros [=]].
Qed.

(** The three loops, on any lists of ops. *)
Lemma loops_io_shape outcome opsFile (strict inserts : list crdt.Operation) :
  let res :=
    match append_strict outcome 0 opsFile strict with
    | (file', true, _) => (false, Some ErrAppendOp, file')
    | (file', false, k) =>
        (bool_decide (strict ++ inserts ≠ []), None,
         append_lenient outcome k file' inserts)
    end in
  default [] opsFile `prefix_of` default [] res.2 ∧
  (is_Some res.1.2 → res.1.1 = false) ∧
  (res.1.1 = false → res.1.2 = None → res.2 = opsFile).
Proof.
  intros res. subst res.
  destruct (decide (strict ++ inserts = [])) as [Hnil|Hne].
  - apply app_eq_nil in Hnil as [-> ->]. cbn [append_strict append_lenient fst snd]. done.
  - pose proof (append_strict_prefix outcome strict 0 opsFile) as Hpre.
    destruct (append_strict outcome 0 opsFile strict) as [[file' [|]] k]; cbn [fst snd] in *.
    + split; [done|]. split; [done|]. intros _ [=].
    + rewrite bool_decide_eq_true_2 by done.
      split; [etrans; [exact Hpre|apply append_lenient_prefix]|].
      split; [intros [? [=]]|intros [=]].
Qed.
End ingest_io.

(** When an append fails, the flag no longer tells whether the log has
    grown. Lines "a", "y" against the content "b", "z", the second
    append failing: the first Update is in the log, the flag is false.
    Line "a" against "a", "q", every append failing: the flag is true,
    the log is as it was. *)
Example processFile_flag_with_failed_appends :
  let log := Some (ops.WriteOp sample.ins_a ++ ops.WriteOp sample.ins_y) in
  let run := ops.processFile_io (H:=merge_slice_sort)
               (λ k, match k with O => ops.AppendOk | _ => ops.AppendFailsUnopened end)
               sample.ingest_env "main" (Some sample.F1) log 1 None
               (Some ("b" +:+ String "010"%char "z")) in
  let run' := ops.processFile_io (H:=merge_slice_sort) (λ _, ops.AppendFailsUnopened)
                sample.ingest_env "main" (Some sample.F1)
                (Some (ops.WriteOp sample.ins_a)) 1 None
                (Some ("a" +:+ String "010"%char "q")) in
  run.1 = (false, Some ops.ErrAppendOp) ∧
  (ops.LoadAllOps run.2).1
    = (ops.LoadAllOps log).1
      ++ [crdt.mkOperation crdt.OpUpdate 1000 50 sample.F1 sample.L1 "b" ""
            ops.zero_Time []] ∧
  run'.1 = (true, None) ∧
  run'.2 = Some (ops.WriteOp sample.ins_a).
Proof. vm_compute. repeat split. Qed.

(** X9: [processFile], with the outcomes of its file-system calls, only
    ever appends to the op log: whatever fails, the log before the call
    is a prefix of the log after it. An error always comes with a false
    flag, and a false flag without error leaves the log untouched. When
    no call of [AppendOp] fails, the flag is true exactly when the log
    has grown, and a false flag means an untouched log. *)
Theorem processFile_only_appends {S : SliceSort}
    (outcome : nat → ops.AppendOutcome)
    (env : ops.IngestEnv) (stream : string) (tracked : option UUID)
    (opsFile : option (list byte)) (fsize : Z) (stored : option Z)
    (data : option string) :
  let res := ops.processFile_io outcome env stream tracked opsFile fsize stored data in
  default [] opsFile `prefix_of` default [] res.2 ∧
  (is_Some res.1.2 → res.1.1 = false) ∧
  (res.1.1 = false → res.1.2 = None → res.2 = opsFile) ∧
  ((∀ k, outcome k = ops.AppendOk) →
   (res.1.1 = true ↔ (length (default [] opsFile) < length (default [] res.2))%nat) ∧
   (res.1.1 = false → res.2 = opsFile)).
Proof.
  intros res.
  assert (Hshape : default [] opsFile `prefix_of` default [] res.2 ∧
            (is_Some res.1.2 → res.1.1 = false) ∧
            (res.1.1 = false → res.1.2 = None → res.2 = opsFile)).
  { subst res. unfold ops.processFile_io.
    destruct tracked as [fileID|]; [|done].
    destruct (crdt.apply_strict crdt.NewRGA (ops.LoadAllOps opsFile).1) as [doc|e]; [|done].
    case_bool_decide as Hlarge; [apply storeLargeFile_io_shape|].
    destruct data as [data|]; [|done].
    destruct (ops.eqLines _ _); [done|].
    apply loops_io_shape. }
  destruct Hshape as (Hpre & Herr & Hsame).
  split; [done|]. split; [done|]. split; [done|].
  intros Hok. subst res.
  assert (Hread : ∀ data',
    let res' := ops.processFile_io outcome env stream tracked opsFile fsize stored
                  (Some data') in
    (res'.1.1 = true ↔ (length (default [] opsFile) < length (default [] res'.2))%nat) ∧
    (res'.1.1 = false → res'.2 = opsFile)).
  { intros data'. cbn zeta. rewrite processFile_io_succeeds by done.
    destruct (processFile_flag_and_log env stream tracked opsFile fsize stored data')
      as (_ & Hgrow & Hkeep & _). by split. }
  destruct data as [data|]; [apply Hread|].
  destruct (processFile_io_unread outcome env stream tracked opsFile fsize stored)
    as [->| ->]; [|apply Hread].
  cbn [fst snd]. split; [|done]. split; [done|lia].
Qed.

(** X10: on a tracked file no larger than the large-file threshold whose
    log replays without error, [processFile] returns no error and its
    flag says whether the lines of the file differ from the materialized
    document: every difference is detected, and nothing else is. *)
Theorem processFile_detects_changes {S : SliceSort}
    (env : ops.IngestEnv) (stream : string) (fileID : UUID)
    (opsFile : option (list byte)) (fsize : Z) (stored : option Z)
    (data : string) (doc : crdt.RGA) :
  fsize ≤ ops.readLargeThreshold →
  crdt.apply_strict crdt.NewRGA (ops.LoadAllOps opsFile).1 = inl doc →
  (ops.processFile env stream (Some fileID) opsFile fsize stored data).1
    = (bool_decide (crdt.Materialize doc ≠ ops.Split_LF (ops.ReplaceAll_CRLF data)), None).
Proof.
  intros Hsize Hdoc. unfold ops.processFile. rewrite Hdoc.
  rewrite bool_decide_eq_false_2 by lia.
  destruct (ops.eqLines (crdt.Materialize doc) (ops.Split_LF (ops.ReplaceAll_CRLF data)))
    eqn:Heq.
  - apply eqLines_true in Heq. cbn [fst].
    rewrite bool_decide_eq_false_2; [done|]. intros Hne. by apply Hne.
  - assert (Hne : crdt.Materialize doc ≠ ops.Split_LF (ops.ReplaceAll_CRLF data)).
    { intros Hlines. rewrite Hlines, eqLines_refl in Heq. done. }
    cbn [fst]. rewrite (bool_decide_eq_true_2 _ Hne). f_equal.
    apply bool_decide_eq_true_2. by apply diff_emits.
Qed.

(** The document "a" against the file content "b". *)
Lemma processFile_detects_changes_witness :
  (ops.processFile sample.ingest_env "main" (Some sample.F1)
     (Some (ops.WriteOp sample.ins_a)) 1 None "b").1
  = (bool_decide
       (crdt.Materialize (crdt.apply_all crdt.NewRGA [ops.persisted sample.ins_a])
        ≠ ops.Split_LF (ops.ReplaceAll_CRLF "b")), None).
Proof.
  apply (processFile_detects_changes (S:=merge_slice_sort) sample.ingest_env "main"
           sample.F1 (Some (ops.WriteOp sample.ins_a)) 1 None "b"
           (crdt.apply_all crdt.NewRGA [ops.persisted sample.ins_a]));
    vm_compute; first [reflexivity | discriminate].
Defined.

(** ** Commit records and streams *)

Section records.
Context {S : SliceSort}.
Import streams.

Lemma commit_dir_SaveCommitFile_eq t c r :
  commit_dir (SaveCommitFile t c r) t = <[commit_file (types.ID c) := c]> (commit_dir r t).
Proof.
  unfold SaveCommitFile, commit_dir at 1. cbn [commit_dirs].
  by rewrite lookup_insert_eq.
Qed.

Lemma commit_dir_SaveCommitFile_ne t c r s :
  t ≠ s → commit_dir (SaveCommitFile t c r) s = commit_dir r s.
Proof.
  intros Hne. unfold SaveCommitFile, commit_dir at 1. cbn [commit_dirs].
  by rewrite lookup_insert_ne.
Qed.

Lemma StronglySorted_weaken {A} (R R' : relation A) (l : list A) :
  (∀ a b, R a b → R' a b) → StronglySorted R l → StronglySorted R' l.
Proof.
  intros HR. induction 1 as [|x l Hl IH Hx]; constructor; [done|].
  eapply Forall_impl; [exact Hx|]. intros y. apply HR.
Qed.

Lemma existsb_bool_decide {A} `{EqDecision A} (x : A) (l : list A) :
  existsb (λ y, bool_decide (x = y)) l = true ↔ x ∈ l.
Proof.
  induction l as [|y l IH]; simpl.
  - split; [done|]. intros Hin. by apply elem_of_nil in Hin.
  - rewrite orb_true_iff, IH, elem_of_cons, bool_decide_eq_true. done.
Qed.

Lemma find_commit_None r streams commitID :
  find_commit r streams commitID = None ↔
  ∀ s, s ∈ streams → commitID ∉ types.ID <$> ListCommits r s.
Proof.
  induction streams as [|s streams IH]; cbn [find_commit].
  - split; [|done]. intros _ s Hs. by apply elem_of_nil in Hs.
  - destruct (list_find _ (ListCommits r s)) as [[i c]|] eqn:E.
    + split; [done|]. intros Hall. exfalso.
      apply list_find_Some in E as (Hi & Hid & _).
      apply (Hall s); [by left|]. apply list_elem_of_fmap. exists c.
      split; [done|]. by eapply list_elem_of_lookup_2.
    + rewrite IH. apply list_find_None in E. split.
      * intros Hall s' Hs'. apply elem_of_cons in Hs' as [->|Hs']; [|by apply Hall].
        intros Hin. apply list_elem_of_fmap in Hin as (c & -> & Hc).
        rewrite Forall_forall in E. by apply (E c).
      * intros Hall s' Hs'. apply Hall. by right.
Qed.







(** What the loop of [MergeStreams] does to one record file. *)
Lemma merge_fold_untouched l t r k :
  (∀ mc, mc ∈ l → commit_file (types.ID mc) ≠ k) →
  commit_dir (fold_left (merge_commit t) l r) t !! k = commit_dir r t !! k.
Proof.
  revert r. induction l as [|mc l IH]; intros r Hl; [done|].
  cbn [fold_left]. rewrite IH by (intros mc' Hmc'; apply Hl; by right).
  rewrite commit_dir_merge_commit_eq, lookup_insert_ne; [done|]. apply Hl. by left.
Qed.

Lemma merge_fold_copied l t r sc :
  sc ∈ l → (∀ mc, mc ∈ l → types.ID mc = types.ID sc → mc = sc) →
  commit_dir (fold_left (merge_commit t) l r) t !! commit_file (types.ID sc)
  = Some (set_Stream t sc).
Proof.
  revert r. induction l as [|mc l IH]; intros r Hin Hids.
  - by apply elem_of_nil in Hin.
  - cbn [fold_left].
    destruct (decide (types.ID sc ∈ types.ID <$> l)) as [Hl|Hl].
    + apply IH; [|intros mc' Hmc'; apply Hids; by right].
      apply list_elem_of_fmap in Hl as (mc' & Heq & Hmc').
      rewrite <- (Hids mc'); [done|by right|done].
    + apply elem_of_cons in Hin as [->|Hin].
      * rewrite merge_fold_untouched.
        { by rewrite commit_dir_merge_commit_eq, lookup_insert_eq. }
        intros mc' Hmc' Hname. apply commit_file_inj in Hname.
        apply Hl. apply list_elem_of_fmap. by exists mc'.
      * exfalso. apply Hl. apply list_elem_of_fmap. by exists sc.
Qed.

Lemma log_size_merge_fold l t r p :
  (log_size r p ≤ log_size (fold_left (merge_commit t) l r) p)%nat.
Proof.
  revert r. induction l as [|mc l IH]; intros r; [done|].
  cbn [fold_left]. etrans; [|apply IH].
  unfold merge_commit.
  change (log_size (SaveCommitFile ?t ?c ?r') ?p) with (log_size r' p).
  apply log_size_replicateOps.
Qed.
End records.

(** X11: [shouldIncludeOp] lets an op through exactly when its printed
    file id is among the file ids of the filter, or the filter names no
    file id, and its type is among the op types of the filter, or the
    filter names no op type. *)
Theorem shouldIncludeOp_iff (op : types.ExtendedOp) (filter : streams.MergeFilter) :
  streams.shouldIncludeOp op filter = true ↔
  (streams.FileIDs filter = [] ∨
   UUID_String (crdt.FileID (types.Op op)) ∈ streams.FileIDs filter) ∧
  (streams.OpTypes filter = [] ∨ crdt.Typ (types.Op op) ∈ streams.OpTypes filter).
Proof.
  unfold streams.shouldIncludeOp.
  pose proof (existsb_bool_decide (UUID_String (crdt.FileID (types.Op op)))
                (streams.FileIDs filter)) as Hf.
  pose proof (existsb_bool_decide (crdt.Typ (types.Op op)) (streams.OpTypes filter)) as Ht.
  destruct (existsb _ (streams.FileIDs filter));
    destruct (existsb _ (streams.OpTypes filter));
    destruct (streams.FileIDs filter) as [|fid fids];
    destruct (streams.OpTypes filter) as [|ot ots];
    cbn [length bool_decide andb negb];
    rewrite ?bool_decide_eq_true_2 by (simpl; lia);
    rewrite ?bool_decide_eq_false_2 by (simpl; lia);
    cbn [andb negb];
    (split; [intros Hres|intros [[Hfn|Hfin] [Htn|Htin]]]);
    try discriminate; try done;
    try (split; [first [by left|right; by apply Hf]|first [by left|right; by apply Ht]]);
    try (apply Hf in Hfin; discriminate);
    try (apply Ht in Htin; discriminate).
Qed.

(** X12: [ListCommits] lists exactly the records of the [.bin] files of
    the stream's commit directory, ordered by timestamp; a record that
    [SaveCommitFile] has just written is listed. *)
Theorem ListCommits_sorted {S : SliceSort} {HS : SliceSortSpec S}
    (r : Repo) (stream : string) :
  StronglySorted (λ a b, types.Timestamp a ≤ types.Timestamp b) (ListCommits r stream) ∧
  (∀ c, c ∈ ListCommits r stream ↔
        ∃ name, commit_dir r stream !! name = Some c ∧ Ext_is_bin name = true) ∧
  (∀ c, c ∈ ListCommits (SaveCommitFile stream c r) stream).
Proof.
  split; [|split].
  - unfold ListCommits.
    apply (StronglySorted_weaken
             (not_after (λ a b, types.Timestamp a <? types.Timestamp b))).
    + intros a b Hab. unfold not_after in Hab. lia.
    + apply slice_sort_sorted.
      * intros a b c Hab Hbc. unfold not_after in *. lia.
      * intros a b. unfold not_after. lia.
  - intros c. apply elem_of_ListCommits.
  - intros c. apply elem_of_ListCommits. exists (commit_file (types.ID c)).
    rewrite commit_dir_SaveCommitFile_eq, lookup_insert_eq.
    split; [done|apply Ext_is_bin_commit_file].
Qed.

(** The two commits of stream feature, listed by merge sort. *)
Lemma ListCommits_sorted_witness :
  StronglySorted (λ a b, types.Timestamp a ≤ types.Timestamp b)
    (ListCommits sample.feature_repo "feature") ∧
  (∀ c, c ∈ ListCommits sample.feature_repo "feature" ↔
        ∃ name, commit_dir sample.feature_repo "feature" !! name = Some c ∧
                Ext_is_bin name = true) ∧
  (∀ c, c ∈ ListCommits (SaveCommitFile "feature" c sample.feature_repo) "feature").
Proof.
  exact (ListCommits_sorted (S:=merge_slice_sort) sample.feature_repo "feature").
Defined.

(** X13: a full merge copies every source commit the target lacks, with
    its id, message, author, timestamp, ops and signature, only the
    stream changed; it keeps every commit the target had, touches the
    records of no other stream, and only makes op logs longer. *)
Theorem MergeStreams_copies_missing {S : SliceSort} {HS : SliceSortSpec S}
    (r : Repo) (source target : string) :
  named_by_id (commit_dir r source) →
  named_by_id (commit_dir r target) →
  (∀ c, c ∈ ListCommits r target →
        c ∈ ListCommits (streams.MergeStreams r source target) target) ∧
  (∀ sc, sc ∈ ListCommits r source →
         types.ID sc ∈ types.ID <$> ListCommits r target ∨
         streams.set_Stream target sc
           ∈ ListCommits (streams.MergeStreams r source target) target) ∧
  (∀ s, s ≠ target →
        commit_dir (streams.MergeStreams r source target) s = commit_dir r s) ∧
  (∀ p, (log_size r p ≤ log_size (streams.MergeStreams r source target) p)%nat).
Proof.
  intros Hsrc Htgt. unfold streams.MergeStreams.
  assert (Hmissing : ∀ mc, mc ∈ streams.missing r source target →
            mc ∈ ListCommits r source ∧
            types.ID mc ∉ types.ID <$> ListCommits r target).
  { intros mc Hmc. unfold streams.missing in Hmc.
    apply list_elem_of_filter in Hmc as [Hid Hmc]. split; [done|].
    intros Hin. apply Hid. by apply elem_of_list_to_set. }
  split; [|split; [|split]].
  - intros c Hc. apply elem_of_ListCommits in Hc as (k & Hk & Hext).
    apply elem_of_ListCommits. exists k. split; [|done].
    rewrite merge_fold_untouched; [done|].
    intros mc Hmc Hname. apply Hmissing in Hmc as [_ Hid]. apply Hid.
    apply list_elem_of_fmap. exists c. split.
    + apply commit_file_inj. by rewrite Hname, (Htgt k c Hk).
    + apply elem_of_ListCommits. eauto.
  - intros sc Hsc.
    destruct (decide (types.ID sc ∈ types.ID <$> ListCommits r target)) as [|Hid];
      [by left|right].
    apply elem_of_ListCommits. exists (commit_file (types.ID sc)).
    split; [|apply Ext_is_bin_commit_file].
    apply merge_fold_copied.
    + unfold streams.missing. apply list_elem_of_filter. split; [|done].
      intros Hin. apply Hid. by apply elem_of_list_to_set in Hin.
    + intros mc Hmc Heq. apply Hmissing in Hmc as [Hmc _].
      apply elem_of_ListCommits in Hmc as (k1 & Hk1 & _).
      apply elem_of_ListCommits in Hsc as (k2 & Hk2 & _).
      pose proof (Hsrc k1 mc Hk1) as Hn1. pose proof (Hsrc k2 sc Hk2) as Hn2.
      cbn beta in Hn1, Hn2. rewrite Heq, <- Hn2 in Hn1. subst k1. congruence.
  - intros s Hs. by apply merge_fold_other.
  - intros p. apply log_size_merge_fold.
Qed.

(** Stream feature, with the commits K1 and K2, merged into an empty
    main. *)
Lemma MergeStreams_copies_missing_witness :
  (∀ c, c ∈ ListCommits sample.feature_repo "main" →
        c ∈ ListCommits (streams.MergeStreams sample.feature_repo "feature" "main") "main") ∧
  (∀ sc, sc ∈ ListCommits sample.feature_repo "feature" →
         types.ID sc ∈ types.ID <$> ListCommits sample.feature_repo "main" ∨
         streams.set_Stream "main" sc
           ∈ ListCommits (streams.MergeStreams sample.feature_repo "feature" "main") "main") ∧
  (∀ s, s ≠ "main" →
        commit_dir (streams.MergeStreams sample.feature_repo "feature" "main") s
        = commit_dir sample.feature_repo s) ∧
  (∀ p, (log_size sample.feature_repo p
         ≤ log_size (streams.MergeStreams sample.feature_repo "feature" "main") p)%nat).
Proof.
  apply (MergeStreams_copies_missing (S:=merge_slice_sort)
           sample.feature_repo "feature" "main");
    unfold named_by_id; apply (bool_decide_unpack _); vm_compute; exact I.
Defined.

(** X14: [CherryPick] fails exactly when no stream of the repository
    lists a commit with the id, and a failed cherry-pick leaves the
    repository as it was. *)
Theorem CherryPick_fails_iff {S : SliceSort}
    (newUUID : UUID) (r : Repo) (commitID target : string) :
  (is_Some (streams.CherryPick newUUID r commitID target).2 ↔
   ∀ s, s ∈ stream_files r → commitID ∉ types.ID <$> ListCommits r s) ∧
  (is_Some (streams.CherryPick newUUID r commitID target).2 →
   (streams.CherryPick newUUID r commitID target).1 = r).
Proof.
  unfold streams.CherryPick.
  destruct (streams.find_commit r (stream_files r) commitID) as [found|] eqn:E;
    cbn [fst snd].
  - split; [|intros [? ?]; done]. split; [intros [? ?]; done|].
    intros Hall. apply find_commit_None in Hall. congruence.
  - split; [|done]. split; [|by eexists]. intros _. by apply find_commit_None.
Qed.



(** ** Revert, first version: [commits.RevertCommit] over the op logs *)

Section revert_v1.
Context {S : SliceSort}.

Lemma list_find_ID_None (l : list types.Commit) (commitID : string) :
  list_find (λ c, types.ID c = commitID) l = None ↔ commitID ∉ types.ID <$> l.
Proof.
  rewrite list_find_None, Forall_forall. split.
  - intros Hall Hin. apply list_elem_of_fmap in Hin as (c & -> & Hc). by apply (Hall c).
  - intros Hnot c Hc Hid. apply Hnot. apply list_elem_of_fmap. by exists c.
Qed.

Lemma length_invertOps_from env k l :
  (length (commits.invertOps_from env k l) ≤ length l)%nat.
Proof.
  revert k. induction l as [|eop l IH]; intros k; cbn [commits.invertOps_from length];
    [done|].
  pose proof (IH k). pose proof (IH (Datatypes.S k)).
  repeat case_bool_decide; cbn [length]; lia.
Qed.
End revert_v1.

(** X16: [commits.RevertCommit] fails exactly when the stream lists no
    commit with the id, and then leaves the repository as it was. When
    it succeeds it returns the fresh id, under which the stream then has
    a record by "Reverter" with at most as many ops as the reverted
    commit; every other record file is untouched and op logs only get
    longer. *)
Theorem RevertCommit_outcome {S : SliceSort}
    (env : commits.Env) (now : Time) (r : Repo) (stream commitID : string) :
  (commitID ∉ types.ID <$> ListCommits r stream →
   commits.RevertCommit env now r stream commitID
   = (r, inr (commits.ErrCommitNotFound commitID stream))) ∧
  (commitID ∈ types.ID <$> ListCommits r stream →
   (commits.RevertCommit env now r stream commitID).2
     = inl (UUID_String (commits.uuid_New env 0)) ∧
   ∃ target rc,
     target ∈ ListCommits r stream ∧ types.ID target = commitID ∧
     commit_dir (commits.RevertCommit env now r stream commitID).1 stream
       !! commit_file (UUID_String (commits.uuid_New env 0)) = Some rc ∧
     types.ID rc = UUID_String (commits.uuid_New env 0) ∧
     types.Stream rc = stream ∧ types.AuthorName rc = "Reverter" ∧
     types.Timestamp rc = now ∧
     (length (types.Operations rc) ≤ length (types.Operations target))%nat) ∧
  (∀ s k, (s, k) ≠ (stream, commit_file (UUID_String (commits.uuid_New env 0))) →
          commit_dir (commits.RevertCommit env now r stream commitID).1 s !! k
          = commit_dir r s !! k) ∧
  (∀ p, (log_size r p
         ≤ log_size (commits.RevertCommit env now r stream commitID).1 p)%nat).
Proof.
  unfold commits.RevertCommit.
  destruct (list_find (λ c, types.ID c = commitID) (ListCommits r stream))
    as [[i target]|] eqn:E.
  - apply list_find_Some in E as (Hi & Hid & _).
    apply list_elem_of_lookup_2 in Hi. cbn [fst snd].
    change (commits.applyOps ?s ?l ?r0) with (streams.replicateOps s l r0).
    split; [|split; [|split]].
    + intros Hnot. exfalso. apply Hnot. apply list_elem_of_fmap. by exists target.
    + intros _. split; [done|]. eexists target, _. split; [done|]. split; [done|].
      rewrite commit_dir_SaveCommitFile_eq. cbn [types.ID].
      rewrite lookup_insert_eq. split; [done|]. cbn [types.ID types.Stream
        types.AuthorName types.Timestamp types.Operations].
      repeat split. apply length_invertOps_from.
    + intros s k Hne. destruct (decide (stream = s)) as [<-|Hs].
      * rewrite commit_dir_SaveCommitFile_eq, commit_dir_replicateOps. cbn [types.ID].
        rewrite lookup_insert_ne; [done|]. intros Hk. apply Hne. by rewrite Hk.
      * by rewrite commit_dir_SaveCommitFile_ne, commit_dir_replicateOps.
    + intros p.
      change (log_size (SaveCommitFile ?t ?c ?r') ?p) with (log_size r' p).
      apply log_size_replicateOps.
  - apply list_find_ID_None in E. cbn [fst snd].
    split; [done|]. split; [done|]. split; [done|]. intros p. lia.
Qed.

(** ** Revert, second version: [invertOps] walks the commit backwards *)

Section revert_v2.
Import commits_v2.

#[local] Abbreviation shape e :=
  (crdt.Typ (types.Op e), crdt.LineID (types.Op e), crdt.Content (types.Op e),
   types.OldContent e).

#[local] Abbreviation inverse_shape :=
  (λ x : crdt.OpType * UUID * string * string,
     if bool_decide (x.1.1.1 = crdt.OpInsert) then (crdt.OpDelete, x.1.1.2, "", "")
     else if bool_decide (x.1.1.1 = crdt.OpDelete) then (crdt.OpInsert, x.1.1.2, x.1.2, "")
     else (crdt.OpUpdate, x.1.1.2, x.2, x.1.2)).

#[local] Abbreviation known e :=
  (crdt.Typ (types.Op e) = crdt.OpInsert ∨ crdt.Typ (types.Op e) = crdt.OpDelete ∨
   crdt.Typ (types.Op e) = crdt.OpUpdate).

#[local] Abbreviation uninvertible e :=
  ((crdt.Typ (types.Op e) = crdt.OpDelete ∧ crdt.Content (types.Op e) = "") ∨
   (crdt.Typ (types.Op e) = crdt.OpUpdate ∧ types.OldContent e = "")).

Lemma invert_loop_shape now l : ∀ k inv,
  invert_loop now k l = inl inv →
  (λ e, shape e) <$> inv = inverse_shape <$> ((λ e, shape e) <$> filter (λ e, known e) l) ∧
  Forall (λ e, crdt.Lamport (types.Op e) = 0 ∧ crdt.NodeID (types.Op e) = 0 ∧
               crdt.FileID (types.Op e) = 0 ∧ crdt.Stream (types.Op e) = "") inv.
Proof.
  induction l as [|op l IH]; intros k inv; cbn [invert_loop].
  - intros [= <-]. split; [done|constructor].
  - rewrite filter_cons.
    destruct (decide (crdt.Typ (types.Op op) = crdt.OpInsert)) as [Hi|Hi].
    { rewrite (bool_decide_eq_true_2 _ Hi).
      destruct (invert_loop now (Datatypes.S k) l) as [inv'|e] eqn:E; [|done].
      intros [= <-]. destruct (IH _ _ E) as [IH1 IH2].
      rewrite decide_True by (by left). rewrite !fmap_cons, IH1.
      cbn [types.Op types.OldContent crdt.Typ crdt.LineID crdt.Content fst snd].
      rewrite (bool_decide_eq_true_2 _ Hi). split; [done|]. by constructor. }
    rewrite (bool_decide_eq_false_2 _ Hi).
    destruct (decide (crdt.Typ (types.Op op) = crdt.OpDelete)) as [Hd|Hd].
    { rewrite (bool_decide_eq_true_2 _ Hd).
      case_bool_decide as Hc; [done|].
      destruct (invert_loop now (Datatypes.S k) l) as [inv'|e] eqn:E; [|done].
      intros [= <-]. destruct (IH _ _ E) as [IH1 IH2].
      rewrite decide_True by (right; by left). rewrite !fmap_cons, IH1.
      cbn [types.Op types.OldContent crdt.Typ crdt.LineID crdt.Content fst snd].
      rewrite (bool_decide_eq_false_2 _ Hi), (bool_decide_eq_true_2 _ Hd).
      split; [done|]. by constructor. }
    rewrite (bool_decide_eq_false_2 _ Hd).
    destruct (decide (crdt.Typ (types.Op op) = crdt.OpUpdate)) as [Hu|Hu].
    { rewrite (bool_decide_eq_true_2 _ Hu).
      case_bool_decide as Hc; [done|].
      destruct (invert_loop now (Datatypes.S k) l) as [inv'|e] eqn:E; [|done].
      intros [= <-]. destruct (IH _ _ E) as [IH1 IH2].
      rewrite decide_True by (right; by right). rewrite !fmap_cons, IH1.
      cbn [types.Op types.OldContent crdt.Typ crdt.LineID crdt.Content fst snd].
      rewrite (bool_decide_eq_false_2 _ Hi), (bool_decide_eq_false_2 _ Hd).
      split; [done|]. by constructor. }
    rewrite (bool_decide_eq_false_2 _ Hu).
    rewrite decide_False by (intros [?|[?|?]]; done).
    apply IH.
Qed.

Lemma invert_loop_fails now l : ∀ k,
  (∃ e, invert_loop now k l = inr e) ↔ ∃ op, op ∈ l ∧ uninvertible op.
Proof.
  induction l as [|op l IH]; intros k; cbn [invert_loop].
  - split; [intros [e He]; done|]. intros (op & Hop & _). by apply elem_of_nil in Hop.
  - assert (Hrest : ∀ k', (∃ e, invert_loop now k' l = inr e) →
                          ∃ op', op' ∈ op :: l ∧ uninvertible op').
    { intros k' He. apply IH in He as (op' & Hin & Hbad). exists op'. split; [by right|done]. }
    assert (Hcons : ∀ k', (∃ op', op' ∈ op :: l ∧ uninvertible op') →
                          ¬ uninvertible op → ∃ e, invert_loop now k' l = inr e).
    { intros k' (op' & Hin & Hbad) Hgood. apply IH. exists op'. split; [|done].
      apply elem_of_cons in Hin as [->|Hin]; [done|done]. }
    destruct (decide (crdt.Typ (types.Op op) = crdt.OpInsert)) as [Hi|Hi].
    { rewrite (bool_decide_eq_true_2 _ Hi).
      assert (Hgood : ¬ uninvertible op).
      { rewrite Hi. intros [[? _]|[? _]]; done. }
      destruct (invert_loop now (Datatypes.S k) l) as [inv'|e] eqn:E.
      - split; [intros [e He]; done|]. intros Hex.
        destruct (Hcons (Datatypes.S k) Hex Hgood) as [e He]. congruence.
      - split; [|by eauto]. intros _. apply (Hrest (Datatypes.S k)). eauto. }
    rewrite (bool_decide_eq_false_2 _ Hi).
    destruct (decide (crdt.Typ (types.Op op) = crdt.OpDelete)) as [Hd|Hd].
    { rewrite (bool_decide_eq_true_2 _ Hd). case_bool_decide as Hc.
      - split; [|by eauto]. intros _. exists op. split; [by left|]. by left.
      - assert (Hgood : ¬ uninvertible op).
        { rewrite Hd. intros [[_ ?]|[? _]]; done. }
        destruct (invert_loop now (Datatypes.S k) l) as [inv'|e] eqn:E.
        + split; [intros [e He]; done|]. intros Hex.
          destruct (Hcons (Datatypes.S k) Hex Hgood) as [e He]. congruence.
        + split; [|by eauto]. intros _. apply (Hrest (Datatypes.S k)). eauto. }
    rewrite (bool_decide_eq_false_2 _ Hd).
    destruct (decide (crdt.Typ (types.Op op) = crdt.OpUpdate)) as [Hu|Hu].
    { rewrite (bool_decide_eq_true_2 _ Hu). case_bool_decide as Hc.
      - split; [|by eauto]. intros _. exists op. split; [by left|]. by right.
      - assert (Hgood : ¬ uninvertible op).
        { rewrite Hu. intros [[? _]|[_ ?]]; done. }
        destruct (invert_loop now (Datatypes.S k) l) as [inv'|e] eqn:E.
        + split; [intros [e He]; done|]. intros Hex.
          destruct (Hcons (Datatypes.S k) Hex Hgood) as [e He]. congruence.
        + split; [|by eauto]. intros _. apply (Hrest (Datatypes.S k)). eauto. }
    rewrite (bool_decide_eq_false_2 _ Hu).
    split; [apply Hrest|]. intros Hex. apply (Hcons k Hex).
    intros [[? _]|[? _]]; done.
Qed.

Lemma filter_reverse {A} (P : A → Prop) `{∀ x, Decision (P x)} (l : list A) :
  filter P (reverse l) = reverse (filter P l).
Proof.
  induction l as [|x l IH]; [done|].
  rewrite reverse_cons, filter_app, IH, !filter_cons, filter_nil.
  destruct (decide (P x)); [by rewrite reverse_cons|by rewrite app_nil_r].
Qed.

Lemma invertOps_shape now l inv :
  invertOps now l = inl inv →
  (λ e, shape e) <$> inv
  = inverse_shape <$> reverse ((λ e, shape e) <$> filter (λ e, known e) l) ∧
  Forall (λ e, crdt.Lamport (types.Op e) = 0 ∧ crdt.NodeID (types.Op e) = 0 ∧
               crdt.FileID (types.Op e) = 0 ∧ crdt.Stream (types.Op e) = "") inv.
Proof.
  unfold invertOps. intros Hinv. apply invert_loop_shape in Hinv as [Hshape Hzero].
  split; [|done]. by rewrite Hshape, filter_reverse, fmap_reverse.
Qed.

Lemma invertOps_fails now l :
  (∃ e, invertOps now l = inr e) ↔ ∃ op, op ∈ l ∧ uninvertible op.
Proof.
  unfold invertOps. rewrite invert_loop_fails. split.
  - intros (op & Hin & Hbad). exists op. split; [|done]. by apply (proj1 (elem_of_reverse _ _)).
  - intros (op & Hin & Hbad). exists op. split; [|done]. by apply elem_of_reverse_2.
Qed.
End revert_v2.

(** X17: the second [invertOps] fails exactly when the commit has a
    Delete whose op carries no content or an Update without old
    content. *)
Theorem invertOps_v2_fails_iff (now : nat → Time) (l : list types.ExtendedOp) :
  (∃ e, commits_v2.invertOps now l = inr e) ↔
  ∃ op, op ∈ l ∧
    ((crdt.Typ (types.Op op) = crdt.OpDelete ∧ crdt.Content (types.Op op) = "") ∨
     (crdt.Typ (types.Op op) = crdt.OpUpdate ∧ types.OldContent op = "")).
Proof. apply invertOps_fails. Qed.

(** X18: when the second [invertOps] succeeds, its result holds one
    inverse for each Insert, Delete and Update of the commit, from the
    last op to the first: a Delete of the line for an Insert, an Insert
    of the line with the op's content for a Delete, an Update to the old
    content (remembering the new one) for an Update. The inverse ops
    carry no lamport, node id, file id or stream. *)
Theorem invertOps_v2_reverses (now : nat → Time) (l inv : list types.ExtendedOp) :
  commits_v2.invertOps now l = inl inv →
  (λ e, (crdt.Typ (types.Op e), crdt.LineID (types.Op e), crdt.Content (types.Op e),
         types.OldContent e)) <$> inv
  = (λ e, if bool_decide (crdt.Typ (types.Op e) = crdt.OpInsert)
          then (crdt.OpDelete, crdt.LineID (types.Op e), "", "")
          else if bool_decide (crdt.Typ (types.Op e) = crdt.OpDelete)
          then (crdt.OpInsert, crdt.LineID (types.Op e), crdt.Content (types.Op e), "")
          else (crdt.OpUpdate, crdt.LineID (types.Op e), types.OldContent e,
                crdt.Content (types.Op e)))
    <$> reverse (filter (λ e, crdt.Typ (types.Op e) = crdt.OpInsert ∨
                              crdt.Typ (types.Op e) = crdt.OpDelete ∨
                              crdt.Typ (types.Op e) = crdt.OpUpdate) l) ∧
  Forall (λ e, crdt.Lamport (types.Op e) = 0 ∧ crdt.NodeID (types.Op e) = 0 ∧
               crdt.FileID (types.Op e) = 0 ∧ crdt.Stream (types.Op e) = "") inv.
Proof.
  intros Hinv. apply invertOps_shape in Hinv as [Hshape Hzero]. split; [|done].
  rewrite Hshape, <- fmap_reverse, <- list_fmap_compose. done.
Qed.

(** A commit that inserts line L1 and then updates it from "a" to "b". *)
Lemma invertOps_v2_reverses_witness :
  (λ e, (crdt.Typ (types.Op e), crdt.LineID (types.Op e), crdt.Content (types.Op e),
         types.OldContent e))
    <$> [types.mkExtendedOp
           (crdt.mkOperation crdt.OpUpdate 0 0 0 sample.L1 "a" "" 10 []) "b";
         types.mkExtendedOp
           (crdt.mkOperation crdt.OpDelete 0 0 0 sample.L1 "" "" 11 []) ""]
  = (λ e, if bool_decide (crdt.Typ (types.Op e) = crdt.OpInsert)
          then (crdt.OpDelete, crdt.LineID (types.Op e), "", "")
          else if bool_decide (crdt.Typ (types.Op e) = crdt.OpDelete)
          then (crdt.OpInsert, crdt.LineID (types.Op e), crdt.Content (types.Op e), "")
          else (crdt.OpUpdate, crdt.LineID (types.Op e), types.OldContent e,
                crdt.Content (types.Op e)))
    <$> reverse (filter (λ e, crdt.Typ (types.Op e) = crdt.OpInsert ∨
                              crdt.Typ (types.Op e) = crdt.OpDelete ∨
                              crdt.Typ (types.Op e) = crdt.OpUpdate)
                   [types.mkExtendedOp sample.ins_a "";
                    types.mkExtendedOp sample.upd_b "a"]) ∧
  Forall (λ e, crdt.Lamport (types.Op e) = 0 ∧ crdt.NodeID (types.Op e) = 0 ∧
               crdt.FileID (types.Op e) = 0 ∧ crdt.Stream (types.Op e) = "")
    [types.mkExtendedOp
       (crdt.mkOperation crdt.OpUpdate 0 0 0 sample.L1 "a" "" 10 []) "b";
     types.mkExtendedOp
       (crdt.mkOperation crdt.OpDelete 0 0 0 sample.L1 "" "" 11 []) ""].
Proof.
  apply (invertOps_v2_reverses (λ k, 10 + Z.of_nat k)
           [types.mkExtendedOp sample.ins_a ""; types.mkExtendedOp sample.upd_b "a"]).
  reflexivity.
Defined.

(** X19: a revert of an Insert cannot itself be reverted: whenever the
    second [invertOps] succeeds on a commit that holds an Insert, it
    fails on its own result, because the Delete it builds carries no
    content. *)
Theorem invertOps_v2_not_twice (now now' : nat → Time) (l inv : list types.ExtendedOp)
    (ins : types.ExtendedOp) :
  commits_v2.invertOps now l = inl inv →
  ins ∈ l → crdt.Typ (types.Op ins) = crdt.OpInsert →
  ∃ e, commits_v2.invertOps now' inv = inr e.
Proof.
  intros Hinv Hin Hins. apply invertOps_shape in Hinv as [Hshape _].
  apply invertOps_fails.
  assert (Hmem : (crdt.OpDelete, crdt.LineID (types.Op ins), "", "")
                 ∈ (λ e, (crdt.Typ (types.Op e), crdt.LineID (types.Op e),
                          crdt.Content (types.Op e), types.OldContent e)) <$> inv).
  { rewrite Hshape. apply list_elem_of_fmap.
    exists (crdt.Typ (types.Op ins), crdt.LineID (types.Op ins),
            crdt.Content (types.Op ins), types.OldContent ins).
    split; [cbn [fst snd]; by rewrite (bool_decide_eq_true_2 _ Hins)|].
    apply elem_of_reverse_2, list_elem_of_fmap. exists ins. split; [done|].
    apply list_elem_of_filter. split; [by left|done]. }
  apply list_elem_of_fmap in Hmem as (e & Heq & He).
  exists e. split; [done|]. left. inversion Heq. by split.
Qed.

(** The commit that inserts line L1. *)
Lemma invertOps_v2_not_twice_witness :
  ∃ e, commits_v2.invertOps (λ k, 20 + Z.of_nat k)
         [types.mkExtendedOp
            (crdt.mkOperation crdt.OpDelete 0 0 0 sample.L1 "" "" 10 []) ""] = inr e.
Proof.
  apply (invertOps_v2_not_twice (λ k, 10 + Z.of_nat k) (λ k, 20 + Z.of_nat k)
           [types.mkExtendedOp sample.ins_a ""] _ (types.mkExtendedOp sample.ins_a ""));
    [reflexivity|by left|reflexivity].
Defined.

(** ** Compaction: what [CompactOperations] keeps *)

Section compaction.
Context {S : SliceSort} {HS : SliceSortSpec S}.
Import compact.

Lemma filter_all {A} (P : A → Prop) `{∀ x, Decision (P x)} (l : list A) :
  Forall P l → filter P l = l.
Proof.
  induction 1 as [|x l Hx Hl IH]; [done|].
  by rewrite filter_cons, decide_True, IH.
Qed.

Lemma LessThan_irrefl op : crdt.LessThan op op = false.
Proof. by destruct (not_after_LessThan_total op op). Qed.

(** What one line contributes: nothing, or one op of its history that no
    op of the history is ordered after. *)
Lemma compact_line_cases cfg now h :
  compact_line cfg now h = [] ∨
  ∃ op, compact_line cfg now h = [op] ∧ op ∈ h ∧
        ∀ op', op' ∈ h → crdt.LessThan op op' = false.
Proof.
  unfold compact_line. destruct (last (sortOps h)) as [finalOp|] eqn:E; [|by left].
  destruct (_ && _); [by left|right]. exists finalOp. split; [done|].
  apply last_Some in E as [l' Hl'].
  pose proof (slice_sort_perm _ crdt.LessThan h) as Hperm.
  pose proof (slice_sort_sorted _ crdt.LessThan h
                not_after_LessThan_trans not_after_LessThan_total) as Hsorted.
  unfold sortOps in Hl'. rewrite Hl' in Hperm, Hsorted. split.
  - rewrite <- Hperm. apply elem_of_app. right. by apply list_elem_of_singleton.
  - intros op' Hop'. rewrite <- Hperm in Hop'.
    apply elem_of_app in Hop' as [Hop'|Hop'].
    + apply (StronglySorted_app_1_elem_of _ _ _ op' finalOp Hsorted Hop').
      by apply list_elem_of_singleton.
    + apply list_elem_of_singleton in Hop' as ->. apply LessThan_irrefl.
Qed.

Lemma compacted_lines cfg now l keys :
  let c := concat ((λ k, compact_line cfg now (line_history l k)) <$> keys) in
  (crdt.LineID <$> c) `sublist_of` keys ∧
  ∀ op, op ∈ c →
    op ∈ l ∧ ∀ op', op' ∈ l → crdt.LineID op' = crdt.LineID op →
                    crdt.LessThan op op' = false.
Proof.
  induction keys as [|k keys [IH1 IH2]]; cbn [fmap list_fmap concat]; cbn zeta.
  - split; [done|]. intros op Hop. by apply elem_of_nil in Hop.
  - destruct (compact_line_cases cfg now (line_history l k)) as [->|(op & -> & Hop & Hmax)].
    + cbn [app]. split; [by apply sublist_cons|done].
    + cbn [app fmap list_fmap].
      unfold line_history in Hop. apply list_elem_of_filter in Hop as [Hline Hop].
      split; [rewrite Hline; by apply sublist_skip|].
      intros op0 Hop0. apply elem_of_cons in Hop0 as [->|Hop0]; [|by apply IH2].
      split; [done|]. intros op' Hop' Heq. apply Hmax.
      unfold line_history. apply list_elem_of_filter. split; [congruence|done].
Qed.

Lemma length_line_keys l : (length (line_keys l) ≤ length l)%nat.
Proof.
  unfold line_keys. rewrite <- (length_fmap crdt.LineID l).
  generalize (crdt.LineID <$> l). intros ids.
  induction ids as [|x ids IH]; [done|]. cbn [remove_dups].
  case_decide; cbn [length]; lia.
Qed.

(** The ops of the compacting branch, before the floor is looked at. *)
Lemma compacted_spec cfg now l :
  let c := sortOps (concat ((λ k, compact_line cfg now (line_history l k)) <$> line_keys l)) in
  NoDup (crdt.LineID <$> c) ∧ (length c ≤ length l)%nat ∧
  ∀ op, op ∈ c →
    op ∈ l ∧ ∀ op', op' ∈ l → crdt.LineID op' = crdt.LineID op →
                    crdt.LessThan op op' = false.
Proof.
  intros c. subst c. unfold sortOps.
  destruct (compacted_lines cfg now l (line_keys l)) as [Hsub Hops]. cbn zeta in *.
  split; [|split].
  - rewrite slice_sort_perm. eapply sublist_NoDup; [|exact Hsub].
    apply NoDup_remove_dups.
  - rewrite slice_sort_perm. apply sublist_length in Hsub.
    rewrite length_fmap in Hsub. pose proof (length_line_keys l). lia.
  - intros op Hop. rewrite slice_sort_perm in Hop. by apply Hops.
Qed.

(** Only Inserts make entries, and the entries stay Inserts. *)
Lemma Apply_entries_Insert r op :
  Forall (λ e, crdt.Typ (crdt.op_of e) = crdt.OpInsert) (crdt.ops r) →
  Forall (λ e, crdt.Typ (crdt.op_of e) = crdt.OpInsert) (crdt.ops (crdt.Apply r op).1).
Proof.
  intros Hr. unfold crdt.Apply. repeat case_bool_decide; cbn [fst crdt.ops]; try done.
  - rewrite slice_sort_perm. apply Forall_app. split; [done|]. by constructor.
  - destruct (crdt.update_first (crdt.ops r) (crdt.LineID op) (crdt.Content op))
      as [l'|] eqn:E; cbn [fst crdt.ops]; [|done].
    clear -Hr E. revert l' E. induction Hr as [|e l He Hl IH]; intros l' E; [done|].
    cbn [crdt.update_first] in E. case_bool_decide.
    + inversion E; subst l'. by constructor.
    + destruct (crdt.update_first l (crdt.LineID op) (crdt.Content op)) as [l0|];
        [|done]. inversion E; subst l'. constructor; [done|]. by apply IH.
Qed.

Lemma apply_all_entries_Insert l r :
  Forall (λ e, crdt.Typ (crdt.op_of e) = crdt.OpInsert) (crdt.ops r) →
  Forall (λ e, crdt.Typ (crdt.op_of e) = crdt.OpInsert) (crdt.ops (crdt.apply_all r l)).
Proof.
  revert r. induction l as [|op l IH]; intros r Hr; [done|].
  cbn [crdt.apply_all fold_left]. apply IH. by apply Apply_entries_Insert.
Qed.

Lemma apply_all_Inserts_no_tombstone l r :
  Forall (λ op, crdt.Typ op = crdt.OpInsert) l →
  crdt.tombstone (crdt.apply_all r l) = crdt.tombstone r.
Proof.
  revert r. induction l as [|op l IH]; intros r Hl; [done|].
  apply Forall_cons in Hl as [Hop Hl].
  cbn [crdt.apply_all fold_left]. fold (crdt.apply_all (crdt.Apply r op).1 l).
  rewrite IH by done. unfold crdt.Apply. by rewrite bool_decide_eq_true_2.
Qed.
(** One line in full: the op kept is a latest op of the history, and it
    is dropped exactly when it is a Delete older than the time to live. *)
Lemma compact_line_full cfg now h :
  h ≠ [] →
  ∃ op, op ∈ h ∧ (∀ op', op' ∈ h → crdt.LessThan op op' = false) ∧
        compact_line cfg now h
        = if bool_decide (crdt.Typ op = crdt.OpDelete)
             && bool_decide (TombstoneTTL cfg < Time_Sub now (crdt.Timestamp op))
          then [] else [op].
Proof.
  intros Hh. unfold compact_line.
  pose proof (slice_sort_perm _ crdt.LessThan h) as Hperm.
  pose proof (slice_sort_sorted _ crdt.LessThan h
                not_after_LessThan_trans not_after_LessThan_total) as Hsorted.
  fold (sortOps h) in Hperm, Hsorted.
  destruct (last (sortOps h)) as [finalOp|] eqn:E.
  - exists finalOp. apply last_Some in E as [l' Hl'].
    rewrite Hl' in Hperm, Hsorted. split; [|split; [|done]].
    + rewrite <- Hperm. apply elem_of_app. right. by apply list_elem_of_singleton.
    + intros op' Hop'. rewrite <- Hperm in Hop'.
      apply elem_of_app in Hop' as [Hop'|Hop'].
      * apply (StronglySorted_app_1_elem_of _ _ _ op' finalOp Hsorted Hop').
        by apply list_elem_of_singleton.
      * apply list_elem_of_singleton in Hop' as ->. apply LessThan_irrefl.
  - apply last_None in E. rewrite E in Hperm.
    apply Permutation_nil_l in Hperm. by destruct Hh.
Qed.

(** The lines that compaction keeps and the lines it drops. *)
Lemma compacted_complete cfg now l keys :
  let c := concat ((λ k, compact_line cfg now (line_history l k)) <$> keys) in
  (∀ op, op ∈ c →
     ¬ (crdt.Typ op = crdt.OpDelete ∧
        TombstoneTTL cfg < Time_Sub now (crdt.Timestamp op))) ∧
  (∀ op', op' ∈ l → crdt.LineID op' ∈ keys →
     crdt.LineID op' ∈ crdt.LineID <$> c ∨
     ∃ op, op ∈ l ∧ crdt.LineID op = crdt.LineID op' ∧
           (∀ op'', op'' ∈ l → crdt.LineID op'' = crdt.LineID op →
                    crdt.LessThan op op'' = false) ∧
           crdt.Typ op = crdt.OpDelete ∧
           TombstoneTTL cfg < Time_Sub now (crdt.Timestamp op)).
Proof.
  induction keys as [|k keys [IH1 IH2]]; cbn [fmap list_fmap concat]; cbn zeta.
  - split; [intros op Hop; by apply elem_of_nil in Hop|].
    intros op' _ Hk. by apply elem_of_nil in Hk.
  - assert (Hcase : line_history l k = [] ∨ line_history l k ≠ [])
      by (destruct (line_history l k); [by left|by right]).
    destruct Hcase as [Hnil|Hne].
    { assert (Hline : compact_line cfg now (line_history l k) = []).
      { rewrite Hnil. unfold compact_line.
        pose proof (slice_sort_perm _ crdt.LessThan (@nil crdt.Operation)) as Hperm.
        apply Permutation_nil_r in Hperm. unfold sortOps. by rewrite Hperm. }
      rewrite Hline. cbn [app]. split; [done|].
      intros op' Hop' Hk. apply elem_of_cons in Hk as [Hk|Hk]; [|by apply IH2].
      exfalso. assert (Hin : op' ∈ line_history l k).
      { unfold line_history. apply list_elem_of_filter. by split. }
      rewrite Hnil in Hin. by apply elem_of_nil in Hin. }
    destruct (compact_line_full cfg now (line_history l k) Hne)
      as (op & Hop & Hmax & ->).
    unfold line_history in Hop. apply list_elem_of_filter in Hop as [Hline Hop].
    assert (Hlatest : ∀ op'', op'' ∈ l → crdt.LineID op'' = crdt.LineID op →
                        crdt.LessThan op op'' = false).
    { intros op'' Hop'' Heq. apply Hmax. unfold line_history.
      apply list_elem_of_filter. split; [congruence|done]. }
    destruct (bool_decide (crdt.Typ op = crdt.OpDelete)
              && bool_decide (TombstoneTTL cfg < Time_Sub now (crdt.Timestamp op)))
      eqn:Hexp.
    + cbn [app]. split; [done|].
      intros op' Hop' Hk. apply elem_of_cons in Hk as [Hk|Hk]; [|by apply IH2].
      right. exists op. apply andb_true_iff in Hexp as [Ht Hage].
      apply bool_decide_eq_true in Ht, Hage.
      split; [done|]. split; [congruence|]. by repeat split.
    + cbn [app]. split.
      * intros op0 Hop0. apply elem_of_cons in Hop0 as [->|Hop0]; [|by apply IH1].
        intros [Ht Hage]. apply andb_false_iff in Hexp as [Hexp|Hexp];
          apply bool_decide_eq_false in Hexp; by apply Hexp.
      * intros op' Hop' Hk. rewrite fmap_cons.
        apply elem_of_cons in Hk as [Hk|Hk].
        -- left. apply elem_of_cons. left. congruence.
        -- destruct (IH2 op' Hop' Hk) as [Hin|Hdrop]; [|by right].
           left. apply elem_of_cons. by right.
Qed.

Lemma CompactOperations_sound_aux now l cfg out :
  CompactOperations now l cfg = Some out →
  (length out ≤ length l)%nat ∧ ∀ op, op ∈ out → op ∈ l.
Proof.
  unfold CompactOperations.
  destruct (compacted_spec cfg now l) as (_ & Hlen & Hops). cbn zeta in *.
  case_bool_decide as Hmax; [by intros [= <-]|].
  case_bool_decide as Hmin.
  - case_bool_decide as Hfloor; [|done]. intros [= <-].
    split; [rewrite length_take; lia|].
    intros op Hop. apply elem_of_take in Hop as (i & Hi & _).
    by eapply list_elem_of_lookup_2.
  - intros [= <-]. split; [done|]. intros op Hop. by apply Hops.
Qed.
End compaction.

(** X22: the result of [CompactOperations] never holds more ops than the
    log and only ops of the log. Below [MaxOps] it is the log itself.
    From [MaxOps] on it is computed from the list of the ops kept: sorted
    by [LessThan], one op for each line of the log whose latest op is
    not a Delete older than the time to live, that op being an op of
    the line that no op of the line is ordered after, and no op for the
    other lines. The result is that list, or, when the list is shorter
    than [MinOpsToKeep], the first [MinOpsToKeep] ops of the log. *)
Theorem CompactOperations_keeps_latest {S : SliceSort} {HS : SliceSortSpec S}
    (now : Time) (l : list crdt.Operation) (cfg : compact.Config)
    (out : list crdt.Operation) :
  compact.CompactOperations now l cfg = Some out →
  (length out ≤ length l)%nat ∧
  (∀ op, op ∈ out → op ∈ l) ∧
  (Z.of_nat (length l) < compact.MaxOps cfg → out = l) ∧
  (compact.MaxOps cfg ≤ Z.of_nat (length l) →
   ∃ kept,
     NoDup (crdt.LineID <$> kept) ∧
     StronglySorted (λ a b, crdt.LessThan b a = false) kept ∧
     (∀ op, op ∈ kept →
        op ∈ l ∧
        (∀ op', op' ∈ l → crdt.LineID op' = crdt.LineID op →
                crdt.LessThan op op' = false) ∧
        ¬ (crdt.Typ op = crdt.OpDelete ∧
           compact.TombstoneTTL cfg < compact.Time_Sub now (crdt.Timestamp op))) ∧
     (∀ op', op' ∈ l →
        crdt.LineID op' ∈ crdt.LineID <$> kept ∨
        ∃ op, op ∈ l ∧ crdt.LineID op = crdt.LineID op' ∧
              (∀ op'', op'' ∈ l → crdt.LineID op'' = crdt.LineID op →
                       crdt.LessThan op op'' = false) ∧
              crdt.Typ op = crdt.OpDelete ∧
              compact.TombstoneTTL cfg < compact.Time_Sub now (crdt.Timestamp op)) ∧
     out = if bool_decide (Z.of_nat (length kept) < compact.MinOpsToKeep cfg)
           then take (Z.to_nat (compact.MinOpsToKeep cfg)) l
           else kept).
Proof.
  intros Hout.
  destruct (CompactOperations_sound_aux now l cfg out Hout) as [Hlen Hsub].
  split; [done|]. split; [done|].
  unfold compact.CompactOperations in Hout.
  case_bool_decide as Hmax.
  { split; [intros _; congruence|]. intros Hge. lia. }
  split; [intros Hlt; lia|]. intros _.
  destruct (compacted_spec cfg now l) as (Hnodup & _ & Hops).
  destruct (compacted_complete cfg now l (compact.line_keys l)) as [Hlive Hall].
  cbn zeta in *.
  exists (compact.sortOps
            (concat ((λ k, compact.compact_line cfg now (compact.line_history l k))
                       <$> compact.line_keys l))).
  split; [done|]. split.
  { apply (slice_sort_sorted _ crdt.LessThan);
      [apply not_after_LessThan_trans|apply not_after_LessThan_total]. }
  split.
  { intros op Hop. destruct (Hops op Hop) as [Hin Hlatest].
    split; [done|]. split; [done|]. apply Hlive.
    unfold compact.sortOps in Hop. by rewrite slice_sort_perm in Hop. }
  split.
  { intros op' Hop'.
    destruct (Hall op' Hop') as [Hin|Hdrop]; [|left|by right].
    - unfold compact.line_keys. apply elem_of_remove_dups, list_elem_of_fmap.
      by exists op'.
    - unfold compact.sortOps. by rewrite slice_sort_perm. }
  case_bool_decide as Hmin; [|congruence].
  case_bool_decide as Hfloor; [congruence|done].
Qed.

(** The log of the compaction test of the repository, a line inserted
    and then updated, under the configuration of that test. *)
Lemma CompactOperations_keeps_latest_witness :
  (length [sample.upd_b] ≤ length [sample.ins_a; sample.upd_b])%nat ∧
  (∀ op, op ∈ [sample.upd_b] → op ∈ [sample.ins_a; sample.upd_b]) ∧
  (Z.of_nat (length [sample.ins_a; sample.upd_b]) < compact.MaxOps sample.test_config →
   [sample.upd_b] = [sample.ins_a; sample.upd_b]) ∧
  (compact.MaxOps sample.test_config ≤ Z.of_nat (length [sample.ins_a; sample.upd_b]) →
   ∃ kept,
     NoDup (crdt.LineID <$> kept) ∧
     StronglySorted (λ a b, crdt.LessThan b a = false) kept ∧
     (∀ op, op ∈ kept →
        op ∈ [sample.ins_a; sample.upd_b] ∧
        (∀ op', op' ∈ [sample.ins_a; sample.upd_b] → crdt.LineID op' = crdt.LineID op →
                crdt.LessThan op op' = false) ∧
        ¬ (crdt.Typ op = crdt.OpDelete ∧
           compact.TombstoneTTL sample.test_config
           < compact.Time_Sub 1000 (crdt.Timestamp op))) ∧
     (∀ op', op' ∈ [sample.ins_a; sample.upd_b] →
        crdt.LineID op' ∈ crdt.LineID <$> kept ∨
        ∃ op, op ∈ [sample.ins_a; sample.upd_b] ∧ crdt.LineID op = crdt.LineID op' ∧
              (∀ op'', op'' ∈ [sample.ins_a; sample.upd_b] →
                       crdt.LineID op'' = crdt.LineID op →
                       crdt.LessThan op op'' = false) ∧
              crdt.Typ op = crdt.OpDelete ∧
              compact.TombstoneTTL sample.test_config
              < compact.Time_Sub 1000 (crdt.Timestamp op)) ∧
     [sample.upd_b]
     = if bool_decide (Z.of_nat (length kept) < compact.MinOpsToKeep sample.test_config)
       then take (Z.to_nat (compact.MinOpsToKeep sample.test_config))
              [sample.ins_a; sample.upd_b]
       else kept).
Proof.
  apply (CompactOperations_keeps_latest (S:=merge_slice_sort) 1000
           [sample.ins_a; sample.upd_b] sample.test_config [sample.upd_b]).
  vm_compute. reflexivity.
Defined.

(** X23: a log that has reached [MaxOps] but is shorter than
    [MinOpsToKeep] makes [CompactOperations] slice the log beyond its
    length, the run-time panic of Go (for a slice whose capacity is its
    length); [CompactRGA] on such a document panics with it. *)
Theorem CompactOperations_floor_panics {S : SliceSort} {HS : SliceSortSpec S}
    (now : Time) (l : list crdt.Operation) (cfg : compact.Config) (rga : crdt.RGA) :
  compact.MaxOps cfg ≤ Z.of_nat (length l) < compact.MinOpsToKeep cfg →
  compact.CompactOperations now l cfg = None ∧
  (crdt.GetOperations rga = l → compact.CompactRGA now rga cfg = None).
Proof.
  intros [Hmax Hmin].
  assert (Hnone : compact.CompactOperations now l cfg = None).
  { unfold compact.CompactOperations.
    destruct (compacted_spec cfg now l) as (_ & Hlen & _). cbn zeta in *.
    rewrite (bool_decide_eq_false_2 (Z.of_nat (length l) < compact.MaxOps cfg)) by lia.
    rewrite bool_decide_eq_true_2 by lia.
    by rewrite (bool_decide_eq_false_2 (compact.MinOpsToKeep cfg ≤ Z.of_nat (length l)))
      by lia. }
  split; [done|]. intros Hops. unfold compact.CompactRGA. by rewrite Hops, Hnone.
Qed.

(** Two ops under a configuration that compacts from two ops on and
    keeps at least three. *)
Lemma CompactOperations_floor_panics_witness :
  compact.CompactOperations 1000 [sample.ins_a; sample.ins_y]
    (compact.mkConfig 2 1000 3 1000) = None ∧
  (crdt.GetOperations (crdt.apply_all crdt.NewRGA [sample.ins_a; sample.ins_y])
     = [sample.ins_a; sample.ins_y] →
   compact.CompactRGA 1000 (crdt.apply_all crdt.NewRGA [sample.ins_a; sample.ins_y])
     (compact.mkConfig 2 1000 3 1000) = None).
Proof.
  apply (CompactOperations_floor_panics (S:=merge_slice_sort) 1000
           [sample.ins_a; sample.ins_y] (compact.mkConfig 2 1000 3 1000)
           (crdt.apply_all crdt.NewRGA [sample.ins_a; sample.ins_y])).
  vm_compute. split; [intros ?; discriminate|reflexivity].
Defined.

(** X24: [CompactRGA] forgets every deletion: for a document built by
    applying ops to an empty RGA, the compacted RGA has no tombstone, so
    every entry it keeps is a live line again, deleted or not. *)
Theorem CompactRGA_has_no_tombstone {S : SliceSort} {HS : SliceSortSpec S}
    (now : Time) (l : list crdt.Operation) (cfg : compact.Config) (rga' : crdt.RGA) :
  compact.CompactRGA now (crdt.apply_all crdt.NewRGA l) cfg = Some rga' →
  crdt.tombstone rga' = ∅ ∧
  crdt.GetLineIDs rga' = (λ e, crdt.LineID (crdt.op_of e)) <$> crdt.ops rga' ∧
  crdt.Materialize rga' = (λ e, crdt.Content (crdt.op_of e)) <$> crdt.ops rga'.
Proof.
  unfold compact.CompactRGA.
  destruct (compact.CompactOperations now
              (crdt.GetOperations (crdt.apply_all crdt.NewRGA l)) cfg)
    as [compacted|] eqn:E; [|done].
  cbn [mbind option_bind]. intros [= <-].
  assert (Hins : Forall (λ op, crdt.Typ op = crdt.OpInsert) compacted).
  { apply Forall_forall. intros op Hop.
    destruct (CompactOperations_sound_aux now _ cfg compacted E) as [_ Hsub].
    apply Hsub in Hop. unfold crdt.GetOperations in Hop.
    apply list_elem_of_fmap in Hop as (e & -> & He).
    pose proof (apply_all_entries_Insert l crdt.NewRGA (Forall_nil_2 _)) as Hall.
    rewrite Forall_forall in Hall. by apply Hall. }
  assert (Htomb : crdt.tombstone (crdt.apply_all crdt.NewRGA compacted) = ∅).
  { by rewrite apply_all_Inserts_no_tombstone. }
  split; [done|].
  assert (Hlive : crdt.live (crdt.apply_all crdt.NewRGA compacted)
                  = crdt.ops (crdt.apply_all crdt.NewRGA compacted)).
  { unfold crdt.live. apply filter_all. apply Forall_forall. intros e _.
    unfold crdt.tombstoned. by rewrite Htomb, lookup_empty. }
  unfold crdt.GetLineIDs, crdt.Materialize. by rewrite Hlive.
Qed.

(** The document of the line L1 inserted and then deleted. *)
Lemma CompactRGA_has_no_tombstone_witness :
  crdt.tombstone (crdt.apply_all crdt.NewRGA [sample.ins_a]) = ∅ ∧
  crdt.GetLineIDs (crdt.apply_all crdt.NewRGA [sample.ins_a])
    = (λ e, crdt.LineID (crdt.op_of e))
        <$> crdt.ops (crdt.apply_all crdt.NewRGA [sample.ins_a]) ∧
  crdt.Materialize (crdt.apply_all crdt.NewRGA [sample.ins_a])
    = (λ e, crdt.Content (crdt.op_of e))
        <$> crdt.ops (crdt.apply_all crdt.NewRGA [sample.ins_a]).
Proof.
  apply (CompactRGA_has_no_tombstone (S:=merge_slice_sort) 1000
           [sample.ins_a; sample.del_L1] sample.test_config
           (crdt.apply_all crdt.NewRGA [sample.ins_a])).
  vm_compute. reflexivity.
Defined.

(** ** [dirOf] *)

Section dirOf_props.
Import ops.

Lemma substring_prefix (p s : string) : substring 0 (String.length p) (p +:+ s) = p.
Proof.
  induction p as [|c p IH]; simpl.
  - by destruct s.
  - f_equal. exact IH.
Qed.

Lemma get_append_r (p s : string) (i : nat) :
  String.get (String.length p + i) (p +:+ s) = String.get i s.
Proof. rewrite Nat.add_comm. symmetry. apply append_correct2. Qed.

(** The loop, started above characters that are no separators, walks
    down to where they begin. *)
Lemma dirOf_loop_skip (p name : string) (n : nat) :
  (n ≤ String.length name)%nat →
  (∀ i c, String.get i name = Some c → is_separator c = false) →
  dirOf_loop (String.length p + n) (p +:+ name) = dirOf_loop (String.length p) (p +:+ name).
Proof.
  intros Hn Hname. induction n as [|n IH]; [by rewrite Nat.add_0_r|].
  rewrite Nat.add_succ_r. cbn [dirOf_loop]. rewrite get_append_r.
  destruct (String.get n name) as [c|] eqn:E.
  - rewrite (Hname n c E). apply IH. lia.
  - apply IH. lia.
Qed.

Lemma length_append (a b : string) :
  String.length (a +:+ b) = (String.length a + String.length b)%nat.
Proof. induction a as [|c a IH]; simpl; [done|]. f_equal. exact IH. Qed.

Lemma append_assoc_string (a b c : string) : a +:+ (b +:+ c) = (a +:+ b) +:+ c.
Proof.
  induction a as [|x a IH]; [done|].
  change (String x (a +:+ (b +:+ c)) = String x ((a +:+ b) +:+ c)). by rewrite IH.
Qed.
End dirOf_props.

(** X25: [dirOf] cuts a path at its last slash or backslash: for a name
    without separator, the directory of [dir/name] (or [dir\name]) is
    [dir], the empty string when [dir] is empty, and the directory of
    the bare name is ".". *)
Theorem dirOf_splits (dir name : string) (sep : ascii) :
  (∀ i c, String.get i name = Some c → ops.is_separator c = false) →
  ops.is_separator sep = true →
  ops.dirOf (dir +:+ String sep name) = dir ∧ ops.dirOf name = ".".
Proof.
  intros Hname Hsep. unfold ops.dirOf. split.
  - rewrite length_append. cbn [String.length]. rewrite Nat.add_succ_r.
    change (dir +:+ String sep name) with (dir +:+ (String sep EmptyString +:+ name)).
    pose proof (append_assoc_string dir (String sep EmptyString) name) as Hassoc.
    rewrite Hassoc.
    replace (Datatypes.S (String.length dir + String.length name))
      with (String.length (dir +:+ String sep EmptyString) + String.length name)%nat
      by (rewrite length_append; cbn [String.length]; lia).
    rewrite dirOf_loop_skip by done.
    rewrite length_append. cbn [String.length]. rewrite Nat.add_1_r.
    cbn [ops.dirOf_loop]. rewrite <- Hassoc.
    rewrite <- (Nat.add_0_r (String.length dir)) at 1.
    rewrite get_append_r.
    change (String.get 0 (String sep EmptyString +:+ name)) with (Some sep).
    cbn match. rewrite Hsep.
    apply substring_prefix.
  - pose proof (dirOf_loop_skip EmptyString name (String.length name)
                  (Nat.le_refl _) Hname) as Hskip.
    cbn [String.length String.append Nat.add] in Hskip. exact Hskip.
Qed.

(** The path of an op log, [ops/main/f.bin]. *)
Lemma dirOf_splits_witness :
  ops.dirOf ("ops/main" +:+ String "/" "f.bin") = "ops/main" ∧ ops.dirOf "f.bin" = ".".
Proof.
  apply (dirOf_splits "ops/main" "f.bin" "/").
  - intros i c Hc.
    do 5 (destruct i as [|i]; [inversion Hc; subst c; reflexivity|]).
    discriminate Hc.
  - reflexivity.
Defined.

(** ** Convergence of replicas *)

Section convergence.
Context {S : SliceSort} {HS : SliceSortSpec S}.

(** Two sorted arrangements of the same elements are the same list when
    only equal elements tie. *)
Lemma sorted_perm_unique {A} (R : relation A) (l1 : list A) : ∀ l2,
  StronglySorted R l1 → StronglySorted R l2 → l1 ≡ₚ l2 →
  (∀ a b, a ∈ l1 → b ∈ l1 → R a b → R b a → a = b) →
  l1 = l2.
Proof.
  induction l1 as [|x l1 IH]; intros l2 Hs1 Hs2 Hperm Htie.
  - by apply Permutation_nil_l in Hperm.
  - destruct l2 as [|y l2]; [by apply Permutation_nil_r in Hperm|].
    apply StronglySorted_inv in Hs1 as [Hs1 Hx].
    apply StronglySorted_inv in Hs2 as [Hs2 Hy].
    assert (Hxy : x = y).
    { assert (Hyin : y ∈ x :: l1) by (rewrite Hperm; by left).
      assert (Hxin : x ∈ y :: l2) by (rewrite <- Hperm; by left).
      apply elem_of_cons in Hyin as [Hyx|Hyin]; [done|].
      apply elem_of_cons in Hxin as [Hxy|Hxin]; [done|].
      rewrite Forall_forall in Hx, Hy.
      apply Htie; [by left|by right|by apply Hx|by apply Hy]. }
    subst y. f_equal. apply Permutation_cons_inv in Hperm.
    apply IH; [done..|]. intros a b Ha Hb. apply Htie; by right.
Qed.

Lemma filter_fmap {A B} (f : A → B) (P : B → Prop) `{∀ x, Decision (P x)} (l : list A) :
  filter P (f <$> l) = f <$> filter (λ x, P (f x)) l.
Proof.
  induction l as [|x l IH]; [done|].
  rewrite fmap_cons, !filter_cons, IH. by destruct (decide (P (f x))).
Qed.

(** The document is a function of the ops of the entries and of the
    tombstoned lines. *)
Lemma Materialize_by_ops r :
  crdt.Materialize r
  = crdt.Content <$> filter (λ op, crdt.tombstoned r (crdt.LineID op) = false)
                       (crdt.op_of <$> crdt.ops r) ∧
  crdt.GetLineIDs r
  = crdt.LineID <$> filter (λ op, crdt.tombstoned r (crdt.LineID op) = false)
                      (crdt.op_of <$> crdt.ops r).
Proof.
  unfold crdt.Materialize, crdt.GetLineIDs, crdt.live.
  by rewrite filter_fmap, <- !list_fmap_compose.
Qed.

(** The state after a run of Inserts and Deletes. *)
Lemma apply_all_ins_del l : ∀ r,
  Forall (λ op, crdt.Typ op = crdt.OpInsert ∨ crdt.Typ op = crdt.OpDelete) l →
  crdt.op_of <$> crdt.ops (crdt.apply_all r l)
    ≡ₚ (crdt.op_of <$> crdt.ops r) ++ filter (λ op, crdt.Typ op = crdt.OpInsert) l ∧
  (StronglySorted (not_after crdt.LessThan) (crdt.op_of <$> crdt.ops r) →
   StronglySorted (not_after crdt.LessThan)
     (crdt.op_of <$> crdt.ops (crdt.apply_all r l))) ∧
  (∀ line, crdt.tombstoned (crdt.apply_all r l) line = true ↔
           crdt.tombstoned r line = true ∨
           ∃ op, op ∈ l ∧ crdt.Typ op = crdt.OpDelete ∧
                 UUID_String (crdt.LineID op) = UUID_String line).
Proof.
  induction l as [|op l IH]; intros r Hl.
  - cbn [crdt.apply_all fold_left]. rewrite filter_nil, app_nil_r.
    split; [done|]. split; [done|]. intros line. split; [by left|].
    intros [?|(op & Hop & _)]; [done|]. by apply elem_of_nil in Hop.
  - apply Forall_cons in Hl as [Hop Hl].
    cbn [crdt.apply_all fold_left]. fold (crdt.apply_all (crdt.Apply r op).1 l).
    destruct (IH (crdt.Apply r op).1 Hl) as (IH1 & IH2 & IH3).
    rewrite filter_cons. unfold crdt.Apply in *.
    destruct (decide (crdt.Typ op = crdt.OpInsert)) as [Hi|Hi].
    + rewrite (bool_decide_eq_true_2 _ Hi) in *. cbn [fst crdt.ops crdt.tombstone] in *.
      split; [|split].
      * rewrite IH1, slice_sort_perm, fmap_app. cbn [fmap list_fmap crdt.op_of].
        by rewrite <- app_assoc.
      * intros _. apply IH2.
        apply (StronglySorted_fmap crdt.op_of
                 (not_after (λ a b, crdt.LessThan (crdt.op_of a) (crdt.op_of b)))).
        { done. }
        apply slice_sort_sorted; [apply not_after_entries_trans|apply not_after_entries_total].
      * intros line. rewrite IH3. unfold crdt.tombstoned. cbn [crdt.tombstone].
        split; (intros [Ht|(op' & Hop' & Hd & Hline)]; [by left|right]).
        -- exists op'. split; [by right|done].
        -- exists op'. split; [|done].
           apply elem_of_cons in Hop' as [->|Hop']; [|done].
           rewrite Hi in Hd. discriminate Hd.
    + destruct Hop as [Hop|Hd]; [done|].
      rewrite (bool_decide_eq_false_2 _ Hi), (bool_decide_eq_true_2 _ Hd) in *.
      cbn [fst crdt.ops crdt.tombstone] in *.
      split; [done|]. split; [done|].
      intros line. rewrite IH3. unfold crdt.tombstoned. cbn [crdt.tombstone].
      rewrite lookup_insert. split.
      * intros [Ht|(op' & Hop' & Hd' & Hline)].
        -- case_decide as Hkey; [|by left]. right. exists op. split; [by left|done].
        -- right. exists op'. split; [by right|done].
      * intros [Ht|(op' & Hop' & Hd' & Hline)].
        -- left. case_decide; [done|done].
        -- apply elem_of_cons in Hop' as [->|Hop'].
           ++ left. by rewrite decide_True.
           ++ right. by exists op'.
Qed.
End convergence.

(** X26: replicas converge on Inserts and Deletes: two RGAs that start
    empty and are given the same Inserts and Deletes, in any two orders,
    show the same document and the same live line ids, provided no two
    different Inserts tie in the order (same lamport and same printed
    node id). *)
Theorem replicas_converge {S : SliceSort} {HS : SliceSortSpec S}
    (l1 l2 : list crdt.Operation) :
  l1 ≡ₚ l2 →
  Forall (λ op, crdt.Typ op = crdt.OpInsert ∨ crdt.Typ op = crdt.OpDelete) l1 →
  (∀ a b, a ∈ l1 → b ∈ l1 → crdt.Typ a = crdt.OpInsert → crdt.Typ b = crdt.OpInsert →
          crdt.LessThan a b = false → crdt.LessThan b a = false → a = b) →
  crdt.Materialize (crdt.apply_all crdt.NewRGA l1)
    = crdt.Materialize (crdt.apply_all crdt.NewRGA l2) ∧
  crdt.GetLineIDs (crdt.apply_all crdt.NewRGA l1)
    = crdt.GetLineIDs (crdt.apply_all crdt.NewRGA l2).
Proof.
  intros Hperm Hl1 Htie.
  assert (Hl2 : Forall (λ op, crdt.Typ op = crdt.OpInsert ∨ crdt.Typ op = crdt.OpDelete) l2)
    by (by rewrite <- Hperm).
  destruct (apply_all_ins_del l1 crdt.NewRGA Hl1) as (Hp1 & Hs1 & Ht1).
  destruct (apply_all_ins_del l2 crdt.NewRGA Hl2) as (Hp2 & Hs2 & Ht2).
  cbn [crdt.NewRGA crdt.ops fmap list_fmap app] in Hp1, Hp2, Hs1, Hs2.
  specialize (Hs1 (SSorted_nil _)). specialize (Hs2 (SSorted_nil _)).
  assert (Hops : crdt.op_of <$> crdt.ops (crdt.apply_all crdt.NewRGA l1)
                 = crdt.op_of <$> crdt.ops (crdt.apply_all crdt.NewRGA l2)).
  { apply (sorted_perm_unique (not_after crdt.LessThan)); [done|done| |].
    - by rewrite Hp1, Hp2, Hperm.
    - intros a b Ha Hb Hab Hba. rewrite Hp1 in Ha, Hb.
      apply list_elem_of_filter in Ha as [Hai Ha].
      apply list_elem_of_filter in Hb as [Hbi Hb].
      by apply Htie. }
  assert (Htomb : ∀ line, crdt.tombstoned (crdt.apply_all crdt.NewRGA l1) line
                          = crdt.tombstoned (crdt.apply_all crdt.NewRGA l2) line).
  { intros line. apply eq_true_iff_eq. rewrite Ht1, Ht2.
    split; (intros [Ht|(op & Hop & Hrest)]; [by left|right; exists op; split; [|done]]).
    - by rewrite <- Hperm.
    - by rewrite Hperm. }
  destruct (Materialize_by_ops (crdt.apply_all crdt.NewRGA l1)) as [-> ->].
  destruct (Materialize_by_ops (crdt.apply_all crdt.NewRGA l2)) as [-> ->].
  rewrite Hops.
  rewrite (list_filter_iff _
             (λ op, crdt.tombstoned (crdt.apply_all crdt.NewRGA l2) (crdt.LineID op) = false));
    [done|]. intros op. by rewrite Htomb.
Qed.

(** Lines L1 and L2 inserted and L1 deleted, received in two orders. *)
Lemma replicas_converge_witness :
  crdt.Materialize (crdt.apply_all crdt.NewRGA [sample.ins_a; sample.ins_y; sample.del_L1])
    = crdt.Materialize (crdt.apply_all crdt.NewRGA [sample.del_L1; sample.ins_y; sample.ins_a]) ∧
  crdt.GetLineIDs (crdt.apply_all crdt.NewRGA [sample.ins_a; sample.ins_y; sample.del_L1])
    = crdt.GetLineIDs (crdt.apply_all crdt.NewRGA [sample.del_L1; sample.ins_y; sample.ins_a]).
Proof.
  apply (replicas_converge (S:=merge_slice_sort)
           [sample.ins_a; sample.ins_y; sample.del_L1]
           [sample.del_L1; sample.ins_y; sample.ins_a]).
  - symmetry. exact (reverse_Permutation [sample.ins_a; sample.ins_y; sample.del_L1]).
  - repeat constructor; by right.
  - intros a b Ha Hb Hta Htb Hab Hba.
    repeat (apply elem_of_cons in Ha as [->|Ha]);
      repeat (apply elem_of_cons in Hb as [->|Hb]);
      try (by apply elem_of_nil in Ha); try (by apply elem_of_nil in Hb);
      try reflexivity; try discriminate Hta; try discriminate Htb;
      vm_compute in Hab; vm_compute in Hba; try discriminate Hab; discriminate Hba.
Defined.

(** ** Ingest of edits made in place *)

Section in_place.
Context {S : SliceSort}.
Import crdt.

#[local] Abbreviation line_ids l := ((λ e, LineID (op_of e)) <$> l).

(** An Update of a live line of a document whose entries have distinct
    line ids overwrites that line and nothing else. *)
Lemma Apply_Update_live r op j :
  NoDup (line_ids (ops r)) →
  GetLineIDs r !! j = Some (LineID op) → Typ op = OpUpdate →
  (Apply r op).2 = None ∧
  line_ids (ops (Apply r op).1) = line_ids (ops r) ∧
  GetLineIDs (Apply r op).1 = GetLineIDs r ∧
  Materialize (Apply r op).1 = <[j := Content op]> (Materialize r).
Proof.
  intros Hnodup Hj Hu.
  assert (Hin : LineID op ∈ line_ids (ops r)).
  { apply list_elem_of_lookup_2 in Hj. unfold GetLineIDs, live in Hj.
    apply list_elem_of_fmap in Hj as (e & He & Hlive).
    apply list_elem_of_filter in Hlive as [_ Hlive].
    apply list_elem_of_fmap. by exists e. }
  destruct (update_first_found _ _ (Content op) Hin)
    as (pre & e & post & Hops & He & Hpre & Hupd).
  unfold Apply.
  rewrite (bool_decide_eq_false_2 (Typ op = OpInsert)) by (rewrite Hu; discriminate).
  rewrite (bool_decide_eq_false_2 (Typ op = OpDelete)) by (rewrite Hu; discriminate).
  rewrite (bool_decide_eq_true_2 _ Hu), Hupd. cbn [fst snd].
  rewrite Hops in Hnodup. rewrite fmap_app, fmap_cons in Hnodup.
  apply NoDup_app in Hnodup as (_ & _ & Hnodup).
  apply NoDup_cons in Hnodup as [Hpost _]. rewrite He in Hpost.
  unfold GetLineIDs, Materialize, live, tombstoned in *. cbn [ops tombstone].
  rewrite Hops in Hj |- *.
  rewrite !filter_app, !filter_cons, !fmap_app in *.
  rewrite LineID_set_Content.
  set (P := λ x : RGAOperation,
              default false (tombstone r !! UUID_String (LineID (op_of x))) = false) in *.
  assert (Hnpre : LineID op ∉ line_ids (filter P pre)).
  { intros Hx. apply list_elem_of_fmap in Hx as (x & Hx & Hxin).
    apply list_elem_of_filter in Hxin as [_ Hxin].
    rewrite Forall_forall in Hpre. by apply (Hpre x Hxin). }
  assert (Hnpost : LineID op ∉ line_ids (filter P post)).
  { intros Hx. apply list_elem_of_fmap in Hx as (x & Hx & Hxin).
    apply list_elem_of_filter in Hxin as [_ Hxin].
    apply Hpost. apply list_elem_of_fmap. by exists x. }
  apply lookup_app_Some in Hj as [Hj|[Hlen Hj]].
  { exfalso. apply Hnpre. by eapply list_elem_of_lookup_2. }
  destruct (decide (default false (tombstone r !! UUID_String (LineID (op_of e))) = false))
    as [HPe|HPe].
  2: { exfalso. apply Hnpost. by eapply list_elem_of_lookup_2. }
  rewrite fmap_cons in Hj.
  destruct (j - length (line_ids (filter P pre)))%nat as [|j'] eqn:Ej.
  2: { exfalso. apply Hnpost. cbn [lookup list_lookup] in Hj.
       by eapply list_elem_of_lookup_2. }
  rewrite length_fmap in Hlen, Ej.
  split; [done|]. split; [reflexivity|]. split; [reflexivity|].
  rewrite !fmap_cons. cbn [op_of set_Content Content app].
  rewrite insert_app_r_alt by (rewrite length_fmap; lia).
  rewrite length_fmap, Ej. done.
Qed.

Lemma take_agree (a b : list string) (p : nat) :
  (p ≤ length a)%nat → (p ≤ length b)%nat →
  (∀ i, (i < p)%nat → a !!! i = b !!! i) → take p a = take p b.
Proof.
  intros Ha Hb Hi. apply list_eq. intros i.
  destruct (decide (i < p)%nat) as [Hlt|Hge].
  - rewrite !lookup_take_lt by done.
    rewrite !list_lookup_lookup_total_lt by lia. f_equal. by apply Hi.
  - rewrite !lookup_take_ge by lia. done.
Qed.

Lemma take_drop_step (a b : list string) (k : nat) :
  (k < length a)%nat → (k < length b)%nat →
  take (Datatypes.S k) b ++ drop (Datatypes.S k) a
  = <[k := b !!! k]> (take k b ++ drop k a).
Proof.
  intros Ha Hb.
  destruct (lookup_lt_is_Some_2 a k Ha) as [x Hx].
  destruct (lookup_lt_is_Some_2 b k Hb) as [y Hy].
  rewrite insert_app_r_alt by (rewrite length_take; lia).
  rewrite length_take, Nat.min_l, Nat.sub_diag by lia.
  rewrite (drop_S _ _ _ Hx). cbn [insert list_insert].
  rewrite (take_S_r _ _ _ Hy), <- app_assoc.
  by rewrite (list_lookup_total_correct _ _ _ Hy).
Qed.

Lemma take_drop_same (a b : list string) (k : nat) :
  (k < length a)%nat → (k < length b)%nat → a !!! k = b !!! k →
  take (Datatypes.S k) b ++ drop (Datatypes.S k) a = take k b ++ drop k a.
Proof.
  intros Ha Hb Heq.
  destruct (lookup_lt_is_Some_2 a k Ha) as [x Hx].
  destruct (lookup_lt_is_Some_2 b k Hb) as [y Hy].
  rewrite (drop_S _ _ _ Hx), (take_S_r _ _ _ Hy), <- app_assoc.
  rewrite (list_lookup_total_correct _ _ _ Hx),
          (list_lookup_total_correct _ _ _ Hy) in Heq. by subst y.
Qed.

(** The first loop of the differ, replayed on the document it was
    computed from. *)
Lemma update_ops_replay env stream fileID (doc : RGA) (disk docMid diskMid : list string)
    (p : nat) :
  NoDup (line_ids (ops doc)) →
  length disk = length (Materialize doc) →
  (∀ i, (i < p)%nat → Materialize doc !!! i = disk !!! i) →
  (p ≤ length disk)%nat →
  (∀ i, (i < length docMid `min` length diskMid)%nat →
        (p + i < length disk)%nat ∧
        docMid !!! i = Materialize doc !!! (p + i)%nat ∧
        diskMid !!! i = disk !!! (p + i)%nat) →
  ∀ k, (k ≤ length docMid `min` length diskMid)%nat →
    line_ids (ops (apply_all doc
       (seq 0 k ≫= λ i,
          if bool_decide (docMid !!! i ≠ diskMid !!! i) then
            [mkOperation OpUpdate (wrap64 (ops.lamport0 env + Z.of_nat i))
               (ops.env_uuid env 0) fileID (GetLineIDs doc !!! (p + i)%nat)
               (diskMid !!! i) stream (ops.env_Now env) []]
          else []))) = line_ids (ops doc) ∧
    GetLineIDs (apply_all doc
       (seq 0 k ≫= λ i,
          if bool_decide (docMid !!! i ≠ diskMid !!! i) then
            [mkOperation OpUpdate (wrap64 (ops.lamport0 env + Z.of_nat i))
               (ops.env_uuid env 0) fileID (GetLineIDs doc !!! (p + i)%nat)
               (diskMid !!! i) stream (ops.env_Now env) []]
          else [])) = GetLineIDs doc ∧
    Materialize (apply_all doc
       (seq 0 k ≫= λ i,
          if bool_decide (docMid !!! i ≠ diskMid !!! i) then
            [mkOperation OpUpdate (wrap64 (ops.lamport0 env + Z.of_nat i))
               (ops.env_uuid env 0) fileID (GetLineIDs doc !!! (p + i)%nat)
               (diskMid !!! i) stream (ops.env_Now env) []]
          else []))
    = take (p + k) disk ++ drop (p + k) (Materialize doc).
Proof.
  intros Hnodup Hlen Hpre Hp Hmid k. induction k as [|k IH]; intros Hk.
  - cbn [seq mbind list_bind apply_all fold_left]. rewrite Nat.add_0_r.
    split; [done|]. split; [done|].
    rewrite <- (take_agree (Materialize doc) disk p) by (try done; lia).
    by rewrite take_drop.
  - destruct IH as (IH1 & IH2 & IH3); [lia|].
    destruct (Hmid k) as (Hpk & Hdoc & Hdisk); [lia|].
    rewrite seq_S, bind_app, apply_all_app. cbn [Nat.add].
    rewrite bind_cons. cbn [mbind list_bind]. rewrite app_nil_r, Nat.add_succ_r.
    case_bool_decide as Hdiff.
    + cbn [apply_all fold_left].
      match goal with |- context [Apply ?r ?op] =>
        destruct (Apply_Update_live r op (p + k)%nat) as (_ & H1 & H2 & H3) end.
      * by rewrite IH1.
      * rewrite IH2. cbn [LineID]. apply list_lookup_lookup_total_lt.
        unfold GetLineIDs. rewrite length_fmap.
        unfold Materialize in Hlen. rewrite length_fmap in Hlen. lia.
      * done.
      * rewrite H1, H2, H3, IH1, IH2, IH3. cbn [Content].
        split; [done|]. split; [done|].
        rewrite Hdisk. symmetry. apply take_drop_step; lia.
    + cbn [apply_all fold_left]. rewrite IH1, IH2, IH3.
      split; [done|]. split; [done|]. symmetry.
      apply take_drop_same; [lia|lia|].
      by rewrite <- Hdoc, <- Hdisk.
Qed.
End in_place.

(** X27: edits made in place are recorded faithfully: when the file has
    as many lines as the document and no two entries of the document
    share a line id, [processFile] appends only Updates, and replaying
    them on the document gives the lines of the file, with the same
    live line ids as before. *)
Theorem in_place_edits_converge {S : SliceSort}
    (env : ops.IngestEnv) (stream : string) (fileID : UUID)
    (opsFile : option (list byte)) (fsize : Z) (stored : option Z)
    (data : string) (doc : crdt.RGA) :
  fsize ≤ ops.readLargeThreshold →
  crdt.apply_strict crdt.NewRGA (ops.LoadAllOps opsFile).1 = inl doc →
  NoDup ((λ e, crdt.LineID (crdt.op_of e)) <$> crdt.ops doc) →
  length (ops.Split_LF (ops.ReplaceAll_CRLF data)) = length (crdt.Materialize doc) →
  ∃ emitted,
    (ops.processFile env stream (Some fileID) opsFile fsize stored data).2
      = ops.append_all opsFile emitted ∧
    Forall (λ op, crdt.Typ op = crdt.OpUpdate) emitted ∧
    crdt.Materialize (crdt.apply_all doc emitted)
      = ops.Split_LF (ops.ReplaceAll_CRLF data) ∧
    crdt.GetLineIDs (crdt.apply_all doc emitted) = crdt.GetLineIDs doc.
Proof.
  intros Hsize Hdoc Hnodup Hlen. unfold ops.processFile. rewrite Hdoc.
  rewrite bool_decide_eq_false_2 by lia.
  set (disk := ops.Split_LF (ops.ReplaceAll_CRLF data)) in *.
  destruct (ops.eqLines (crdt.Materialize doc) disk) eqn:Heq.
  { apply eqLines_true in Heq. exists []. by repeat split. }
  cbn [snd]. rewrite <- Hlen, Nat.min_id.
  destruct (prefix_loop_spec (crdt.Materialize doc) disk (length disk) (length disk) 0)
    as (_ & Hp & Hpre & _); [lia|].
  specialize (Hp (Nat.le_0_l _)).
  set (p := ops.prefix_loop (length disk) 0 (length disk) (crdt.Materialize doc) disk) in *.
  destruct (suffix_loop_spec (crdt.Materialize doc) disk (length disk - p) (length disk) 0)
    as (_ & Hs & Hsuf).
  specialize (Hs (Nat.le_0_l _)). rewrite <- Hlen in Hsuf.
  set (s := ops.suffix_loop (length disk) 0 (length disk - p) (crdt.Materialize doc) disk)
    in *.
  set (docMid := ops.slice p (length disk - s) (crdt.Materialize doc)).
  set (diskMid := ops.slice p (length disk - s) disk).
  assert (Hdm : length docMid = (length disk - s - p)%nat).
  { unfold docMid. rewrite length_slice; [done|]. rewrite <- Hlen. clear. lia. }
  assert (Hkm : length diskMid = (length disk - s - p)%nat).
  { unfold diskMid. rewrite length_slice; [done|]. clear. lia. }
  assert (Hmid : ∀ i, (i < length docMid `min` length diskMid)%nat →
            (p + i < length disk)%nat ∧
            docMid !!! i = crdt.Materialize doc !!! (p + i)%nat ∧
            diskMid !!! i = disk !!! (p + i)%nat).
  { intros i Hi. rewrite Hdm, Hkm, Nat.min_id in Hi.
    split; [clear -Hi; lia|]. unfold docMid, diskMid, ops.slice.
    by rewrite !lookup_total_take_lt, !lookup_total_drop by (clear -Hi; lia). }
  assert (Hdel : ops.delete_ops env stream fileID (crdt.GetLineIDs doc) p docMid diskMid = []).
  { unfold ops.delete_ops. by rewrite Hdm, Hkm, Nat.sub_diag. }
  assert (Hins : ops.insert_ops env fileID docMid diskMid = []).
  { unfold ops.insert_ops. by rewrite Hdm, Hkm, Nat.min_id, Nat.sub_diag. }
  rewrite Hdel, Hins, !app_nil_r.
  exists (ops.update_ops env stream fileID (crdt.GetLineIDs doc) p docMid diskMid).
  split; [done|]. split.
  { unfold ops.update_ops. apply Forall_forall. intros op Hop.
    apply list_elem_of_bind in Hop as (i & Hop & _).
    case_bool_decide; [|by apply elem_of_nil in Hop].
    by apply list_elem_of_singleton in Hop as ->. }
  clearbody docMid diskMid. clearbody s. clearbody p.
  destruct (update_ops_replay env stream fileID doc disk docMid diskMid p
              Hnodup Hlen) with (k := (length docMid `min` length diskMid)%nat)
    as (_ & Hids & Hmat); [intros i Hi; apply Hpre; lia|done|done|done|].
  unfold ops.update_ops. rewrite Hids, Hmat. split; [|done].
  rewrite Hdm, Hkm, Nat.min_id.
  assert (Hidx : (p + (length disk - s - p))%nat = (length disk - s)%nat)
    by (clear -Hp Hs; lia).
  rewrite Hidx.
  assert (Htail : drop (length disk - s) (crdt.Materialize doc)
                  = drop (length disk - s) disk).
  { apply lists_equal_by_lines; [rewrite !length_drop; clear -Hlen; lia|].
    intros j Hj. rewrite length_drop, <- Hlen in Hj. rewrite !lookup_total_drop.
    specialize (Hsuf (s - 1 - j)%nat).
    assert (Hjs : (length disk - 1 - (s - 1 - j))%nat = (length disk - s + j)%nat)
      by (clear -Hj Hp Hs; lia).
    rewrite Hjs in Hsuf. apply Hsuf. clear -Hj. lia. }
  by rewrite Htail, take_drop.
Qed.

(** The document "a", "y" against the file content "b", "y". *)
Lemma in_place_edits_converge_witness :
  ∃ emitted,
    (ops.processFile sample.ingest_env "main" (Some sample.F1)
       (Some (ops.WriteOp sample.ins_a ++ ops.WriteOp sample.ins_y)) 3 None
       (String "b" (String ops.LF "y"))).2
      = ops.append_all (Some (ops.WriteOp sample.ins_a ++ ops.WriteOp sample.ins_y)) emitted ∧
    Forall (λ op, crdt.Typ op = crdt.OpUpdate) emitted ∧
    crdt.Materialize
      (crdt.apply_all
         (crdt.apply_all crdt.NewRGA [ops.persisted sample.ins_a; ops.persisted sample.ins_y])
         emitted)
      = ops.Split_LF (ops.ReplaceAll_CRLF (String "b" (String ops.LF "y"))) ∧
    crdt.GetLineIDs
      (crdt.apply_all
         (crdt.apply_all crdt.NewRGA [ops.persisted sample.ins_a; ops.persisted sample.ins_y])
         emitted)
      = crdt.GetLineIDs
          (crdt.apply_all crdt.NewRGA [ops.persisted sample.ins_a; ops.persisted sample.ins_y]).
Proof.
  apply (in_place_edits_converge (S:=merge_slice_sort) sample.ingest_env "main" sample.F1
           (Some (ops.WriteOp sample.ins_a ++ ops.WriteOp sample.ins_y)) 3 None
           (String "b" (String ops.LF "y"))
           (crdt.apply_all crdt.NewRGA [ops.persisted sample.ins_a; ops.persisted sample.ins_y])).
  - vm_compute. discriminate.
  - vm_compute. reflexivity.
  - apply (bool_decide_unpack _). vm_compute. exact I.
  - vm_compute. reflexivity.
Defined.

(** ** Ingest of large files *)

Section large_files.
Context {S : SliceSort} {HS : SliceSortSpec S}.

Lemma prefix_append (p r : string) : String.prefix p (p +:+ r) = true.
Proof.
  induction p as [|c p IH]; [by destruct r|].
  change (String c p +:+ r) with (String c (p +:+ r)). cbn [String.prefix].
  by destruct (ascii_dec c c).
Qed.

(** The document of a log that holds one Insert. *)
Lemma replay_one_Insert (op : crdt.Operation) :
  ops.framable op → crdt.Typ op = crdt.OpInsert →
  ∃ doc,
    crdt.apply_strict crdt.NewRGA (ops.LoadAllOps (Some (ops.WriteOp op))).1 = inl doc ∧
    crdt.Materialize doc = [crdt.Content op].
Proof.
  intros Hop Ht.
  change (Some (ops.WriteOp op)) with (ops.append_all None [op]).
  rewrite LoadAllOps_append_all by (by constructor).
  cbn [fst fmap list_fmap crdt.apply_strict].
  rewrite Apply_Insert_NewRGA by done.
  eexists. split; [done|].
  unfold crdt.Materialize, crdt.live, crdt.tombstoned. cbn [crdt.ops crdt.tombstone].
  rewrite filter_cons, filter_nil, lookup_empty. cbn [default from_option].
  by rewrite decide_True.
Qed.
End large_files.

(** X28: a large file is recorded once. On a tracked file above the
    large-file threshold with no log yet, [processFile] stores the file
    and writes one Insert of the stub line "EVO-LFS:<file id>:<size>"; on
    the log it has written, a later [processFile] of the file, still
    large, reports it unchanged and appends nothing, whatever the size
    and content of the file have become. *)
Theorem large_file_recorded_once {S : SliceSort} {HS : SliceSortSpec S}
    (env env' : ops.IngestEnv) (stream : string) (fileID : UUID)
    (fsize fsize' size : Z) (data data' : string) :
  let lop :=
    crdt.mkOperation crdt.OpInsert (wrap64 (ops.env_UnixNano env))
      (ops.env_uuid env 0) fileID (ops.env_uuid env 1)
      ("EVO-LFS:" +:+ UUID_String fileID +:+ ":" +:+ pretty size)
      "" ops.zero_Time [] in
  ops.readLargeThreshold < fsize → ops.readLargeThreshold < fsize' →
  ops.framable lop →
  ops.processFile env stream (Some fileID) None fsize (Some size) data
    = (true, None, Some (ops.WriteOp lop)) ∧
  ∀ size',
    ops.processFile env' stream (Some fileID) (Some (ops.WriteOp lop)) fsize'
      (Some size') data'
    = (false, None, Some (ops.WriteOp lop)).
Proof.
  intros lop Hsize Hsize' Hlop. split.
  - unfold ops.processFile.
    cbn [ops.LoadAllOps fst crdt.apply_strict].
    rewrite (bool_decide_eq_true_2 _ Hsize). reflexivity.
  - intros size'.
    destruct (replay_one_Insert lop Hlop eq_refl) as (doc & Hdoc & Hlines).
    unfold ops.processFile. rewrite Hdoc, (bool_decide_eq_true_2 _ Hsize').
    unfold ops.storeLargeFile. rewrite Hlines.
    cbn [length lookup_total list_lookup_total]. rewrite bool_decide_eq_true_2 by done.
    subst lop. cbn [crdt.Content].
    by rewrite prefix_append.
Qed.

(** A file of two million bytes, ingested twice. *)
Lemma large_file_recorded_once_witness :
  ops.processFile sample.ingest_env "main" (Some sample.F1) None 2000000 (Some 2000000) ""
    = (true, None,
       Some (ops.WriteOp
               (crdt.mkOperation crdt.OpInsert (wrap64 (ops.env_UnixNano sample.ingest_env))
                  (ops.env_uuid sample.ingest_env 0) sample.F1
                  (ops.env_uuid sample.ingest_env 1)
                  ("EVO-LFS:" +:+ UUID_String sample.F1 +:+ ":" +:+ pretty 2000000)
                  "" ops.zero_Time []))) ∧
  ∀ size',
    ops.processFile sample.ingest_env "main" (Some sample.F1)
      (Some (ops.WriteOp
               (crdt.mkOperation crdt.OpInsert (wrap64 (ops.env_UnixNano sample.ingest_env))
                  (ops.env_uuid sample.ingest_env 0) sample.F1
                  (ops.env_uuid sample.ingest_env 1)
                  ("EVO-LFS:" +:+ UUID_String sample.F1 +:+ ":" +:+ pretty 2000000)
                  "" ops.zero_Time [])))
      3000000 (Some size') ""
    = (false, None,
       Some (ops.WriteOp
               (crdt.mkOperation crdt.OpInsert (wrap64 (ops.env_UnixNano sample.ingest_env))
                  (ops.env_uuid sample.ingest_env 0) sample.F1
                  (ops.env_uuid sample.ingest_env 1)
                  ("EVO-LFS:" +:+ UUID_String sample.F1 +:+ ":" +:+ pretty 2000000)
                  "" ops.zero_Time []))).
Proof.
  apply (large_file_recorded_once (S:=merge_slice_sort) sample.ingest_env sample.ingest_env
           "main" sample.F1 2000000 3000000 2000000 "" "").
  - reflexivity.
  - reflexivity.
  - concrete_framable.
Defined.
